(** * Fixed-point math core of the Balancer SDK (dist/index.js)

    A shallow embedding of the arithmetic helpers ([SolidityMaths]),
    the logarithm / exponential library ([LogExpMath]), the stable
    invariant solver ([_calculateInvariant], [bptSpotPrice]) and the
    stable-family [bptZeroPriceImpact] calculators.

    JavaScript [BigInt] values are unbounded integers: they are modelled
    by [Z].  BigInt division [/] truncates toward zero and [%] takes the
    sign of the dividend, which are [Z.quot] and [Z.rem].  A thrown
    exception is the [Err] outcome of the [res] monad.  The recursive
    functions [exp] and [_ln] take the depth of call stack they may use.
    The decimal-string parser of ethers is a parameter of the pool
    functions. *)

From Stdlib Require Import ZArith List String Bool Lia.
Import ListNotations.
Local Open Scope Z_scope.

(** ** Exceptions *)

(** The messages passed to [_require] (thrown as [new Error(message)]). *)
Inductive Errors : Type :=
| ADD_OVERFLOW
| SUB_OVERFLOW
| MUL_OVERFLOW
| ZERO_DIVISION
| DIV_INTERNAL
| X_OUT_OF_BOUNDS
| Y_OUT_OF_BOUNDS
| PRODUCT_OUT_OF_BOUNDS
| INVALID_EXPONENT
| STABLE_INVARIANT_DIDNT_CONVERGE.

(** [exports.BalancerErrorCode]. *)
Inductive BalancerErrorCode : Type :=
| SWAP_ZERO_RETURN_AMOUNT
| UNWRAP_ZERO_AMOUNT
| WRAP_ZERO_AMOUNT
| QUERY_BATCH_SWAP
| POOL_DOESNT_EXIST
| UNSUPPORTED_POOL_TYPE
| UNSUPPORTED_PAIR
| NO_POOL_DATA
| INPUT_OUT_OF_BOUNDS
| INPUT_LENGTH_MISMATCH
| TOKEN_MISMATCH
| MISSING_TOKENS
| MISSING_AMP
| MISSING_DECIMALS
| MISSING_PRICE_RATE
| MISSING_WEIGHT.

(** Everything the modelled code can throw.  [RangeError] is what the
    language raises for a BigInt division by zero, a negative BigInt
    exponent and an exhausted call stack; [TypeError] for arithmetic on
    [undefined]; [LibraryError] stands for an exception of the ethers
    number parser. *)
Inductive exn : Type :=
| Error (message : Errors)
| BalancerError (code : BalancerErrorCode)
| RangeError
| TypeError
| LibraryError.

Inductive res (A : Type) : Type :=
| Ok (a : A)
| Err (e : exn).
Arguments Ok {A} a.
Arguments Err {A} e.

Definition bind {A B : Type} (m : res A) (k : A -> res B) : res B :=
  match m with
  | Ok a => k a
  | Err e => Err e
  end.

Declare Scope res_scope.
Delimit Scope res_scope with res.
Notation "x <- m ;; k" := (bind m (fun x => k))
  (at level 61, m at next level, right associativity) : res_scope.
Notation "m ;;; k" := (bind m (fun _ => k))
  (at level 61, right associativity) : res_scope.
Local Open Scope res_scope.

(** [const _require = (b, message) => { if (!b) throw new Error(message) }] *)
Definition _require (b : bool) (message : Errors) : res unit :=
  if b then Ok tt else Err (Error message).

(** Raw BigInt division [a / b]: a zero divisor is a [RangeError]. *)
Definition bigdiv (a b : Z) : res Z :=
  if b =? 0 then Err RangeError else Ok (Z.quot a b).

(** Raw BigInt exponentiation [a ** b]: a negative exponent is a
    [RangeError]. *)
Definition bigpow (a b : Z) : res Z :=
  if b <? 0 then Err RangeError else Ok (a ^ b).

Definition BZERO : Z := 0.
Definition BONE : Z := 1.
Definition ONE : Z := 1000000000000000000.

(** ** LogExpMath *)

Module LogExpMath.

Definition ONE_18 : Z := 1000000000000000000.
Definition ONE_20 : Z := 100000000000000000000.
Definition ONE_36 : Z := 1000000000000000000000000000000000000.

Definition MAX_NATURAL_EXPONENT : Z := 130000000000000000000.
Definition MIN_NATURAL_EXPONENT : Z := -41000000000000000000.

Definition LN_36_LOWER_BOUND : Z := ONE_18 - 100000000000000000.
Definition LN_36_UPPER_BOUND : Z := ONE_18 + 100000000000000000.

Definition MILD_EXPONENT_BOUND : Z := Z.quot (2 ^ 254) ONE_20.

(** The literal of the [X_OUT_OF_BOUNDS] check in [pow]; it is 2^255. *)
Definition X_BOUND : Z :=
  57896044618658097711785492504343953926634992332820282019728792003956564819968.

Definition x0 : Z := 128000000000000000000.
Definition a0 : Z := 38877084059945950922200000000000000000000000000000000000.
Definition x1 : Z := 64000000000000000000.
Definition a1 : Z := 6235149080811616882910000000.
Definition x2 : Z := 3200000000000000000000.
Definition a2 : Z := 7896296018268069516100000000000000.
Definition x3 : Z := 1600000000000000000000.
Definition a3 : Z := 888611052050787263676000000.
Definition x4 : Z := 800000000000000000000.
Definition a4 : Z := 298095798704172827474000.
Definition x5 : Z := 400000000000000000000.
Definition a5 : Z := 5459815003314423907810.
Definition x6 : Z := 200000000000000000000.
Definition a6 : Z := 738905609893065022723.
Definition x7 : Z := 100000000000000000000.
Definition a7 : Z := 271828182845904523536.
Definition x8 : Z := 50000000000000000000.
Definition a8 : Z := 164872127070012814685.
Definition x9 : Z := 25000000000000000000.
Definition a9 : Z := 128402541668774148407.
Definition x10 : Z := 12500000000000000000.
Definition a10 : Z := 113314845306682631683.
Definition x11 : Z := 6250000000000000000.
Definition a11 : Z := 106449445891785942956.

(** One decomposition statement of [exp]:
    [if (x >= xn) { x -= xn; product = (product * an) / ONE_20; }],
    on the pair of mutable locals [(x, product)]. *)
Definition expTerm (xn an : Z) (st : Z * Z) : Z * Z :=
  let '(x, product) := st in
  if x >=? xn then (x - xn, Z.quot (product * an) ONE_20) else (x, product).

(** One Taylor statement of [exp]:
    [term = (term * x) / ONE_20 / BigInt(n); seriesSum += term;],
    on the pair of mutable locals [(term, seriesSum)]. *)
Definition expTaylor (x n : Z) (st : Z * Z) : Z * Z :=
  let '(term, seriesSum) := st in
  let term := Z.quot (Z.quot (term * x) ONE_20) n in
  (term, seriesSum + term).

(** The part of [exp] below the sign test, for the remaining [x]. *)
Definition expTail (x : Z) : Z :=
  let '(x, firstAN) :=
    if x >=? x0 then (x - x0, a0)
    else if x >=? x1 then (x - x1, a1)
    else (x, 1) in
  let x := x * 100 in
  let st := (x, ONE_20) in
  let st := expTerm x2 a2 st in
  let st := expTerm x3 a3 st in
  let st := expTerm x4 a4 st in
  let st := expTerm x5 a5 st in
  let st := expTerm x6 a6 st in
  let st := expTerm x7 a7 st in
  let st := expTerm x8 a8 st in
  let st := expTerm x9 a9 st in
  let '(x, product) := st in
  let seriesSum := ONE_20 in
  let term := x in
  let seriesSum := seriesSum + term in
  let ts := (term, seriesSum) in
  let ts := expTaylor x 2 ts in
  let ts := expTaylor x 3 ts in
  let ts := expTaylor x 4 ts in
  let ts := expTaylor x 5 ts in
  let ts := expTaylor x 6 ts in
  let ts := expTaylor x 7 ts in
  let ts := expTaylor x 8 ts in
  let ts := expTaylor x 9 ts in
  let ts := expTaylor x 10 ts in
  let ts := expTaylor x 11 ts in
  let ts := expTaylor x 12 ts in
  let '(_, seriesSum) := ts in
  Z.quot (Z.quot (product * seriesSum) ONE_20 * firstAN) 100.

(** [exp] calls itself on [-x] for a negative [x].  [stack] is the
    number of nested calls the call stack still admits; running out of
    it is the [RangeError] of a stack overflow. *)
Fixpoint exp (stack : nat) (x : Z) : res Z :=
  match stack with
  | O => Err RangeError
  | S stack' =>
      _require ((x >=? MIN_NATURAL_EXPONENT) && (x <=? MAX_NATURAL_EXPONENT))
               INVALID_EXPONENT ;;;
      if x <? 0 then
        e <- exp stack' (-1 * x) ;;
        bigdiv (ONE_18 * ONE_18) e
      else Ok (expTail x)
  end.

(** The two series steps shared by [_ln_36] and [_ln]:
    [num = (num * z_squared) / ONE; seriesSum += num / BigInt(n);] *)
Definition lnSeries (one z_squared n : Z) (st : Z * Z) : Z * Z :=
  let '(num, seriesSum) := st in
  let num := Z.quot (num * z_squared) one in
  (num, seriesSum + Z.quot num n).

Definition _ln_36 (x : Z) : res Z :=
  let x := x * ONE_18 in
  z <- bigdiv ((x - ONE_36) * ONE_36) (x + ONE_36) ;;
  let z_squared := Z.quot (z * z) ONE_36 in
  let num := z in
  let seriesSum := num in
  let st := (num, seriesSum) in
  let st := lnSeries ONE_36 z_squared 3 st in
  let st := lnSeries ONE_36 z_squared 5 st in
  let st := lnSeries ONE_36 z_squared 7 st in
  let st := lnSeries ONE_36 z_squared 9 st in
  let st := lnSeries ONE_36 z_squared 11 st in
  let st := lnSeries ONE_36 z_squared 13 st in
  let st := lnSeries ONE_36 z_squared 15 st in
  let '(_, seriesSum) := st in
  Ok (seriesSum * 2).

(** One decomposition statement of [_ln] on 20-decimal values:
    [if (a >= an) { a = (a * ONE_20) / an; sum += xn; }]. *)
Definition lnTerm (an xn : Z) (st : Z * Z) : Z * Z :=
  let '(a, sum) := st in
  if a >=? an then (Z.quot (a * ONE_20) an, sum + xn) else (a, sum).

(** The part of [_ln] below the test [a < ONE_18]. *)
Definition lnTail (a : Z) : res Z :=
  let sum := BZERO in
  let '(a, sum) :=
    if a >=? a0 * ONE_18 then (Z.quot a a0, sum + x0) else (a, sum) in
  let '(a, sum) :=
    if a >=? a1 * ONE_18 then (Z.quot a a1, sum + x1) else (a, sum) in
  let sum := sum * 100 in
  let a := a * 100 in
  let st := (a, sum) in
  let st := lnTerm a2 x2 st in
  let st := lnTerm a3 x3 st in
  let st := lnTerm a4 x4 st in
  let st := lnTerm a5 x5 st in
  let st := lnTerm a6 x6 st in
  let st := lnTerm a7 x7 st in
  let st := lnTerm a8 x8 st in
  let st := lnTerm a9 x9 st in
  let st := lnTerm a10 x10 st in
  let st := lnTerm a11 x11 st in
  let '(a, sum) := st in
  z <- bigdiv ((a - ONE_20) * ONE_20) (a + ONE_20) ;;
  let z_squared := Z.quot (z * z) ONE_20 in
  let num := z in
  let seriesSum := num in
  let ss := (num, seriesSum) in
  let ss := lnSeries ONE_20 z_squared 3 ss in
  let ss := lnSeries ONE_20 z_squared 5 ss in
  let ss := lnSeries ONE_20 z_squared 7 ss in
  let ss := lnSeries ONE_20 z_squared 9 ss in
  let ss := lnSeries ONE_20 z_squared 11 ss in
  let '(_, seriesSum) := ss in
  let seriesSum := seriesSum * 2 in
  Ok (Z.quot (sum + seriesSum) 100).

(** [_ln] calls itself on [ONE_18 * ONE_18 / a] when [a < ONE_18];
    [stack] bounds the nesting as in [exp]. *)
Fixpoint _ln (stack : nat) (a : Z) : res Z :=
  match stack with
  | O => Err RangeError
  | S stack' =>
      if a <? ONE_18 then
        q <- bigdiv (ONE_18 * ONE_18) a ;;
        l <- _ln stack' q ;;
        Ok (-1 * l)
      else lnTail a
  end.

Definition pow (stack : nat) (x y : Z) : res Z :=
  if y =? BZERO then Ok ONE_18
  else if x =? BZERO then Ok BZERO
  else
    _require (x <? X_BOUND) X_OUT_OF_BOUNDS ;;;
    let x_int256 := x in
    _require (y <? MILD_EXPONENT_BOUND) Y_OUT_OF_BOUNDS ;;;
    let y_int256 := y in
    logx_times_y <-
      (if (LN_36_LOWER_BOUND <? x_int256) && (x_int256 <? LN_36_UPPER_BOUND)
       then
         ln_36_x <- _ln_36 x_int256 ;;
         Ok (Z.quot ln_36_x ONE_18 * y_int256
             + Z.quot (Z.rem ln_36_x ONE_18 * y_int256) ONE_18)
       else
         l <- _ln stack x_int256 ;;
         Ok (l * y_int256)) ;;
    let logx_times_y := Z.quot logx_times_y ONE_18 in
    _require ((MIN_NATURAL_EXPONENT <=? logx_times_y)
              && (logx_times_y <=? MAX_NATURAL_EXPONENT))
             PRODUCT_OUT_OF_BOUNDS ;;;
    exp stack logx_times_y.

End LogExpMath.

(** ** SolidityMaths

    The module follows [LogExpMath] because [powUpFixed] calls
    [LogExpMath.pow]. *)

Module SolidityMaths.

Definition MAX_POW_RELATIVE_ERROR : Z := 10000.

Definition add (a b : Z) : res Z :=
  let c := a + b in
  _require (((b >=? 0) && (c >=? a)) || ((b <? 0) && (c <? a))) ADD_OVERFLOW ;;;
  Ok c.

Definition sub (a b : Z) : res Z :=
  _require (b <=? a) SUB_OVERFLOW ;;;
  Ok (a - b).

Definition max (a b : Z) : Z := if a >=? b then a else b.
Definition min (a b : Z) : Z := if a <? b then a else b.

Definition mul (a b : Z) : res Z :=
  let c := a * b in
  _require ((a =? BZERO) || (Z.quot c a =? b)) MUL_OVERFLOW ;;;
  Ok c.

Definition divDown (a b : Z) : res Z :=
  _require (negb (b =? BZERO)) ZERO_DIVISION ;;;
  Ok (Z.quot a b).

Definition divUp (a b : Z) : res Z :=
  _require (negb (b =? BZERO)) ZERO_DIVISION ;;;
  if a =? BZERO then Ok BZERO
  else Ok (BONE + Z.quot (a - BONE) b).

Definition div (a b : Z) (roundUp : bool) : res Z :=
  if roundUp then divUp a b else divDown a b.

Definition mulUpFixed (a b : Z) : res Z :=
  let product := a * b in
  _require ((a =? BZERO) || (Z.quot product a =? b)) MUL_OVERFLOW ;;;
  if product =? BZERO then Ok BZERO
  else Ok (Z.quot (product - BONE) ONE + BONE).

Definition divDownFixed (a b : Z) : res Z :=
  _require (negb (b =? BZERO)) ZERO_DIVISION ;;;
  if a =? BZERO then Ok BZERO
  else
    let aInflated := a * ONE in
    Ok (Z.quot aInflated b).

Definition divUpFixed (a b : Z) : res Z :=
  _require (negb (b =? BZERO)) ZERO_DIVISION ;;;
  if a =? BZERO then Ok BZERO
  else
    let aInflated := a * ONE in
    _require (Z.quot aInflated a =? ONE) DIV_INTERNAL ;;;
    Ok (Z.quot (aInflated - BONE) b + BONE).

Definition complementFixed (x : Z) : Z :=
  if x <? ONE then ONE - x else BZERO.

Definition mulDownFixed (a b : Z) : res Z :=
  let product := a * b in
  _require ((a =? BZERO) || (Z.quot product a =? b)) MUL_OVERFLOW ;;;
  Ok (Z.quot product ONE).

Definition powUpFixed (stack : nat) (x y : Z) : res Z :=
  raw <- LogExpMath.pow stack x y ;;
  m <- mulUpFixed raw MAX_POW_RELATIVE_ERROR ;;
  maxError <- add m BONE ;;
  add raw maxError.

End SolidityMaths.

(** ** Scaling helpers *)

(** [_computeScalingFactor]: [ONE * BigInt(10) ** (BigInt(18) - tokenDecimals)]. *)
Definition _computeScalingFactor (tokenDecimals : Z) : res Z :=
  let decimalsDifference := 18 - tokenDecimals in
  p <- bigpow 10 decimalsDifference ;;
  Ok (ONE * p).

Definition _upscale (amount scalingFactor : Z) : res Z :=
  SolidityMaths.mulDownFixed amount scalingFactor.

Definition calcPriceImpact (bptAmount bptZeroPriceImpact : Z) : res Z :=
  d <- SolidityMaths.divDownFixed bptAmount bptZeroPriceImpact ;;
  Ok (ONE - d).

(** ** Computations that log their rounded divisions

    [SolidityMaths.div] is the only operation of the invariant solver
    that takes a rounding direction.  To speak about the directions a
    run of the solver uses, its model records the [roundUp] argument of
    every call of [SolidityMaths.div], in call order, next to the
    outcome. *)

Record logged (A : Type) : Type := Logged {
  divLog : list bool;
  outcome : res A
}.
Arguments Logged {A} divLog outcome.
Arguments divLog {A} l.
Arguments outcome {A} l.

Definition lret {A : Type} (a : A) : logged A := Logged [] (Ok a).

Definition lift {A : Type} (m : res A) : logged A := Logged [] m.

Definition lbind {A B : Type} (m : logged A) (k : A -> logged B) : logged B :=
  match outcome m with
  | Ok a => let r := k a in Logged (divLog m ++ divLog r) (outcome r)
  | Err e => Logged (divLog m) (Err e)
  end.

Declare Scope logged_scope.
Delimit Scope logged_scope with logged.
Notation "x <- m ;; k" := (lbind m (fun x => k))
  (at level 61, m at next level, right associativity) : logged_scope.

(** A call [SolidityMaths.div(a, b, roundUp)] inside the solver. *)
Definition divL (a b : Z) (roundUp : bool) : logged Z :=
  Logged [roundUp] (SolidityMaths.div a b roundUp).

(** ** The stable invariant *)

Definition AMP_PRECISION : Z := 1000.

(** [for (i = 0; i < numTokens; i++) sum = sum + balances[i]] *)
Definition sumBalances (balances : list Z) : Z :=
  fold_left Z.add balances BZERO.

(** An array read that is used in arithmetic: an index past the end
    reads [undefined], and BigInt arithmetic on it is a [TypeError]. *)
Definition at_index {A : Type} (l : list A) (i : nat) : res A :=
  match nth_error l i with
  | Some a => Ok a
  | None => Err TypeError
  end.

(** The inner loop [for (j = 1; j < numTokens; j++)] over the balances
    after the first, threading [P_D]. *)
Fixpoint calcP_D (numTokens invariant : Z) (roundUp : bool)
         (rest : list Z) (P_D : Z) : logged Z :=
  match rest with
  | [] => lret P_D
  | bj :: rest' =>
      (m1 <- lift (SolidityMaths.mul P_D bj) ;;
       m2 <- lift (SolidityMaths.mul m1 numTokens) ;;
       P_D' <- divL m2 invariant roundUp ;;
       calcP_D numTokens invariant roundUp rest' P_D')%logged
  end.

(** The update of one iteration of the outer loop: the new [invariant]
    from the current one. *)
Definition nextInvariant (amp : Z) (balances : list Z) (roundUp : bool)
           (sum invariant : Z) : logged Z :=
  let numTokens := Z.of_nat (List.length balances) in
  let ampTimesTotal := amp * numTokens in
  (b0 <- lift (at_index balances 0) ;;
   P_D <- calcP_D numTokens invariant roundUp (tl balances) (b0 * numTokens) ;;
   n1 <- lift (SolidityMaths.mul numTokens invariant) ;;
   n2 <- lift (SolidityMaths.mul n1 invariant) ;;
   n3 <- lift (SolidityMaths.mul ampTimesTotal sum) ;;
   n4 <- lift (SolidityMaths.mul n3 P_D) ;;
   n5 <- divL n4 AMP_PRECISION roundUp ;;
   d1 <- lift (SolidityMaths.mul (numTokens + 1) invariant) ;;
   d2 <- lift (SolidityMaths.mul (ampTimesTotal - AMP_PRECISION) P_D) ;;
   d3 <- divL d2 AMP_PRECISION (negb roundUp) ;;
   divL (n2 + n5) (d1 + d3) roundUp)%logged.

(** The two [return invariant] tests at the end of an iteration. *)
Definition converged (prevInvariant invariant : Z) : bool :=
  if invariant >? prevInvariant
  then invariant - prevInvariant <=? 1
  else prevInvariant - invariant <=? 1.

(** The loop [for (i = 0; i < 255; i++)] with [budget] iterations left,
    entered with the current [invariant]. *)
Fixpoint invariantLoop (amp : Z) (balances : list Z) (roundUp : bool)
         (sum : Z) (budget : nat) (invariant : Z) : logged Z :=
  match budget with
  | O => lift (Err (Error STABLE_INVARIANT_DIDNT_CONVERGE))
  | S budget' =>
      let prevInvariant := invariant in
      (invariant <- nextInvariant amp balances roundUp sum prevInvariant ;;
       if converged prevInvariant invariant then lret invariant
       else invariantLoop amp balances roundUp sum budget' invariant)%logged
  end.

Definition _calculateInvariant (amp : Z) (balances : list Z) (roundUp : bool)
  : logged Z :=
  let sum := sumBalances balances in
  if sum =? BZERO then lret BZERO
  else invariantLoop amp balances roundUp sum 255 sum.

(** The loop of [bptSpotPrice] over the balances from index [i] on,
    threading [(S, D_P)] (the local [S] is written [S'] here). *)
Fixpoint spotLoop (totalCoins D : Z) (tokenIndexIn i : nat)
         (rest : list Z) (st : Z * Z) : res (Z * Z) :=
  match rest with
  | [] => Ok st
  | bi :: rest' =>
      let '(S', D_P) := st in
      if negb (Nat.eqb i tokenIndexIn) then
        D_P' <- bigdiv (D_P * D) (totalCoins * bi) ;;
        spotLoop totalCoins D tokenIndexIn (S i) rest' (S' + bi, D_P')
      else spotLoop totalCoins D tokenIndexIn (S i) rest' (S', D_P)
  end.

Definition bptSpotPrice (amp : Z) (balances : list Z) (bptSupply : Z)
           (tokenIndexIn : nat) : res Z :=
  let totalCoins := Z.of_nat (List.length balances) in
  D <- outcome (_calculateInvariant amp balances true) ;;
  D_P0 <- bigdiv D totalCoins ;;
  st <- spotLoop totalCoins D tokenIndexIn 0 balances (BZERO, D_P0) ;;
  let '(S', D_P) := st in
  x <- at_index balances tokenIndexIn ;;
  let alpha := amp * totalCoins in
  let beta := alpha * S' in
  let gamma := AMP_PRECISION - alpha in
  let partial_x := 2 * alpha * x + beta + gamma * D in
  let minus_partial_D := D_P * (totalCoins + 1) * AMP_PRECISION - gamma * x in
  q <- bigdiv (partial_x * bptSupply) minus_partial_D ;;
  SolidityMaths.divUpFixed q D.

(** ** Pool snapshots *)

(** A token of a pool as the data layer supplies it.  Numeric fields are
    decimal strings, [decimals] is a number; [None] is an absent
    ([undefined]) field. *)
Record Token : Type := {
  address : string;
  decimals : option Z;
  balance : string;
  weight : option string;
  priceRate : option string
}.

Record Pool : Type := {
  pool_address : string;
  tokensList : list string;
  tokens : list Token;
  amp : option string;
  totalShares : string;
  swapFee : string
}.

(** The ethers parser [bignumber.parseFixed(value, decimals)] is not
    part of this code base: the pool functions take it as the argument
    [parseFixed], whose second argument is [None] for [undefined]. *)
Definition Parser : Type := string -> option Z -> res Z.

(** Truthiness of an optional number and of an optional string. *)
Definition truthyNumber (n : option Z) : option Z :=
  match n with
  | Some d => if d =? 0 then None else Some d
  | None => None
  end.

Definition truthyString (s : option string) : option string :=
  match s with
  | Some v => if String.eqb v EmptyString then None else Some v
  | None => None
  end.

(** [Array.prototype.map] with a callback that may throw. *)
Fixpoint mapM {A B : Type} (f : A -> res B) (l : list A) : res (list B) :=
  match l with
  | [] => Ok []
  | a :: l' => b <- f a ;; bs <- mapM f l' ;; Ok (b :: bs)
  end.

(** The same with the index passed to the callback, from index [i]. *)
Fixpoint mapiM {A B : Type} (f : A -> nat -> res B) (i : nat) (l : list A)
  : res (list B) :=
  match l with
  | [] => Ok []
  | a :: l' => b <- f a i ;; bs <- mapiM f (S i) l' ;; Ok (b :: bs)
  end.

(** [for (i ...) { newTerm = ...; bptZeroPriceImpact += newTerm; }] over
    the indices [idx]. *)
Fixpoint sumTerms (newTerm : nat -> res Z) (idx : list nat) (acc : Z) : res Z :=
  match idx with
  | [] => Ok acc
  | i :: idx' => t <- newTerm i ;; sumTerms newTerm idx' (acc + t)
  end.

(** [Array.prototype.findIndex] with the test [token == addr]. *)
Fixpoint findIndex (addr : string) (l : list string) (i : Z) : Z :=
  match l with
  | [] => -1
  | t :: l' => if String.eqb t addr then i else findIndex addr l' (i + 1)
  end.

(** [array.splice(start, 1)]: a negative [start] counts from the end. *)
Definition splice1 {A : Type} (l : list A) (start : Z) : list A :=
  let len := Z.of_nat (List.length l) in
  let actualStart :=
    if start <? 0 then Z.max (len + start) 0 else Z.min start len in
  let k := Z.to_nat actualStart in
  firstn k l ++ skipn (S k) l.

Record PoolInfo : Type := {
  parsedTokens : list string;
  parsedDecimals : list (option Z);
  parsedBalances : list Z;
  parsedWeights : list (option Z);
  parsedPriceRates : list (option Z);
  parsedAmp : option Z;
  parsedTotalShares : Z;
  parsedSwapFee : Z
}.

Definition parseOptional (parseFixed : Parser) (d : Z) (v : option string)
  : res (option Z) :=
  match truthyString v with
  | Some s => n <- parseFixed s (Some d) ;; Ok (Some n)
  | None => Ok None
  end.

Definition parsePoolInfo (parseFixed : Parser) (pool : Pool) : res PoolInfo :=
  let parsedTokens := map address (tokens pool) in
  let parsedDecimals := map (fun token => truthyNumber (decimals token)) (tokens pool) in
  parsedBalances <-
    mapM (fun token => parseFixed (balance token) (decimals token)) (tokens pool) ;;
  parsedWeights <-
    mapM (fun token => parseOptional parseFixed 18 (weight token)) (tokens pool) ;;
  parsedPriceRates <-
    mapM (fun token => parseOptional parseFixed 18 (priceRate token)) (tokens pool) ;;
  parsedAmp <- parseOptional parseFixed 3 (amp pool) ;;
  parsedTotalShares <- parseFixed (totalShares pool) (Some 18) ;;
  parsedSwapFee <- parseFixed (swapFee pool) (Some 18) ;;
  Ok {| parsedTokens := parsedTokens;
        parsedDecimals := parsedDecimals;
        parsedBalances := parsedBalances;
        parsedWeights := parsedWeights;
        parsedPriceRates := parsedPriceRates;
        parsedAmp := parsedAmp;
        parsedTotalShares := parsedTotalShares;
        parsedSwapFee := parsedSwapFee |}.

(** [if (!x) throw new BalancerError(code); return BigInt(x);] *)
Definition orThrow (code : BalancerErrorCode) (x : option Z) : res Z :=
  match x with
  | Some v => Ok v
  | None => Err (BalancerError code)
  end.

(** [balances = parsedBalances.map((balance, i) =>
      _upscale(BigInt(balance), scalingFactors[i]))] *)
Definition upscaleAll (parsedBalances scalingFactors : list Z) : res (list Z) :=
  mapiM (fun balance i => sf <- at_index scalingFactors i ;; _upscale balance sf)
        0%nat parsedBalances.

(** [balancesScaled = balances.map((balance, i) =>
      SolidityMaths.mulDownFixed(balance, priceRates[i]))] *)
Definition scaleAll (balances priceRates : list Z) : res (list Z) :=
  mapiM (fun balance i =>
           r <- at_index priceRates i ;; SolidityMaths.mulDownFixed balance r)
        0%nat balances.

(** ** StablePoolPriceImpact *)

Module StablePoolPriceImpact.

Definition bptZeroPriceImpact (parseFixed : Parser) (pool : Pool)
           (tokenAmounts : list Z) : res Z :=
  if negb (Nat.eqb (List.length tokenAmounts) (List.length (tokensList pool)))
  then Err (BalancerError INPUT_LENGTH_MISMATCH)
  else
    info <- parsePoolInfo parseFixed pool ;;
    decimals_ <- mapM (orThrow MISSING_DECIMALS) (parsedDecimals info) ;;
    parsedAmp <- orThrow MISSING_PRICE_RATE (parsedAmp info) ;;
    let totalShares := parsedTotalShares info in
    scalingFactors <- mapM _computeScalingFactor decimals_ ;;
    balances <- upscaleAll (parsedBalances info) scalingFactors ;;
    sumTerms
      (fun i =>
         price <- bptSpotPrice parsedAmp balances totalShares i ;;
         d <- at_index decimals_ i ;;
         scalingFactor <- _computeScalingFactor d ;;
         amount <- at_index tokenAmounts i ;;
         amountUpscaled <- _upscale amount scalingFactor ;;
         Ok (Z.quot (price * amountUpscaled) ONE))
      (seq 0 (List.length balances)) BZERO.

End StablePoolPriceImpact.

(** ** MetaStablePoolPriceImpact *)

Module MetaStablePoolPriceImpact.

Definition bptZeroPriceImpact (parseFixed : Parser) (pool : Pool)
           (tokenAmounts : list Z) : res Z :=
  if negb (Nat.eqb (List.length tokenAmounts) (List.length (tokensList pool)))
  then Err (BalancerError INPUT_LENGTH_MISMATCH)
  else
    info <- parsePoolInfo parseFixed pool ;;
    let totalShares := parsedTotalShares info in
    decimals_ <- mapM (orThrow MISSING_DECIMALS) (parsedDecimals info) ;;
    priceRates <- mapM (orThrow MISSING_PRICE_RATE) (parsedPriceRates info) ;;
    parsedAmp <- orThrow MISSING_PRICE_RATE (parsedAmp info) ;;
    scalingFactors <- mapM _computeScalingFactor decimals_ ;;
    balances <- upscaleAll (parsedBalances info) scalingFactors ;;
    balancesScaled <- scaleAll balances priceRates ;;
    sumTerms
      (fun i =>
         spot <- bptSpotPrice parsedAmp balancesScaled totalShares i ;;
         rate <- at_index priceRates i ;;
         let price := Z.quot (spot * rate) ONE in
         token <- at_index (tokens pool) i ;;
         d <- match decimals token with
              | Some d => Ok d
              | None => Err TypeError
              end ;;
         scalingFactor <- _computeScalingFactor d ;;
         amount <- at_index tokenAmounts i ;;
         amountUpscaled <- _upscale amount scalingFactor ;;
         Ok (Z.quot (price * amountUpscaled) ONE))
      (seq 0 (List.length balances)) BZERO.

End MetaStablePoolPriceImpact.

(** ** StablePhantomPriceImpact *)

Module StablePhantomPriceImpact.

(** What the statements before the final loop compute. *)
Record Prepared : Type := {
  p_tokensList : list string;
  p_decimals : list Z;
  p_priceRates : list Z;
  p_amp : Z;
  p_totalShares : Z;
  p_balances : list Z;
  p_balancesScaled : list Z
}.

(** The body of [bptZeroPriceImpact] up to the final loop. *)
Definition prepare (parseFixed : Parser) (pool : Pool)
           (tokenAmounts : list Z) : res Prepared :=
  if negb (Z.of_nat (List.length tokenAmounts)
           =? Z.of_nat (List.length (tokensList pool)) - 1)
  then Err (BalancerError INPUT_LENGTH_MISMATCH)
  else
    let tokensList0 := tokensList pool in
    let bptIndex := findIndex (pool_address pool) tokensList0 0 in
    info <- parsePoolInfo parseFixed pool ;;
    decimals_ <- mapM (orThrow MISSING_DECIMALS) (parsedDecimals info) ;;
    priceRates <- mapM (orThrow MISSING_PRICE_RATE) (parsedPriceRates info) ;;
    parsedAmp <- orThrow MISSING_PRICE_RATE (parsedAmp info) ;;
    let totalShares := parsedTotalShares info in
    let tokensList1 := splice1 tokensList0 bptIndex in
    scalingFactors <- mapM _computeScalingFactor decimals_ ;;
    balances <- upscaleAll (parsedBalances info) scalingFactors ;;
    if negb (Nat.eqb (List.length tokenAmounts) (List.length tokensList1))
    then Err (BalancerError INPUT_LENGTH_MISMATCH)
    else
      let balances := splice1 balances bptIndex in
      balancesScaled <- scaleAll balances priceRates ;;
      Ok {| p_tokensList := tokensList1;
            p_decimals := decimals_;
            p_priceRates := priceRates;
            p_amp := parsedAmp;
            p_totalShares := totalShares;
            p_balances := balances;
            p_balancesScaled := balancesScaled |}.

(** The final loop. *)
Definition accumulate (p : Prepared) (tokenAmounts : list Z) : res Z :=
  sumTerms
    (fun i =>
       spot <- bptSpotPrice (p_amp p) (p_balancesScaled p) (p_totalShares p) i ;;
       rate <- at_index (p_priceRates p) i ;;
       let price := Z.quot (spot * rate) ONE in
       d <- at_index (p_decimals p) i ;;
       scalingFactor <- _computeScalingFactor d ;;
       amount <- at_index tokenAmounts i ;;
       amountUpscaled <- _upscale amount scalingFactor ;;
       Ok (Z.quot (price * amountUpscaled) ONE))
    (seq 0 (List.length (p_tokensList p))) BZERO.

Definition bptZeroPriceImpact (parseFixed : Parser) (pool : Pool)
           (tokenAmounts : list Z) : res Z :=
  p <- prepare parseFixed pool tokenAmounts ;;
  accumulate p tokenAmounts.

End StablePhantomPriceImpact.

(** * Definitions used by the statements *)

(** ** The solver *)

(** What [SolidityMaths.div] returns for a non-zero divisor. *)
Definition roundDiv (a b : Z) (roundUp : bool) : Z :=
  if roundUp then (if a =? 0 then 0 else 1 + Z.quot (a - 1) b)
  else Z.quot a b.

(** What the inner loop leaves in [P_D] when no division fails. *)
Fixpoint P_D_value (numTokens invariant : Z) (roundUp : bool)
         (rest : list Z) (P_D : Z) : Z :=
  match rest with
  | [] => P_D
  | bj :: rest' =>
      P_D_value numTokens invariant roundUp rest'
                (roundDiv (P_D * bj * numTokens) invariant roundUp)
  end.

(** The rounding directions of the divisions of one complete iteration
    over [n] balances, in call order: the [n - 1] divisions of the inner
    loop, the division of the numerator's second summand, the division
    of the denominator's second summand, and the outer division. *)
Definition iterationDirections (roundUp : bool) (n : nat) : list bool :=
  repeat roundUp (n - 1) ++ [roundUp; negb roundUp; roundUp].

(** The sequence of iterates: [D_0 = S] and [D_(k+1)] is the update of
    [D_k]. *)
Fixpoint iterate (amp : Z) (balances : list Z) (roundUp : bool) (k : nat)
  : res Z :=
  match k with
  | O => Ok (sumBalances balances)
  | S k' =>
      d <- iterate amp balances roundUp k' ;;
      outcome (nextInvariant amp balances roundUp (sumBalances balances) d)
  end.

(** Iterates [j] and [j + 1] exist and differ by more than one unit. *)
Definition farApart (amp : Z) (balances : list Z) (roundUp : bool) (j : nat)
  : Prop :=
  exists d d',
    iterate amp balances roundUp j = Ok d /\
    iterate amp balances roundUp (S j) = Ok d' /\
    1 < Z.abs (d' - d).

(** Iterates [k] and [k + 1] exist, differ by at most one unit, and
    iterate [k + 1] is [d']. *)
Definition closeAt (amp : Z) (balances : list Z) (roundUp : bool) (k : nat)
           (d' : Z) : Prop :=
  exists d,
    iterate amp balances roundUp k = Ok d /\
    iterate amp balances roundUp (S k) = Ok d' /\
    Z.abs (d' - d) <= 1.

(** The outcome of the solver as C1 states it: the solver returns the
    new iterate at the first pair of consecutive iterates that are
    close, and fails with [STABLE_INVARIANT_DIDNT_CONVERGE] when no pair
    within the budget of 255 iterations is close. *)
Definition converges_or_fails_as_stated (amp : Z) (bs : list Z)
           (roundUp : bool) : Prop :=
  let r := outcome (_calculateInvariant amp bs roundUp) in
  (forall k d',
      (k < 255)%nat ->
      (forall i, (i < k)%nat -> farApart amp bs roundUp i) ->
      closeAt amp bs roundUp k d' -> r = Ok d') /\
  ((forall k d', (k < 255)%nat -> ~ closeAt amp bs roundUp k d') ->
   r = Err (Error STABLE_INVARIANT_DIDNT_CONVERGE)).

(** The rounding directions as C2 states them: every division of a run
    of the solver uses the caller's direction. *)
Definition same_direction_as_stated (amp : Z) (bs : list Z) (roundUp : bool)
  : Prop :=
  forall flag,
    In flag (divLog (_calculateInvariant amp bs roundUp)) -> flag = roundUp.

(** ** [exp] *)

(** Both components of a pair of loop variables are non-negative. *)
Definition nonneg2 (st : Z * Z) : Prop := 0 <= fst st /\ 0 <= snd st.

(** ** A parser and snapshots for concrete evaluations *)

Definition digitValue (c : Ascii.ascii) : option Z :=
  let n := Z.of_nat (Ascii.nat_of_ascii c) in
  if (48 <=? n) && (n <=? 57) then Some (n - 48) else None.

Fixpoint parseDigits (s : string) (acc : Z) : option Z :=
  match s with
  | EmptyString => Some acc
  | String c s' =>
      match digitValue c with
      | Some d => parseDigits s' (acc * 10 + d)
      | None => None
      end
  end.

(** The ethers parser restricted to non-empty strings of decimal digits
    (no sign, no fractional part): the value times [10 ^ decimals], with
    [decimals] defaulting to 0.  Everything else is rejected.  It is used
    to evaluate the pool functions on concrete snapshots only; the
    statements about all snapshots hold for an arbitrary parser. *)
Definition parseFixedDigits : Parser :=
  fun value decimals =>
    let d := match decimals with Some d => d | None => 0 end in
    if (d <? 0) || String.eqb value EmptyString then Err LibraryError
    else
      match parseDigits value 0 with
      | Some v => Ok (v * 10 ^ d)
      | None => Err LibraryError
      end.

Local Open Scope string_scope.

Definition sampleToken (addr : string) (rate : option string) : Token :=
  {| address := addr;
     decimals := Some 18;
     balance := "1000";
     weight := None;
     priceRate := rate |}.

(** A two-token stable pool whose [amp] field is absent. *)
Definition stableNoAmp : Pool :=
  {| pool_address := "0xpool";
     tokensList := ["0xa"; "0xb"];
     tokens := [sampleToken "0xa" None; sampleToken "0xb" None];
     amp := None;
     totalShares := "2000";
     swapFee := "0" |}.

(** The same with price rates, for a meta-stable pool. *)
Definition metaStableNoAmp : Pool :=
  {| pool_address := "0xpool";
     tokensList := ["0xa"; "0xb"];
     tokens := [sampleToken "0xa" (Some "1"); sampleToken "0xb" (Some "1")];
     amp := None;
     totalShares := "2000";
     swapFee := "0" |}.

(** A phantom-stable pool that holds its own BPT next to two tokens and
    lacks [amp]. *)
Definition phantomNoAmp : Pool :=
  {| pool_address := "0xpool";
     tokensList := ["0xa"; "0xpool"; "0xb"];
     tokens := [sampleToken "0xa" (Some "1");
                sampleToken "0xpool" (Some "1");
                sampleToken "0xb" (Some "1")];
     amp := None;
     totalShares := "2000";
     swapFee := "0" |}.

(** A phantom-stable pool with [amp = 100] that holds 5000 of its own
    BPT between two tokens of balance 1000. *)
Definition phantomPool : Pool :=
  {| pool_address := "0xpool";
     tokensList := ["0xa"; "0xpool"; "0xb"];
     tokens := [sampleToken "0xa" (Some "1");
                {| address := "0xpool";
                   decimals := Some 18;
                   balance := "5000";
                   weight := None;
                   priceRate := Some "1" |};
                sampleToken "0xb" (Some "1")];
     amp := Some "100";
     totalShares := "2000";
     swapFee := "0" |}.

Local Close Scope string_scope.

(** The upscaled balance [b] of token [t]: its balance string parsed at
    the token's decimals and multiplied by the token's scaling factor. *)
Definition upscaledBalance (parseFixed : Parser) (t : Token) (b : Z) : Prop :=
  exists raw d sf,
    parseFixed (balance t) (decimals t) = Ok raw /\
    truthyNumber (decimals t) = Some d /\
    _computeScalingFactor d = Ok sf /\
    _upscale raw sf = Ok b.

(** * Further definitions *)

(** ** WeightedPoolPriceImpact *)

(** An array read whose result is tested for truthiness: an index past
    the end and an [undefined] element both read as [None]. *)
Definition read_optional {A : Type} (l : list (option A)) (i : nat)
  : option A :=
  match nth_error l i with
  | Some (Some a) => Some a
  | _ => None
  end.

Module WeightedPoolPriceImpact.

Definition bptZeroPriceImpact (parseFixed : Parser) (pool : Pool)
           (tokenAmounts : list Z) : res Z :=
  if negb (Nat.eqb (List.length tokenAmounts) (List.length (tokensList pool)))
  then Err (BalancerError INPUT_LENGTH_MISMATCH)
  else
    info <- parsePoolInfo parseFixed pool ;;
    let totalShares := parsedTotalShares info in
    let tokensList := tokensList pool in
    sumTerms
      (fun i =>
         decimals_ <- orThrow MISSING_DECIMALS
                              (read_optional (parsedDecimals info) i) ;;
         scalingFactor <- _computeScalingFactor decimals_ ;;
         parsedBalance <- at_index (parsedBalances info) i ;;
         balance_ <- _upscale parsedBalance scalingFactor ;;
         weight_ <- orThrow MISSING_WEIGHT
                            (read_optional (parsedWeights info) i) ;;
         price <- bigdiv (weight_ * totalShares) balance_ ;;
         amount <- at_index tokenAmounts i ;;
         amountUpscaled <- _upscale amount scalingFactor ;;
         Ok (Z.quot (price * amountUpscaled) ONE))
      (seq 0 (List.length tokensList)) BZERO.

End WeightedPoolPriceImpact.

(** ** The [calcPriceImpact] methods

    The four price-impact classes share the method
    [calcPriceImpact(pool, tokenAmounts, bptAmount)]: it calls the
    class's own [bptZeroPriceImpact] and passes the result to the
    function [calcPriceImpact]. *)

Definition calcPriceImpactWith
           (bptZeroPriceImpact : Parser -> Pool -> list Z -> res Z)
           (parseFixed : Parser) (pool : Pool) (tokenAmounts : list Z)
           (bptAmount : Z) : res Z :=
  z <- bptZeroPriceImpact parseFixed pool tokenAmounts ;;
  calcPriceImpact bptAmount z.

Module StablePoolPriceImpactMethods.
Definition calcPriceImpact : Parser -> Pool -> list Z -> Z -> res Z :=
  calcPriceImpactWith StablePoolPriceImpact.bptZeroPriceImpact.
End StablePoolPriceImpactMethods.

Module WeightedPoolPriceImpactMethods.
Definition calcPriceImpact : Parser -> Pool -> list Z -> Z -> res Z :=
  calcPriceImpactWith WeightedPoolPriceImpact.bptZeroPriceImpact.
End WeightedPoolPriceImpactMethods.

Module MetaStablePoolPriceImpactMethods.
Definition calcPriceImpact : Parser -> Pool -> list Z -> Z -> res Z :=
  calcPriceImpactWith MetaStablePoolPriceImpact.bptZeroPriceImpact.
End MetaStablePoolPriceImpactMethods.

Module StablePhantomPriceImpactMethods.
Definition calcPriceImpact : Parser -> Pool -> list Z -> Z -> res Z :=
  calcPriceImpactWith StablePhantomPriceImpact.bptZeroPriceImpact.
End StablePhantomPriceImpactMethods.

(** ** Validation in the join builders

    [buildJoin] of the stable, meta-stable and weighted pools validates
    its input and then builds the transaction with code outside this
    model (token sorting, the SOR math library, the ABI encoder).  The
    statements that follow the validation are the argument [rest]. *)

Definition isAbsent {A : Type} (x : option A) : bool :=
  match x with
  | Some _ => false
  | None => true
  end.

(** [tokensIn.length != amountsIn.length ||
     tokensIn.length != pool.tokensList.length] *)
Definition joinLengthMismatch (pool : Pool) (tokensIn amountsIn : list string)
  : bool :=
  negb (Nat.eqb (List.length tokensIn) (List.length amountsIn))
  || negb (Nat.eqb (List.length tokensIn) (List.length (tokensList pool))).

Module StablePoolJoin.
Definition buildJoin {A : Type} (rest : res A) (pool : Pool)
           (tokensIn amountsIn : list string) : res A :=
  if joinLengthMismatch pool tokensIn amountsIn
  then Err (BalancerError INPUT_LENGTH_MISMATCH)
  else if existsb (fun token => isAbsent (truthyNumber (decimals token)))
                  (tokens pool)
  then Err (BalancerError MISSING_DECIMALS)
  else if isAbsent (truthyString (amp pool))
  then Err (BalancerError MISSING_AMP)
  else rest.
End StablePoolJoin.

Module MetaStablePoolJoin.
Definition buildJoin {A : Type} (rest : res A) (pool : Pool)
           (tokensIn amountsIn : list string) : res A :=
  if joinLengthMismatch pool tokensIn amountsIn
  then Err (BalancerError INPUT_LENGTH_MISMATCH)
  else if existsb (fun token => isAbsent (truthyNumber (decimals token)))
                  (tokens pool)
  then Err (BalancerError MISSING_DECIMALS)
  else if isAbsent (truthyString (amp pool))
  then Err (BalancerError MISSING_AMP)
  else if existsb (fun token => isAbsent (truthyString (priceRate token)))
                  (tokens pool)
  then Err (BalancerError MISSING_PRICE_RATE)
  else rest.
End MetaStablePoolJoin.

Module WeightedPoolJoin.
Definition buildJoin {A : Type} (rest : res A) (pool : Pool)
           (tokensIn amountsIn : list string) : res A :=
  if joinLengthMismatch pool tokensIn amountsIn
  then Err (BalancerError INPUT_LENGTH_MISMATCH)
  else if existsb (fun token => isAbsent (truthyNumber (decimals token)))
                  (tokens pool)
  then Err (BalancerError MISSING_DECIMALS)
  else if existsb (fun token => isAbsent (truthyString (weight token)))
                  (tokens pool)
  then Err (BalancerError MISSING_WEIGHT)
  else rest.
End WeightedPoolJoin.

(** ** Slippage helpers

    The amounts are ethers [BigNumber]s, unbounded integers like
    [BigInt]: [mul], [add] and [sub] are exact, [div] truncates toward
    zero and throws for a zero divisor (an exception of the library,
    [LibraryError] here). *)

Definition bndiv (a b : Z) : res Z :=
  if b =? 0 then Err LibraryError else Ok (Z.quot a b).

Definition bpsPerOne : Z := 10000.

Definition mulSlippage (amount slippage : Z) : res Z :=
  bndiv (amount * slippage) bpsPerOne.

Definition subSlippage (amount slippage : Z) : res Z :=
  delta <- mulSlippage amount slippage ;;
  Ok (amount - delta).

Definition addSlippage (amount slippage : Z) : res Z :=
  delta <- mulSlippage amount slippage ;;
  Ok (amount + delta).

(** ** Normalized weights *)

Definition MaxWeightedTokens : nat := 100.

(** [constants.WeiPerEther] *)
Definition WeiPerEther : Z := 1000000000000000000.

(** [weights.reduce((total, weight) => total.add(weight), constants.Zero)] *)
Definition totalWeight (weights : list Z) : Z := fold_left Z.add weights 0.

(** The loop of [toNormalizedWeights] over the weights from the current
    index on, threading [normalizedSum]: every weight but the last is
    scaled, the last one takes what is left of [WeiPerEther]. *)
Fixpoint normalizeFrom (sum : Z) (rest : list Z) (normalizedSum : Z)
  : res (list Z) :=
  match rest with
  | [] => Ok []
  | w :: rest' =>
      match rest' with
      | [] => Ok [WeiPerEther - normalizedSum]
      | _ :: _ =>
          n <- bndiv (w * WeiPerEther) sum ;;
          ns <- normalizeFrom sum rest' (normalizedSum + n) ;;
          Ok (n :: ns)
      end
  end.

Definition toNormalizedWeights (weights : list Z) : res (list Z) :=
  if Nat.eqb (List.length weights) MaxWeightedTokens then
    q <- bndiv WeiPerEther (Z.of_nat MaxWeightedTokens) ;;
    Ok (repeat q MaxWeightedTokens)
  else
    let sum := totalWeight weights in
    if sum =? WeiPerEther then Ok weights
    else normalizeFrom sum weights 0.

Definition isNormalizedWeights (weights : list Z) : bool :=
  totalWeight weights =? WeiPerEther.

Local Open Scope string_scope.

(** A pool with the pool's own token in second place, whose second
    token has [decimals = 0], whose third token has no price rate, and
    which has no [amp]. *)
Definition incompletePool : Pool :=
  {| pool_address := "0xpool";
     tokensList := ["0xa"; "0xpool"; "0xb"];
     tokens := [sampleToken "0xa" (Some "1");
                {| address := "0xpool";
                   decimals := Some 0;
                   balance := "5000";
                   weight := None;
                   priceRate := Some "1" |};
                sampleToken "0xb" None];
     amp := None;
     totalShares := "2000";
     swapFee := "0" |}.

(** The same pool with decimals on every token. *)
Definition rateLessPool : Pool :=
  {| pool_address := "0xpool";
     tokensList := ["0xa"; "0xpool"; "0xb"];
     tokens := [sampleToken "0xa" (Some "1");
                sampleToken "0xpool" (Some "1");
                sampleToken "0xb" None];
     amp := None;
     totalShares := "2000";
     swapFee := "0" |}.

Local Close Scope string_scope.

Local Open Scope string_scope.

(** A phantom-stable pool whose own token comes first, with the price
    rates 1, 2 and 3 on its three tokens. *)
Definition bptFirstPool : Pool :=
  {| pool_address := "0xpool";
     tokensList := ["0xpool"; "0xa"; "0xb"];
     tokens := [{| address := "0xpool";
                   decimals := Some 18;
                   balance := "5000";
                   weight := None;
                   priceRate := Some "1" |};
                sampleToken "0xa" (Some "2");
                sampleToken "0xb" (Some "3")];
     amp := Some "100";
     totalShares := "2000";
     swapFee := "0" |}.

Local Close Scope string_scope.

(** ** The trimming [parseFixed] of the liquidity calculators

    [function parseFixed(value, decimals)] matches [value] against
    [[0-9]+\.?[0-9]{0,decimals}] and hands the first match, or [value]
    itself when there is none, to the ethers parser.  Every part of
    the expression after [[0-9]+] may match nothing, so the first match
    starts at the first digit and no backtracking takes place: the
    longest run of digits, a dot if one follows, and at most [decimals]
    digits after it. *)
Definition isDigit (c : Ascii.ascii) : bool :=
  match digitValue c with Some _ => true | None => false end.

(** The character [.] *)
Definition dot : Ascii.ascii := Ascii.ascii_of_nat 46.

Fixpoint digitsUpTo (n : nat) (s : string) : string :=
  match n, s with
  | S n', String c s' =>
      if isDigit c then String c (digitsUpTo n' s') else EmptyString
  | _, _ => EmptyString
  end.

Fixpoint matchFrom (decimals : nat) (s : string) : string :=
  match s with
  | EmptyString => EmptyString
  | String c s' =>
      if isDigit c then String c (matchFrom decimals s')
      else if Ascii.eqb c dot then String c (digitsUpTo decimals s')
      else EmptyString
  end.

Fixpoint firstMatch (decimals : nat) (value : string) : option string :=
  match value with
  | EmptyString => None
  | String c s' =>
      if isDigit c then Some (matchFrom decimals value)
      else firstMatch decimals s'
  end.

Definition parseFixed (ethers : Parser) (value : string) (decimals : nat)
  : res Z :=
  let parsedValue :=
    match firstMatch decimals value with
    | Some result => result
    | None => value
    end in
  ethers parsedValue (Some (Z.of_nat decimals)).

Fixpoint allDigits (s : string) : bool :=
  match s with
  | EmptyString => true
  | String c s' => isDigit c && allDigits s'
  end.

Fixpoint hasDigit (s : string) : bool :=
  match s with
  | EmptyString => false
  | String c s' => isDigit c || hasDigit s'
  end.

(** [s] does not start with a digit. *)
Definition noDigitAhead (s : string) : bool :=
  match s with
  | EmptyString => true
  | String c _ => negb (isDigit c)
  end.

(** [s] starts neither with a digit nor with a dot. *)
Definition numberEnds (s : string) : bool :=
  match s with
  | EmptyString => true
  | String c _ => negb (isDigit c) && negb (Ascii.eqb c dot)
  end.

Local Open Scope string_scope.

(** A two-token weighted pool whose second token has a zero balance. *)
Definition emptyBalancePool : Pool :=
  {| pool_address := "0xpool";
     tokensList := ["0xa"; "0xb"];
     tokens := [{| address := "0xa";
                   decimals := Some 18;
                   balance := "1000";
                   weight := Some "1";
                   priceRate := None |};
                {| address := "0xb";
                   decimals := Some 6;
                   balance := "0";
                   weight := Some "1";
                   priceRate := None |}];
     amp := None;
     totalShares := "2000";
     swapFee := "0" |}.

Local Close Scope string_scope.

Local Open Scope string_scope.

(** A two-token weighted pool whose first token has no weight and whose
    second token has no decimals. *)
Definition twoDefectsPool : Pool :=
  {| pool_address := "0xpool";
     tokensList := ["0xa"; "0xb"];
     tokens := [{| address := "0xa";
                   decimals := Some 18;
                   balance := "1000";
                   weight := None;
                   priceRate := None |};
                {| address := "0xb";
                   decimals := None;
                   balance := "1000";
                   weight := Some "1";
                   priceRate := None |}];
     amp := None;
     totalShares := "2000";
     swapFee := "0" |}.

Local Close Scope string_scope.

Local Open Scope string_scope.

(** The pool [phantomPool] with a token list that names the pool's own
    address first, whereas [tokens] holds the pool's token second. *)
Definition misorderedPhantomPool : Pool :=
  {| pool_address := "0xpool";
     tokensList := ["0xpool"; "0xa"; "0xb"];
     tokens := tokens phantomPool;
     amp := Some "100";
     totalShares := "2000";
     swapFee := "0" |}.

Local Close Scope string_scope.

(** * Properties *)

(** ** The [res] monad and BigInt division *)

Lemma bind_Ok {A B : Type} (m : res A) (k : A -> res B) (b : B) :
  bind m k = Ok b -> exists a, m = Ok a /\ k a = Ok b.
Proof. destruct m as [a|e]; simpl; intros H; [eauto | discriminate]. Qed.

Lemma require_true (b : bool) (msg : Errors) :
  b = true -> _require b msg = Ok tt.
Proof. intros ->; reflexivity. Qed.

Lemma require_Ok (b : bool) (msg : Errors) (u : unit) :
  _require b msg = Ok u -> b = true.
Proof. destruct b; [reflexivity | discriminate]. Qed.

(** The overflow test [a == 0 || (a * b) / a == b] always passes on
    unbounded integers. *)
Lemma overflow_check (a b : Z) :
  ((a =? BZERO) || (Z.quot (a * b) a =? b)) = true.
Proof.
  unfold BZERO. destruct (Z.eqb_spec a 0) as [->|Ha]; [reflexivity|].
  simpl. rewrite Z.mul_comm, Z.quot_mul by assumption. apply Z.eqb_refl.
Qed.

Lemma mul_Ok (a b : Z) : SolidityMaths.mul a b = Ok (a * b).
Proof. unfold SolidityMaths.mul. rewrite overflow_check. reflexivity. Qed.

Lemma mulDownFixed_Ok (a b : Z) :
  SolidityMaths.mulDownFixed a b = Ok (Z.quot (a * b) ONE).
Proof. unfold SolidityMaths.mulDownFixed. rewrite overflow_check. reflexivity. Qed.

Lemma mulUpFixed_Ok (a b : Z) :
  SolidityMaths.mulUpFixed a b =
  Ok (if a * b =? 0 then 0 else Z.quot (a * b - 1) ONE + 1).
Proof.
  unfold SolidityMaths.mulUpFixed. rewrite overflow_check. simpl.
  unfold BZERO, BONE. destruct (a * b =? 0); reflexivity.
Qed.

Lemma add_Ok (a b : Z) : SolidityMaths.add a b = Ok (a + b).
Proof.
  unfold SolidityMaths.add.
  replace (((b >=? 0) && (a + b >=? a)) || ((b <? 0) && (a + b <? a)))
    with true; [reflexivity|].
  symmetry. destruct (Z.ltb_spec b 0).
  - replace (a + b <? a) with true by (symmetry; apply Z.ltb_lt; lia).
    apply orb_true_r.
  - replace (b >=? 0) with true by (symmetry; apply Z.geb_le; lia).
    replace (a + b >=? a) with true by (symmetry; apply Z.geb_le; lia).
    reflexivity.
Qed.

(** ** FixedPoint arithmetic *)

(** The closed form of [divUpFixed]. *)
Lemma divUpFixed_outcome (a b : Z) :
  SolidityMaths.divUpFixed a b =
    if b =? 0 then Err (Error ZERO_DIVISION)
    else Ok (if a =? 0 then 0 else Z.quot (a * ONE - 1) b + 1).
Proof.
  pose proof (overflow_check a ONE) as Hchk.
  unfold SolidityMaths.divUpFixed, BZERO, BONE in *.
  destruct (b =? 0); cbn [negb _require bind]; [reflexivity|].
  destruct (a =? 0) eqn:Ha; [reflexivity|].
  cbn [orb] in Hchk. rewrite Hchk. reflexivity.
Qed.

(** C9.  [divUpFixed] has exactly two outcomes: [ZERO_DIVISION] when the
    divisor is zero, and otherwise the rounded-up quotient; the test
    [(a * ONE) / a == ONE] guarding [DIV_INTERNAL] holds for every
    non-zero [a], so that error is never raised. *)
Theorem divUpFixed_never_DIV_INTERNAL (a b : Z) :
  SolidityMaths.divUpFixed a b <> Err (Error DIV_INTERNAL) /\
  (a =? 0) || (Z.quot (a * ONE) a =? ONE) = true /\
  SolidityMaths.divUpFixed a b =
    if b =? 0 then Err (Error ZERO_DIVISION)
    else Ok (if a =? 0 then 0 else Z.quot (a * ONE - 1) b + 1).
Proof.
  split; [|split].
  - rewrite divUpFixed_outcome. destruct (b =? 0); discriminate.
  - apply (overflow_check a ONE).
  - apply divUpFixed_outcome.
Qed.

Lemma divDownFixed_Ok (a b : Z) :
  b <> 0 ->
  SolidityMaths.divDownFixed a b = Ok (if a =? 0 then 0 else Z.quot (a * ONE) b).
Proof.
  intros Hb. unfold SolidityMaths.divDownFixed, BZERO.
  apply Z.eqb_neq in Hb. rewrite Hb. simpl. destruct (a =? 0); reflexivity.
Qed.

(** Rounding a quotient of a positive by a positive up and down. *)
Lemma quot_up_down (m b : Z) :
  0 < m -> 0 < b ->
  Z.quot m b <= Z.quot (m - 1) b + 1 <= Z.quot m b + 1.
Proof.
  intros Hm Hb.
  rewrite !Z.quot_div_nonneg by lia.
  pose proof (Z.div_le_mono (m - 1) m b Hb ltac:(lia)) as Hle.
  pose proof (Z.div_mod m b ltac:(lia)) as Em.
  pose proof (Z.mod_pos_bound m b Hb) as Bm.
  pose proof (Z.div_mod (m - 1) b ltac:(lia)) as Em1.
  pose proof (Z.mod_pos_bound (m - 1) b Hb) as Bm1.
  split; [nia | lia].
Qed.

(** C5.  For non-negative [a] and [b] with [b <> 0] both fixed-point
    divisions return, [divUpFixed a b >= divDownFixed a b], and the two
    differ by at most one unit. *)
Theorem divUp_divDown_gap (a b : Z) :
  0 <= a -> 0 <= b -> b <> 0 ->
  exists up down,
    SolidityMaths.divUpFixed a b = Ok up /\
    SolidityMaths.divDownFixed a b = Ok down /\
    up >= down /\ up - down <= 1.
Proof.
  intros Ha Hb Hb0.
  rewrite (divUpFixed_outcome a b), (divDownFixed_Ok a b Hb0).
  apply Z.eqb_neq in Hb0. rewrite Hb0. apply Z.eqb_neq in Hb0.
  destruct (Z.eqb_spec a 0) as [->|Ha0].
  - exists 0, 0. repeat split; lia.
  - exists (Z.quot (a * ONE - 1) b + 1), (Z.quot (a * ONE) b).
    assert (Hm : 0 < a * ONE) by (unfold ONE; lia).
    pose proof (quot_up_down (a * ONE) b Hm ltac:(lia)).
    repeat split; lia.
Qed.

Lemma divUp_divDown_gap_witness :
  exists up down,
    SolidityMaths.divUpFixed 7 3 = Ok up /\
    SolidityMaths.divDownFixed 7 3 = Ok down /\
    up >= down /\ up - down <= 1.
Proof. apply (divUp_divDown_gap 7 3); lia. Defined.

(** ** Scaling factors *)

(** C8.  [_computeScalingFactor d] returns [ONE * 10 ^ (18 - d)] when
    [d <= 18]; for [d > 18] the BigInt power has a negative exponent and
    the call throws, so a scaling factor is returned only for
    [d <= 18]. *)
Theorem computeScalingFactor_decimals (d : Z) :
  (18 < d -> _computeScalingFactor d = Err RangeError) /\
  (d <= 18 -> _computeScalingFactor d = Ok (ONE * 10 ^ (18 - d))) /\
  (forall v, _computeScalingFactor d = Ok v -> d <= 18).
Proof.
  unfold _computeScalingFactor, bigpow.
  destruct (18 - d <? 0) eqn:E; cbn [bind].
  - apply Z.ltb_lt in E.
    split; [reflexivity|]. split; [intros; lia | discriminate].
  - apply Z.ltb_ge in E.
    split; [intros; lia|]. split; [reflexivity | intros; lia].
Qed.

Lemma computeScalingFactor_decimals_witness :
  _computeScalingFactor 19 = Err RangeError /\
  _computeScalingFactor 6 = Ok (ONE * 10 ^ (18 - 6)).
Proof.
  split.
  - apply (computeScalingFactor_decimals 19); lia.
  - apply (computeScalingFactor_decimals 6); lia.
Defined.

(** ** LogExpMath *)

(** C10.  [pow(x, 0)] returns [ONE] for every [x] whatsoever: the test
    [y === 0] comes first, before the test on [x] and before every
    bounds check, so no error can be raised when [y = 0]. *)
Theorem pow_zero_exponent (stack : nat) (x : Z) :
  LogExpMath.pow stack x 0 = Ok ONE.
Proof. unfold LogExpMath.pow, BZERO. rewrite Z.eqb_refl. reflexivity. Qed.

Lemma ln_36_ONE : LogExpMath._ln_36 ONE = Ok 0.
Proof. vm_compute. reflexivity. Qed.

Lemma exp_zero (stack : nat) : LogExpMath.exp (S stack) 0 = Ok ONE.
Proof. vm_compute. reflexivity. Qed.

(** C6.  The boundary identities of [pow]: [pow(x, 0) = ONE] for
    [x > 0]; [pow(0, y) = 0] for [y > 0]; and [pow(ONE, y) = ONE] for
    every [y] below [MILD_EXPONENT_BOUND] (one stack frame for the call
    of [exp] is needed). *)
Theorem pow_boundary_identities (stack : nat) (x y : Z) :
  (0 < x -> LogExpMath.pow stack x 0 = Ok ONE) /\
  (0 < y -> LogExpMath.pow stack 0 y = Ok 0) /\
  ((0 < stack)%nat -> y < LogExpMath.MILD_EXPONENT_BOUND ->
   LogExpMath.pow stack ONE y = Ok ONE).
Proof.
  split; [|split].
  - intros _. unfold LogExpMath.pow, BZERO. rewrite Z.eqb_refl. reflexivity.
  - intros Hy. unfold LogExpMath.pow, BZERO.
    replace (y =? 0) with false by (symmetry; apply Z.eqb_neq; lia).
    rewrite Z.eqb_refl. reflexivity.
  - intros Hs Hy. unfold LogExpMath.pow, BZERO.
    destruct (y =? 0); [reflexivity|].
    replace (ONE =? 0) with false by reflexivity.
    replace (ONE <? LogExpMath.X_BOUND) with true by reflexivity.
    apply Z.ltb_lt in Hy. rewrite Hy.
    replace ((LogExpMath.LN_36_LOWER_BOUND <? ONE)
             && (ONE <? LogExpMath.LN_36_UPPER_BOUND)) with true by reflexivity.
    rewrite ln_36_ONE. cbn [bind _require].
    replace (Z.quot 0 LogExpMath.ONE_18) with 0 by reflexivity.
    replace (Z.rem 0 LogExpMath.ONE_18) with 0 by reflexivity.
    rewrite !Z.mul_0_l.
    replace (Z.quot 0 LogExpMath.ONE_18) with 0 by reflexivity.
    replace (0 + 0) with 0 by reflexivity.
    replace (Z.quot 0 LogExpMath.ONE_18) with 0 by reflexivity.
    replace ((LogExpMath.MIN_NATURAL_EXPONENT <=? 0)
             && (0 <=? LogExpMath.MAX_NATURAL_EXPONENT)) with true by reflexivity.
    cbn [bind].
    destruct stack as [|stack']; [lia|]. apply exp_zero.
Qed.

Lemma pow_boundary_identities_witness :
  LogExpMath.pow 2 2000000000000000000 0 = Ok ONE /\
  LogExpMath.pow 2 0 3000000000000000000 = Ok 0 /\
  LogExpMath.pow 2 ONE 3000000000000000000 = Ok ONE.
Proof.
  destruct (pow_boundary_identities 2 2000000000000000000 3000000000000000000)
    as (H1 & H2 & H3).
  split; [apply H1; reflexivity|].
  split; [apply H2; reflexivity|].
  apply H3; [apply Nat.lt_0_succ | reflexivity].
Defined.

(** *** [exp] returns non-negative values *)

Lemma expTerm_nonneg (xn an : Z) (st : Z * Z) :
  0 <= an -> nonneg2 st -> nonneg2 (LogExpMath.expTerm xn an st).
Proof.
  intros Han [Hx Hp]. destruct st as [x p]. unfold LogExpMath.expTerm.
  simpl in Hx, Hp.
  destruct (Z.geb_spec x xn); split; cbn [fst snd]; try lia.
  apply Z.quot_pos; [nia | reflexivity].
Qed.

Lemma expTaylor_nonneg (x n : Z) (st : Z * Z) :
  0 <= x -> 0 < n -> nonneg2 st -> nonneg2 (LogExpMath.expTaylor x n st).
Proof.
  intros Hx Hn [Ht Hs]. destruct st as [t s]. unfold LogExpMath.expTaylor.
  simpl in Ht, Hs.
  assert (0 <= Z.quot (Z.quot (t * x) LogExpMath.ONE_20) n).
  { apply Z.quot_pos; [|assumption].
    apply Z.quot_pos; [nia | reflexivity]. }
  split; cbn [fst snd]; lia.
Qed.

Lemma expTail_nonneg (x : Z) : 0 <= x -> 0 <= LogExpMath.expTail x.
Proof.
  intros Hx. unfold LogExpMath.expTail.
  assert (Hfirst : exists x' firstAN,
             (if x >=? LogExpMath.x0 then (x - LogExpMath.x0, LogExpMath.a0)
              else if x >=? LogExpMath.x1 then (x - LogExpMath.x1, LogExpMath.a1)
              else (x, 1)) = (x', firstAN) /\ 0 <= x' /\ 0 <= firstAN).
  { destruct (Z.geb_spec x LogExpMath.x0).
    - eexists _, _. split; [reflexivity|]. split; [lia | discriminate].
    - destruct (Z.geb_spec x LogExpMath.x1).
      + eexists _, _. split; [reflexivity|]. split; [lia | discriminate].
      + eexists _, _. split; [reflexivity|]. split; [lia | discriminate]. }
  destruct Hfirst as (x' & firstAN & -> & Hx' & Hf).
  cbv zeta.
  remember (LogExpMath.expTerm LogExpMath.x9 _ _) as st eqn:Est.
  assert (Hst : nonneg2 st).
  { subst st.
    repeat (apply expTerm_nonneg; [discriminate|]).
    split; cbn [fst snd]; [lia | discriminate]. }
  clear Est. destruct st as [xr product]. destruct Hst as [Hxr Hp].
  cbn [fst snd] in Hxr, Hp.
  remember (LogExpMath.expTaylor xr 12 _) as ts eqn:Ets.
  assert (Hts : nonneg2 ts).
  { subst ts.
    repeat (apply expTaylor_nonneg; [assumption | reflexivity |]).
    split; cbn [fst snd]; [lia|]. unfold LogExpMath.ONE_20. lia. }
  clear Ets. destruct ts as [term seriesSum]. destruct Hts as [_ Hs].
  cbn [snd] in Hs.
  apply Z.quot_pos; [|reflexivity].
  apply Z.mul_nonneg_nonneg; [|assumption].
  apply Z.quot_pos; [nia | reflexivity].
Qed.

Lemma exp_nonneg (stack : nat) :
  forall x r, LogExpMath.exp stack x = Ok r -> 0 <= r.
Proof.
  induction stack as [|stack IH]; intros x r H; [discriminate|].
  cbn [LogExpMath.exp] in H.
  apply bind_Ok in H. destruct H as (u & _ & H).
  destruct (Z.ltb_spec x 0) as [Hneg|Hpos].
  - apply bind_Ok in H. destruct H as (e & He & H).
    apply IH in He. unfold bigdiv in H.
    destruct (Z.eqb_spec e 0); [discriminate|].
    injection H as <-. apply Z.quot_pos; [discriminate | lia].
  - injection H as <-. apply expTail_nonneg; assumption.
Qed.

Lemma pow_nonneg (stack : nat) (x y raw : Z) :
  LogExpMath.pow stack x y = Ok raw -> 0 <= raw.
Proof.
  unfold LogExpMath.pow. intros H.
  destruct (y =? BZERO); [injection H as <-; discriminate|].
  destruct (x =? BZERO); [injection H as <-; discriminate|].
  apply bind_Ok in H. destruct H as (u1 & _ & H).
  apply bind_Ok in H. destruct H as (u2 & _ & H).
  apply bind_Ok in H. destruct H as (l & _ & H).
  apply bind_Ok in H. destruct H as (u3 & _ & H).
  eapply exp_nonneg; eassumption.
Qed.

(** C4 (as the code has it).  Whenever [pow] returns [raw], [powUpFixed]
    returns [raw + (m + 1)] where [m = mulUpFixed raw
    MAX_POW_RELATIVE_ERROR] is the product [raw * 10000 / ONE] rounded
    up to the next integer; the result is strictly greater than
    [raw]. *)
Theorem powUpFixed_margin (stack : nat) (x y raw : Z) :
  LogExpMath.pow stack x y = Ok raw ->
  exists m,
    SolidityMaths.mulUpFixed raw SolidityMaths.MAX_POW_RELATIVE_ERROR = Ok m /\
    SolidityMaths.MAX_POW_RELATIVE_ERROR = 10000 /\
    raw * 10000 <= m * ONE < raw * 10000 + ONE /\
    SolidityMaths.powUpFixed stack x y = Ok (raw + (m + 1)) /\
    raw < raw + (m + 1).
Proof.
  intros Hpow. pose proof (pow_nonneg _ _ _ _ Hpow) as Hraw.
  unfold SolidityMaths.powUpFixed. rewrite Hpow. cbn [bind].
  rewrite mulUpFixed_Ok. cbn [bind].
  unfold SolidityMaths.MAX_POW_RELATIVE_ERROR.
  set (m := if raw * 10000 =? 0 then 0 else Z.quot (raw * 10000 - 1) ONE + 1).
  assert (Hm : raw * 10000 <= m * ONE < raw * 10000 + ONE).
  { subst m. destruct (Z.eqb_spec (raw * 10000) 0) as [E|E].
    - rewrite E. unfold ONE. lia.
    - rewrite Z.quot_div_nonneg by (unfold ONE; lia).
      pose proof (Z.div_mod (raw * 10000 - 1) ONE ltac:(discriminate)) as Ed.
      pose proof (Z.mod_pos_bound (raw * 10000 - 1) ONE ltac:(reflexivity)) as Bd.
      lia. }
  exists m. split; [reflexivity|]. split; [reflexivity|]. split; [exact Hm|].
  unfold BONE. rewrite !add_Ok. cbn [bind]. rewrite add_Ok.
  split; [reflexivity|]. unfold ONE in Hm. lia.
Qed.

Lemma powUpFixed_margin_witness :
  exists m,
    SolidityMaths.mulUpFixed 1999999999999999998
      SolidityMaths.MAX_POW_RELATIVE_ERROR = Ok m /\
    SolidityMaths.MAX_POW_RELATIVE_ERROR = 10000 /\
    1999999999999999998 * 10000 <= m * ONE < 1999999999999999998 * 10000 + ONE /\
    SolidityMaths.powUpFixed 2 2000000000000000000 1000000000000000000
      = Ok (1999999999999999998 + (m + 1)) /\
    1999999999999999998 < 1999999999999999998 + (m + 1).
Proof.
  apply (powUpFixed_margin 2 2000000000000000000 1000000000000000000).
  vm_compute. reflexivity.
Defined.

(** C4 (as stated, with the quotient truncated) fails: for
    [x = 2.0] and [y = 1.0], [pow] returns [raw = 1999999999999999998]
    and [powUpFixed] returns [raw + 20001], whereas
    [raw * 10000 / ONE + 1 = 20000]. *)
Lemma powUpFixed_not_truncated_margin :
  exists raw,
    LogExpMath.pow 2 2000000000000000000 1000000000000000000 = Ok raw /\
    SolidityMaths.powUpFixed 2 2000000000000000000 1000000000000000000
      <> Ok (raw + (Z.quot (raw * SolidityMaths.MAX_POW_RELATIVE_ERROR) ONE + 1)).
Proof.
  exists 1999999999999999998. split; [vm_compute; reflexivity|].
  vm_compute. discriminate.
Qed.

(** ** The stable invariant solver *)

Lemma outcome_lbind {A B : Type} (m : logged A) (k : A -> logged B) :
  outcome (lbind m k)
  = match outcome m with
    | Ok a => outcome (k a)
    | Err e => Err e
    end.
Proof. unfold lbind. destruct (outcome m); reflexivity. Qed.

Lemma divLog_lbind {A B : Type} (m : logged A) (k : A -> logged B) :
  divLog (lbind m k)
  = divLog m ++ match outcome m with
                | Ok a => divLog (k a)
                | Err _ => []
                end.
Proof.
  unfold lbind. destruct (outcome m); cbn [divLog]; [reflexivity|].
  symmetry. apply app_nil_r.
Qed.

Lemma logged_eq {A : Type} (r : logged A) (l : list bool) (o : res A) :
  divLog r = l -> outcome r = o -> r = Logged l o.
Proof. destruct r; cbn [divLog outcome]; intros -> ->; reflexivity. Qed.

Lemma div_nonzero (a b : Z) (roundUp : bool) :
  b <> 0 -> SolidityMaths.div a b roundUp = Ok (roundDiv a b roundUp).
Proof.
  intros Hb. apply Z.eqb_neq in Hb.
  unfold SolidityMaths.div, SolidityMaths.divUp, SolidityMaths.divDown,
    roundDiv, BZERO, BONE.
  rewrite Hb. destruct roundUp; cbn [negb _require bind];
    [destruct (a =? 0)|]; reflexivity.
Qed.

Lemma div_zero (a : Z) (roundUp : bool) :
  SolidityMaths.div a 0 roundUp = Err (Error ZERO_DIVISION).
Proof. destruct roundUp; reflexivity. Qed.

(** Unfold the [lbind]s under a projection as far as their heads
    evaluate. *)
Ltac logged_go :=
  repeat (progress (rewrite ?outcome_lbind, ?divLog_lbind;
                    cbn [outcome divLog lift lret divL at_index nth_error tl];
                    rewrite ?mul_Ok;
                    rewrite ?div_nonzero by (assumption || discriminate))).

Lemma converged_close (d d' : Z) :
  converged d d' = true <-> Z.abs (d' - d) <= 1.
Proof.
  unfold converged.
  destruct (Z.gtb_spec d' d); rewrite Z.leb_le; lia.
Qed.

Lemma converged_far (d d' : Z) :
  converged d d' = false <-> 1 < Z.abs (d' - d).
Proof.
  pose proof (converged_close d d'). destruct (converged d d').
  - split; [discriminate|]. intros. assert (Z.abs (d' - d) <= 1) by tauto. lia.
  - split; [|reflexivity]. intros _.
    destruct (Z.le_gt_cases (Z.abs (d' - d)) 1) as [Hle|Hgt]; [|lia].
    apply H in Hle. discriminate.
Qed.

Lemma calcP_D_run (n d : Z) (roundUp : bool) (rest : list Z) :
  d <> 0 ->
  forall P_D,
    calcP_D n d roundUp rest P_D
    = Logged (repeat roundUp (List.length rest))
             (Ok (P_D_value n d roundUp rest P_D)).
Proof.
  intros Hd. induction rest as [|bj rest IH]; intros P_D; [reflexivity|].
  cbn [calcP_D P_D_value List.length repeat].
  apply logged_eq; logged_go; rewrite IH; reflexivity.
Qed.

(** One update from a non-zero iterate, or over a single balance. *)
Lemma nextInvariant_run (amp : Z) (b0 : Z) (rest : list Z) (roundUp : bool)
      (sum d : Z) :
  d <> 0 \/ rest = [] ->
  let n := Z.of_nat (List.length (b0 :: rest)) in
  let P_D := P_D_value n d roundUp rest (b0 * n) in
  let num := n * d * d + roundDiv (amp * n * sum * P_D) AMP_PRECISION roundUp in
  let den := (n + 1) * d
             + roundDiv ((amp * n - AMP_PRECISION) * P_D) AMP_PRECISION
                        (negb roundUp) in
  nextInvariant amp (b0 :: rest) roundUp sum d
  = Logged (iterationDirections roundUp (List.length (b0 :: rest)))
           (if den =? 0 then Err (Error ZERO_DIVISION)
            else Ok (roundDiv num den roundUp)).
Proof.
  intros Hd n P_D num den.
  assert (HP : calcP_D n d roundUp rest (b0 * n)
               = Logged (repeat roundUp (List.length rest)) (Ok P_D)).
  { destruct Hd as [Hd| ->]; [apply calcP_D_run; assumption | reflexivity]. }
  assert (Hden : SolidityMaths.div num den roundUp
                 = if den =? 0 then Err (Error ZERO_DIVISION)
                   else Ok (roundDiv num den roundUp)).
  { destruct (Z.eqb_spec den 0) as [E|E];
      [rewrite E; apply div_zero | apply div_nonzero; assumption]. }
  unfold nextInvariant. fold n.
  apply logged_eq.
  - logged_go. rewrite HP. cbn [outcome divLog]. logged_go.
    cbn [app]. unfold iterationDirections.
    cbn [List.length Nat.sub]. rewrite Nat.sub_0_r. reflexivity.
  - logged_go. rewrite HP. cbn [outcome divLog]. logged_go.
    exact Hden.
Qed.

(** One update from a zero iterate over two or more balances: the first
    division of the inner loop fails. *)
Lemma nextInvariant_zero (amp : Z) (b0 b1 : Z) (rest : list Z) (roundUp : bool)
      (sum : Z) :
  nextInvariant amp (b0 :: b1 :: rest) roundUp sum 0
  = Logged [roundUp] (Err (Error ZERO_DIVISION)).
Proof.
  unfold nextInvariant.
  apply logged_eq; logged_go; cbn [calcP_D]; logged_go;
    rewrite div_zero; reflexivity.
Qed.

(** The shape of every update: its log is a prefix of the directions of
    a complete iteration, the whole of it when the update returns, and
    the only exception it can raise is [ZERO_DIVISION]. *)
Lemma nextInvariant_shape (amp : Z) (bs : list Z) (roundUp : bool) (sum d : Z) :
  bs <> [] ->
  let r := nextInvariant amp bs roundUp sum d in
  (exists d', outcome r = Ok d' /\
              divLog r = iterationDirections roundUp (List.length bs)) \/
  (outcome r = Err (Error ZERO_DIVISION) /\
   exists m, divLog r = firstn m (iterationDirections roundUp (List.length bs))).
Proof.
  intros Hbs r. subst r. destruct bs as [|b0 rest]; [congruence|].
  destruct (Z.eq_dec d 0) as [->|Hd]; [destruct rest as [|b1 rest]|].
  - rewrite (nextInvariant_run amp b0 [] roundUp sum 0) by (right; reflexivity).
    cbv zeta. cbn [outcome divLog].
    match goal with |- context [if ?c then _ else _] => destruct c end.
    + right. split; [reflexivity|]. exists 3%nat. reflexivity.
    + left. eexists. split; reflexivity.
  - rewrite nextInvariant_zero. right. split; [reflexivity|].
    exists 1%nat. unfold iterationDirections. cbn [List.length Nat.sub repeat].
    destruct (List.length rest); reflexivity.
  - rewrite (nextInvariant_run amp b0 rest roundUp sum d) by (left; assumption).
    cbv zeta. cbn [outcome divLog].
    match goal with |- context [if ?c then _ else _] => destruct c end.
    + right. split; [reflexivity|].
      exists (List.length (iterationDirections roundUp (List.length (b0 :: rest)))).
      rewrite firstn_all. reflexivity.
    + left. eexists. split; reflexivity.
Qed.

Lemma iterationDirections_length (roundUp : bool) (n : nat) :
  (0 < n)%nat -> List.length (iterationDirections roundUp n) = (n + 2)%nat.
Proof.
  intros Hn. unfold iterationDirections.
  rewrite length_app, repeat_length. cbn [List.length]. lia.
Qed.

Lemma iterate_S (amp : Z) (bs : list Z) (roundUp : bool) (k : nat) (d : Z) :
  iterate amp bs roundUp k = Ok d ->
  iterate amp bs roundUp (S k)
  = outcome (nextInvariant amp bs roundUp (sumBalances bs) d).
Proof. intros H. cbn [iterate]. rewrite H. reflexivity. Qed.

(** The loop entered at iterate [j] with [budget] iterations left: it
    runs updates up to the first index [k] at which two consecutive
    iterates are close, an update fails, or the budget is used up. *)
Lemma invariantLoop_spec (amp : Z) (bs : list Z) (roundUp : bool) :
  bs <> [] ->
  forall (budget j : nat) (d : Z),
    iterate amp bs roundUp j = Ok d ->
    (forall i, (i < j)%nat -> farApart amp bs roundUp i) ->
    let r := invariantLoop amp bs roundUp (sumBalances bs) budget d in
    let dirs := iterationDirections roundUp (List.length bs) in
    exists k,
      (j <= k <= j + budget)%nat /\
      (forall i, (i < k)%nat -> farApart amp bs roundUp i) /\
      ((k < j + budget)%nat /\
         (exists d', closeAt amp bs roundUp k d' /\ outcome r = Ok d') /\
         divLog r = List.concat (repeat dirs (S (k - j)))
       \/
       (k = j + budget)%nat /\
         outcome r = Err (Error STABLE_INVARIANT_DIDNT_CONVERGE) /\
         divLog r = List.concat (repeat dirs budget)
       \/
       (k < j + budget)%nat /\
         (exists dk, iterate amp bs roundUp k = Ok dk) /\
         iterate amp bs roundUp (S k) = Err (Error ZERO_DIVISION) /\
         outcome r = Err (Error ZERO_DIVISION) /\
         exists m, divLog r = List.concat (repeat dirs (k - j)) ++ firstn m dirs).
Proof.
  intros Hbs budget.
  induction budget as [|budget IH]; intros j d Hj Hfar r dirs.
  - exists j. split; [lia|]. split; [assumption|].
    right; left. split; [lia|]. split; reflexivity.
  - subst r. cbn [invariantLoop].
    pose proof (nextInvariant_shape amp bs roundUp (sumBalances bs) d Hbs)
      as Hshape.
    pose proof (iterate_S amp bs roundUp j d Hj) as HS.
    cbv zeta in Hshape.
    destruct Hshape as [(d' & Hout & Hlog) | (Hout & m & Hlog)].
    + rewrite Hout in HS.
      destruct (converged d d') eqn:Hconv.
      * (* the new iterate is close to the previous one: return it *)
        exists j. split; [lia|]. split; [assumption|].
        left. split; [lia|].
        rewrite outcome_lbind, divLog_lbind, Hout, Hlog, Hconv.
        cbn [outcome divLog lret].
        split.
        -- exists d'. split; [|reflexivity].
           exists d. split; [assumption|]. split; [assumption|].
           apply converged_close; assumption.
        -- rewrite Nat.sub_diag. cbn [repeat List.concat].
           fold dirs. reflexivity.
      * (* not close: iterate again *)
        assert (Hfar' : forall i, (i < S j)%nat -> farApart amp bs roundUp i).
        { intros i Hi. destruct (Nat.eq_dec i j) as [->|Hne].
          - exists d, d'. split; [assumption|]. split; [assumption|].
            apply converged_far; assumption.
          - apply Hfar. lia. }
        destruct (IH (S j) d' HS Hfar') as (k & Hk & Hfark & Hcases).
        exists k. split; [lia|]. split; [assumption|].
        rewrite outcome_lbind, divLog_lbind, Hout, Hlog, Hconv.
        fold dirs.
        destruct Hcases as [(Hlt & Hret & Hl) | [(Heq & Herr & Hl)
                           | (Hlt & Hdk & Hzd & Herr & m & Hl)]].
        -- left. split; [lia|]. split; [assumption|].
           rewrite Hl. replace (S (k - j)) with (S (S (k - S j))) by lia.
           reflexivity.
        -- right; left. split; [lia|]. split; [assumption|].
           rewrite Hl. reflexivity.
        -- right; right. split; [lia|]. split; [assumption|].
           split; [assumption|]. split; [assumption|].
           exists m. rewrite Hl.
           replace (k - j)%nat with (S (k - S j)) by lia.
           cbn [repeat List.concat]. rewrite app_assoc. reflexivity.
    + (* the update fails *)
      rewrite Hout in HS.
      exists j. split; [lia|]. split; [assumption|].
      right; right. split; [lia|].
      split; [exists d; assumption|]. split; [assumption|].
      rewrite outcome_lbind, divLog_lbind, Hout, Hlog.
      split; [reflexivity|].
      exists m. rewrite Nat.sub_diag. cbn [repeat List.concat app].
      fold dirs. rewrite app_nil_r. reflexivity.
Qed.

Lemma sumBalances_nonempty (bs : list Z) : sumBalances bs <> 0 -> bs <> [].
Proof. intros H ->. apply H. reflexivity. Qed.

(** *** No division by zero on non-negative balances with [amp * n >= AMP_PRECISION] *)

Lemma roundDiv_nonneg (a b : Z) (roundUp : bool) :
  0 <= a -> 0 < b -> 0 <= roundDiv a b roundUp.
Proof.
  intros Ha Hb. unfold roundDiv. destruct roundUp.
  - destruct (Z.eqb_spec a 0); [lia|].
    assert (0 <= Z.quot (a - 1) b) by (apply Z.quot_pos; lia). lia.
  - apply Z.quot_pos; lia.
Qed.

Lemma roundDiv_pos (a b : Z) (roundUp : bool) :
  0 < b -> b <= a -> 1 <= roundDiv a b roundUp.
Proof.
  intros Hb Hab. unfold roundDiv. destruct roundUp.
  - destruct (Z.eqb_spec a 0); [lia|].
    assert (0 <= Z.quot (a - 1) b) by (apply Z.quot_pos; lia). lia.
  - rewrite Z.quot_div_nonneg by lia.
    pose proof (Z.div_str_pos a b ltac:(lia)). lia.
Qed.

(** The second summand of the denominator, rounded against the caller's
    direction, does not exceed the second summand of the numerator. *)
Lemma roundDiv_against (x y : Z) (roundUp : bool) :
  0 <= y -> y <= x -> (y <> 0 -> y + AMP_PRECISION <= x) ->
  0 <= roundDiv y AMP_PRECISION (negb roundUp)
    <= roundDiv x AMP_PRECISION roundUp.
Proof.
  intros Hy Hyx Hgap. unfold AMP_PRECISION in *.
  split; [apply roundDiv_nonneg; lia|].
  unfold roundDiv. destruct roundUp; cbn [negb].
  - rewrite (Z.quot_div_nonneg y) by lia.
    destruct (Z.eqb_spec x 0) as [->|Hx].
    + assert (y = 0) by lia. subst y. reflexivity.
    + rewrite Z.quot_div_nonneg by lia.
      pose proof (Z.div_mod y 1000 ltac:(lia)).
      pose proof (Z.mod_pos_bound y 1000 ltac:(lia)).
      pose proof (Z.div_mod (x - 1) 1000 ltac:(lia)).
      pose proof (Z.mod_pos_bound (x - 1) 1000 ltac:(lia)).
      lia.
  - rewrite (Z.quot_div_nonneg x) by lia.
    destruct (Z.eqb_spec y 0) as [->|Hy0].
    + apply Z.div_pos; lia.
    + rewrite Z.quot_div_nonneg by lia.
      specialize (Hgap Hy0).
      pose proof (Z.div_mod x 1000 ltac:(lia)).
      pose proof (Z.mod_pos_bound x 1000 ltac:(lia)).
      pose proof (Z.div_mod (y - 1) 1000 ltac:(lia)).
      pose proof (Z.mod_pos_bound (y - 1) 1000 ltac:(lia)).
      lia.
Qed.

Lemma P_D_value_nonneg (n d : Z) (roundUp : bool) (rest : list Z) :
  0 <= n -> 0 < d -> Forall (fun b => 0 <= b) rest ->
  forall P_D, 0 <= P_D -> 0 <= P_D_value n d roundUp rest P_D.
Proof.
  intros Hn Hd Hrest. induction Hrest as [|bj rest Hbj _ IH]; intros P_D HP.
  - assumption.
  - cbn [P_D_value]. apply IH. apply roundDiv_nonneg; [|assumption].
    apply Z.mul_nonneg_nonneg; [|assumption].
    apply Z.mul_nonneg_nonneg; assumption.
Qed.

(** One update from a positive iterate returns, and returns a positive
    value unless the iterate was [1]. *)
Lemma nextInvariant_positive (amp : Z) (bs : list Z) (roundUp : bool)
      (sum d : Z) :
  bs <> [] -> Forall (fun b => 0 <= b) bs ->
  AMP_PRECISION <= amp * Z.of_nat (List.length bs) ->
  1 <= sum -> 1 <= d ->
  exists d',
    outcome (nextInvariant amp bs roundUp sum d) = Ok d' /\
    0 <= d' /\ (2 <= d -> 1 <= d').
Proof.
  intros Hbs Hall Hamp Hsum Hd.
  destruct bs as [|b0 rest]; [congruence|].
  rewrite (nextInvariant_run amp b0 rest roundUp sum d) by (left; lia).
  cbv zeta. cbn [outcome].
  set (n := Z.of_nat (List.length (b0 :: rest))) in *.
  assert (Hn : 1 <= n) by (subst n; cbn [List.length]; lia).
  inversion Hall as [|? ? Hb0 Hrest]; subst.
  set (P := P_D_value n d roundUp rest (b0 * n)).
  assert (HP : 0 <= P).
  { apply P_D_value_nonneg; try assumption; nia. }
  assert (HXY : 0 <= roundDiv ((amp * n - AMP_PRECISION) * P) AMP_PRECISION
                             (negb roundUp)
                <= roundDiv (amp * n * sum * P) AMP_PRECISION roundUp).
  { apply roundDiv_against.
    - apply Z.mul_nonneg_nonneg; lia.
    - unfold AMP_PRECISION in *. nia.
    - intros Hy. unfold AMP_PRECISION in *.
      assert (1 <= P) by (destruct (Z.eq_dec P 0); [subst; nia | lia]).
      nia. }
  set (X := roundDiv (amp * n * sum * P) AMP_PRECISION roundUp) in *.
  set (Y := roundDiv ((amp * n - AMP_PRECISION) * P) AMP_PRECISION
                     (negb roundUp)) in *.
  assert (Hden : 0 < (n + 1) * d + Y) by nia.
  destruct (Z.eqb_spec ((n + 1) * d + Y) 0) as [E|_]; [lia|].
  eexists. split; [reflexivity|]. split.
  - apply roundDiv_nonneg; [nia | assumption].
  - intros Hd2. apply roundDiv_pos; [assumption|]. nia.
Qed.

Lemma invariantLoop_no_ZERO_DIVISION (amp : Z) (bs : list Z) (roundUp : bool)
      (sum : Z) :
  bs <> [] -> Forall (fun b => 0 <= b) bs ->
  AMP_PRECISION <= amp * Z.of_nat (List.length bs) ->
  1 <= sum ->
  forall (budget : nat) (d : Z),
    1 <= d ->
    outcome (invariantLoop amp bs roundUp sum budget d)
    <> Err (Error ZERO_DIVISION).
Proof.
  intros Hbs Hall Hamp Hsum budget.
  induction budget as [|budget IH]; intros d Hd; [discriminate|].
  cbn [invariantLoop]. rewrite outcome_lbind.
  destruct (nextInvariant_positive amp bs roundUp sum d Hbs Hall Hamp Hsum Hd)
    as (d' & -> & Hd0 & Hd1).
  destruct (converged d d') eqn:Hconv; [discriminate|].
  apply IH. apply converged_far in Hconv. lia.
Qed.

(** C1 (amended).  For balances of positive sum [S] the iteration starts
    at [D_0 = S]; the solver runs complete updates up to the first index
    [k <= 255] such that either [k < 255] and iterates [k] and [k + 1]
    differ by at most one unit, and then it returns iterate [k + 1]
    after exactly [k + 1] updates; or [k = 255], and then it fails with
    [STABLE_INVARIANT_DIDNT_CONVERGE] after exactly 255 updates; or
    [k < 255] and update [k + 1] divides by zero, and then it fails with
    [ZERO_DIVISION].  The last case does not arise when all balances are
    non-negative and [amp * n >= AMP_PRECISION]. *)
Theorem calculateInvariant_iteration (amp : Z) (bs : list Z) (roundUp : bool) :
  0 < sumBalances bs ->
  let r := _calculateInvariant amp bs roundUp in
  let dirs := iterationDirections roundUp (List.length bs) in
  iterate amp bs roundUp 0 = Ok (sumBalances bs) /\
  (exists k,
      (k <= 255)%nat /\
      (forall i, (i < k)%nat -> farApart amp bs roundUp i) /\
      ((k < 255)%nat /\
         (exists d', closeAt amp bs roundUp k d' /\ outcome r = Ok d') /\
         divLog r = List.concat (repeat dirs (S k))
       \/
       (k = 255)%nat /\
         outcome r = Err (Error STABLE_INVARIANT_DIDNT_CONVERGE) /\
         divLog r = List.concat (repeat dirs 255)
       \/
       (k < 255)%nat /\
         (exists dk, iterate amp bs roundUp k = Ok dk) /\
         iterate amp bs roundUp (S k) = Err (Error ZERO_DIVISION) /\
         outcome r = Err (Error ZERO_DIVISION) /\
         exists m, divLog r = List.concat (repeat dirs k) ++ firstn m dirs)) /\
  (Forall (fun b => 0 <= b) bs ->
   AMP_PRECISION <= amp * Z.of_nat (List.length bs) ->
   outcome r <> Err (Error ZERO_DIVISION)).
Proof.
  intros Hsum r dirs.
  assert (Hbs : bs <> []) by (apply sumBalances_nonempty; lia).
  assert (Hr : r = invariantLoop amp bs roundUp (sumBalances bs) 255
                                 (sumBalances bs)).
  { subst r. unfold _calculateInvariant, BZERO.
    replace (sumBalances bs =? 0) with false
      by (symmetry; apply Z.eqb_neq; lia).
    reflexivity. }
  split; [reflexivity|]. split.
  - destruct (invariantLoop_spec amp bs roundUp Hbs 255 0 (sumBalances bs)
                                 eq_refl ltac:(intros; lia))
      as (k & Hk & Hfar & Hcases).
    rewrite <- Hr in Hcases. fold dirs in Hcases.
    exists k. split; [lia|]. split; [assumption|].
    rewrite Nat.sub_0_r in Hcases. exact Hcases.
  - intros Hall Hamp. rewrite Hr.
    apply invariantLoop_no_ZERO_DIVISION; try assumption; lia.
Qed.

Lemma calculateInvariant_iteration_witness :
  let amp := 100000 in
  let bs := [1000000000000000000; 1000000000000000000] in
  let r := _calculateInvariant amp bs true in
  let dirs := iterationDirections true (List.length bs) in
  iterate amp bs true 0 = Ok (sumBalances bs) /\
  (exists k,
      (k <= 255)%nat /\
      (forall i, (i < k)%nat -> farApart amp bs true i) /\
      ((k < 255)%nat /\
         (exists d', closeAt amp bs true k d' /\ outcome r = Ok d') /\
         divLog r = List.concat (repeat dirs (S k))
       \/
       (k = 255)%nat /\
         outcome r = Err (Error STABLE_INVARIANT_DIDNT_CONVERGE) /\
         divLog r = List.concat (repeat dirs 255)
       \/
       (k < 255)%nat /\
         (exists dk, iterate amp bs true k = Ok dk) /\
         iterate amp bs true (S k) = Err (Error ZERO_DIVISION) /\
         outcome r = Err (Error ZERO_DIVISION) /\
         exists m, divLog r = List.concat (repeat dirs k) ++ firstn m dirs)) /\
  (Forall (fun b => 0 <= b) bs ->
   AMP_PRECISION <= amp * Z.of_nat (List.length bs) ->
   outcome r <> Err (Error ZERO_DIVISION)).
Proof.
  apply (calculateInvariant_iteration 100000
           [1000000000000000000; 1000000000000000000] true).
  reflexivity.
Defined.

Lemma iterate_Err (amp : Z) (bs : list Z) (roundUp : bool) (j : nat) (e : exn) :
  iterate amp bs roundUp j = Err e ->
  forall m, iterate amp bs roundUp (m + j) = Err e.
Proof.
  intros H m. induction m as [|m IH]; [assumption|].
  cbn [Nat.add iterate]. rewrite IH. reflexivity.
Qed.

(** C1 as stated fails for [amp = 1], balances [[1; 1; 5]] and rounding
    down: the iterates are 7, 5, 3, -27, -20, -15, -11, -8, -6, -4, -2, 0,
    no two consecutive ones are close, and update 12 divides by the
    iterate 0, so the solver fails with [ZERO_DIVISION]. *)
Lemma calculateInvariant_zero_division :
  0 < sumBalances [1; 1; 5] /\
  outcome (_calculateInvariant 1 [1; 1; 5] false) = Err (Error ZERO_DIVISION) /\
  ~ converges_or_fails_as_stated 1 [1; 1; 5] false.
Proof.
  split; [reflexivity|].
  assert (Hout : outcome (_calculateInvariant 1 [1; 1; 5] false)
                 = Err (Error ZERO_DIVISION)) by (vm_compute; reflexivity).
  split; [exact Hout|].
  intros [_ Hfail]. cbv zeta in Hfail. rewrite Hout in Hfail.
  assert (Hnone : forall k d', (k < 255)%nat -> ~ closeAt 1 [1; 1; 5] false k d').
  { intros k d' _ (d & Hk & HSk & Hclose).
    destruct (Nat.lt_ge_cases k 11) as [Hlt|Hge].
    - do 11 (destruct k as [|k];
             [vm_compute in Hk, HSk;
              injection Hk as <-; injection HSk as <-;
              vm_compute in Hclose; apply Hclose; reflexivity|]).
      lia.
    - assert (E12 : iterate 1 [1; 1; 5] false 12 = Err (Error ZERO_DIVISION))
        by (vm_compute; reflexivity).
      pose proof (iterate_Err _ _ _ _ _ E12 (k - 11)) as HE.
      replace (k - 11 + 12)%nat with (S k) in HE by lia.
      rewrite HE in HSk. discriminate HSk. }
  specialize (Hfail Hnone). discriminate Hfail.
Qed.

(** The budget can run out: for [amp = 1], balances [[1; 3]] and
    rounding down the iterates alternate between 2 and 4. *)
Example calculateInvariant_budget_exhausted :
  outcome (_calculateInvariant 1 [1; 3] false)
  = Err (Error STABLE_INVARIANT_DIDNT_CONVERGE) /\
  List.length (divLog (_calculateInvariant 1 [1; 3] false)) = (255 * 4)%nat.
Proof. split; vm_compute; reflexivity. Qed.

(** The convergence example of three equal balances of 1,000,000.0 with
    [amp = 100 * 1000]: the first update returns the sum. *)
Example calculateInvariant_equal_balances :
  _calculateInvariant 100000
    [1000000000000000000000000; 1000000000000000000000000;
     1000000000000000000000000] true
  = Logged [true; true; true; false; true] (Ok 3000000000000000000000000).
Proof. vm_compute. reflexivity. Qed.

(** A shorter run with the same failure, for a negative [amp]: over the
    single balance [1] with [amp = -1000] and rounding up, the first
    update has the denominator [2 * 1 + (-2000 / 1000) = 0]. *)
Example calculateInvariant_zero_denominator :
  _calculateInvariant (-1000) [1] true
  = Logged [true; false; true] (Err (Error ZERO_DIVISION)).
Proof. vm_compute. reflexivity. Qed.

(** ** Rounding directions inside the solver *)

(** C2 as stated fails: with two balances of 1.0 and [roundUp = true]
    the solver converges in one iteration whose four divisions use the
    directions up, up, down, up. *)
Lemma calculateInvariant_mixes_directions :
  divLog (_calculateInvariant 100000
            [1000000000000000000; 1000000000000000000] true)
  = [true; true; false; true] /\
  ~ same_direction_as_stated 100000
      [1000000000000000000; 1000000000000000000] true.
Proof.
  assert (Hlog : divLog (_calculateInvariant 100000
                           [1000000000000000000; 1000000000000000000] true)
                 = [true; true; false; true]) by (vm_compute; reflexivity).
  split; [exact Hlog|].
  intros H. unfold same_direction_as_stated in H. rewrite Hlog in H.
  specialize (H false). cbn [In] in H.
  assert (false = true) by (apply H; right; right; left; reflexivity).
  discriminate.
Qed.

(** C2 (amended).  In every run of the solver the rounded divisions
    come in blocks of one iteration; in each block the divisions of the
    inner loop, the division in the numerator and the outer division use
    the caller's direction, and the division in the denominator uses the
    opposite direction.  At most 255 blocks are complete, a last block
    is cut short only by a [ZERO_DIVISION], and a run that returns on a
    non-zero sum has at least one complete block. *)
Theorem calculateInvariant_directions (amp : Z) (bs : list Z) (roundUp : bool) :
  let r := _calculateInvariant amp bs roundUp in
  let dirs := iterationDirections roundUp (List.length bs) in
  dirs = repeat roundUp (List.length bs - 1)
         ++ [roundUp; negb roundUp; roundUp] /\
  exists k m,
    (k <= 255)%nat /\
    divLog r = List.concat (repeat dirs k) ++ firstn m dirs /\
    (outcome r <> Err (Error ZERO_DIVISION) -> m = 0%nat) /\
    (forall d, outcome r = Ok d -> sumBalances bs <> 0 -> (1 <= k)%nat).
Proof.
  intros r dirs. split; [reflexivity|].
  destruct (Z.eq_dec (sumBalances bs) 0) as [Hz|Hnz].
  - exists 0%nat, 0%nat. subst r. unfold _calculateInvariant, BZERO.
    rewrite Hz. cbn [Z.eqb divLog lret outcome repeat List.concat firstn app].
    repeat split; try reflexivity; lia.
  - assert (Hbs : bs <> []) by (apply sumBalances_nonempty; assumption).
    assert (Hr : r = invariantLoop amp bs roundUp (sumBalances bs) 255
                                   (sumBalances bs)).
    { subst r. unfold _calculateInvariant, BZERO.
      replace (sumBalances bs =? 0) with false
        by (symmetry; apply Z.eqb_neq; assumption).
      reflexivity. }
    destruct (invariantLoop_spec amp bs roundUp Hbs 255 0 (sumBalances bs)
                                 eq_refl ltac:(intros; lia))
      as (k & Hk & _ & Hcases).
    rewrite <- Hr in Hcases. fold dirs in Hcases.
    rewrite Nat.sub_0_r in Hcases.
    destruct Hcases as [(Hlt & _ & Hl) | [(Heq & Herr & Hl)
                       | (Hlt & _ & _ & Herr & m & Hl)]].
    + exists (S k), 0%nat. split; [lia|].
      split; [rewrite Hl; cbn [firstn]; symmetry; apply app_nil_r|].
      split; [reflexivity | intros; lia].
    + exists 255%nat, 0%nat. split; [lia|].
      split; [rewrite Hl; cbn [firstn]; symmetry; apply app_nil_r|].
      split; [reflexivity|]. intros d Hd. rewrite Herr in Hd. discriminate.
    + exists k, m. split; [lia|]. split; [exact Hl|].
      split; [intros Hne; contradiction|].
      intros d Hd. rewrite Herr in Hd. discriminate.
Qed.

Lemma calculateInvariant_directions_witness :
  let r := _calculateInvariant 100000
             [1000000000000000000; 1000000000000000000] true in
  exists k,
    (1 <= k <= 255)%nat /\
    divLog r = List.concat (repeat [true; true; false; true] k).
Proof.
  intros r.
  destruct (calculateInvariant_directions 100000
              [1000000000000000000; 1000000000000000000] true)
    as (Hdirs & k & m & Hk & Hlog & Hm & Hone).
  fold r in Hlog, Hm, Hone.
  assert (Hout : outcome r = Ok 2000000000000000000)
    by (vm_compute; reflexivity).
  assert (Hm0 : m = 0%nat) by (apply Hm; rewrite Hout; discriminate).
  assert (Hk1 : (1 <= k)%nat)
    by (apply (Hone _ Hout); vm_compute; discriminate).
  exists k. split; [lia|].
  rewrite Hlog, Hm0. cbn [firstn]. rewrite app_nil_r. reflexivity.
Defined.

(** ** Pool snapshots: missing fields *)

Lemma mapM_nth {A B : Type} (f : A -> res B) (l : list A) :
  forall r,
    mapM f l = Ok r ->
    List.length r = List.length l /\
    forall j a, nth_error l j = Some a ->
                exists b, f a = Ok b /\ nth_error r j = Some b.
Proof.
  induction l as [|a0 l IH]; intros r H.
  - injection H as <-. split; [reflexivity|].
    intros [|j] a Hj; discriminate Hj.
  - cbn [mapM] in H.
    apply bind_Ok in H. destruct H as (b0 & Hb0 & H).
    apply bind_Ok in H. destruct H as (bs & Hbs & H).
    injection H as <-. destruct (IH _ Hbs) as [Hlen Hnth].
    split; [cbn [List.length]; lia|].
    intros [|j] a Hj; cbn [nth_error] in *.
    + injection Hj as <-. eauto.
    + apply Hnth; assumption.
Qed.

Lemma mapiM_nth {A B : Type} (f : A -> nat -> res B) (l : list A) :
  forall i r,
    mapiM f i l = Ok r ->
    List.length r = List.length l /\
    forall j a, nth_error l j = Some a ->
                exists b, f a (i + j)%nat = Ok b /\ nth_error r j = Some b.
Proof.
  induction l as [|a0 l IH]; intros i r H.
  - injection H as <-. split; [reflexivity|].
    intros [|j] a Hj; discriminate Hj.
  - cbn [mapiM] in H.
    apply bind_Ok in H. destruct H as (b0 & Hb0 & H).
    apply bind_Ok in H. destruct H as (bs & Hbs & H).
    injection H as <-. destruct (IH _ _ Hbs) as [Hlen Hnth].
    split; [cbn [List.length]; lia|].
    intros [|j] a Hj; cbn [nth_error] in *.
    + injection Hj as <-. rewrite Nat.add_0_r. eauto.
    + destruct (Hnth j a Hj) as (b & Hb & Hr).
      exists b. split; [|assumption].
      replace (i + S j)%nat with (S i + j)%nat by lia. assumption.
Qed.

Lemma at_index_Ok {A : Type} (l : list A) (i : nat) (a : A) :
  at_index l i = Ok a -> nth_error l i = Some a.
Proof.
  unfold at_index. destruct (nth_error l i); [|discriminate].
  intros H. injection H as <-. reflexivity.
Qed.

Lemma parsePoolInfo_inv (parseFixed : Parser) (pool : Pool) (info : PoolInfo) :
  parsePoolInfo parseFixed pool = Ok info ->
  parsedDecimals info
  = map (fun token => truthyNumber (decimals token)) (tokens pool) /\
  mapM (fun token => parseFixed (balance token) (decimals token)) (tokens pool)
  = Ok (parsedBalances info) /\
  parseOptional parseFixed 3 (amp pool) = Ok (parsedAmp info).
Proof.
  unfold parsePoolInfo. intros H.
  apply bind_Ok in H. destruct H as (bals & Hbals & H).
  apply bind_Ok in H. destruct H as (ws & _ & H).
  apply bind_Ok in H. destruct H as (rates & _ & H).
  apply bind_Ok in H. destruct H as (a & Ha & H).
  apply bind_Ok in H. destruct H as (ts & _ & H).
  apply bind_Ok in H. destruct H as (fee & _ & H).
  injection H as <-. cbn [parsedDecimals parsedBalances parsedAmp].
  repeat split; assumption.
Qed.

Lemma absent_amp_parsed (parseFixed : Parser) (pool : Pool) (info : PoolInfo) :
  parsePoolInfo parseFixed pool = Ok info ->
  truthyString (amp pool) = None ->
  parsedAmp info = None.
Proof.
  intros H Hamp. apply parsePoolInfo_inv in H. destruct H as (_ & _ & H).
  unfold parseOptional in H. rewrite Hamp in H. injection H as <-. reflexivity.
Qed.

(** Whenever the checks that precede the test of [parsedAmp] pass, an
    absent [amp] is reported with the code [MISSING_PRICE_RATE]. *)
Lemma stable_absent_amp (parseFixed : Parser) (pool : Pool)
      (tokenAmounts : list Z) (info : PoolInfo) (ds : list Z) :
  List.length tokenAmounts = List.length (tokensList pool) ->
  parsePoolInfo parseFixed pool = Ok info ->
  mapM (orThrow MISSING_DECIMALS) (parsedDecimals info) = Ok ds ->
  truthyString (amp pool) = None ->
  StablePoolPriceImpact.bptZeroPriceImpact parseFixed pool tokenAmounts
  = Err (BalancerError MISSING_PRICE_RATE).
Proof.
  intros Hlen Hinfo Hds Hamp.
  unfold StablePoolPriceImpact.bptZeroPriceImpact.
  rewrite Hlen, Nat.eqb_refl. cbn [negb].
  rewrite Hinfo. cbn [bind]. rewrite Hds. cbn [bind].
  rewrite (absent_amp_parsed _ _ _ Hinfo Hamp). reflexivity.
Qed.

Lemma metaStable_absent_amp (parseFixed : Parser) (pool : Pool)
      (tokenAmounts : list Z) (info : PoolInfo) (ds rates : list Z) :
  List.length tokenAmounts = List.length (tokensList pool) ->
  parsePoolInfo parseFixed pool = Ok info ->
  mapM (orThrow MISSING_DECIMALS) (parsedDecimals info) = Ok ds ->
  mapM (orThrow MISSING_PRICE_RATE) (parsedPriceRates info) = Ok rates ->
  truthyString (amp pool) = None ->
  MetaStablePoolPriceImpact.bptZeroPriceImpact parseFixed pool tokenAmounts
  = Err (BalancerError MISSING_PRICE_RATE).
Proof.
  intros Hlen Hinfo Hds Hrates Hamp.
  unfold MetaStablePoolPriceImpact.bptZeroPriceImpact.
  rewrite Hlen, Nat.eqb_refl. cbn [negb].
  rewrite Hinfo. cbn [bind]. rewrite Hds. cbn [bind].
  rewrite Hrates. cbn [bind].
  rewrite (absent_amp_parsed _ _ _ Hinfo Hamp). reflexivity.
Qed.

Lemma phantom_absent_amp (parseFixed : Parser) (pool : Pool)
      (tokenAmounts : list Z) (info : PoolInfo) (ds rates : list Z) :
  Z.of_nat (List.length tokenAmounts)
  = Z.of_nat (List.length (tokensList pool)) - 1 ->
  parsePoolInfo parseFixed pool = Ok info ->
  mapM (orThrow MISSING_DECIMALS) (parsedDecimals info) = Ok ds ->
  mapM (orThrow MISSING_PRICE_RATE) (parsedPriceRates info) = Ok rates ->
  truthyString (amp pool) = None ->
  StablePhantomPriceImpact.bptZeroPriceImpact parseFixed pool tokenAmounts
  = Err (BalancerError MISSING_PRICE_RATE).
Proof.
  intros Hlen Hinfo Hds Hrates Hamp.
  unfold StablePhantomPriceImpact.bptZeroPriceImpact,
    StablePhantomPriceImpact.prepare.
  rewrite Hlen, Z.eqb_refl. cbn [negb].
  rewrite Hinfo. cbn [bind]. rewrite Hds. cbn [bind].
  rewrite Hrates. cbn [bind].
  rewrite (absent_amp_parsed _ _ _ Hinfo Hamp). reflexivity.
Qed.

(** C3 (what the code does).  On a stable, a meta-stable and a
    phantom-stable snapshot that lack [amp] and are complete otherwise,
    [bptZeroPriceImpact] fails with the code [MISSING_PRICE_RATE], not
    with [MISSING_AMP]. *)
Theorem absent_amp_reported_as_MISSING_PRICE_RATE :
  StablePoolPriceImpact.bptZeroPriceImpact parseFixedDigits stableNoAmp [1; 1]
  = Err (BalancerError MISSING_PRICE_RATE) /\
  MetaStablePoolPriceImpact.bptZeroPriceImpact parseFixedDigits metaStableNoAmp
    [1; 1]
  = Err (BalancerError MISSING_PRICE_RATE) /\
  StablePhantomPriceImpact.bptZeroPriceImpact parseFixedDigits phantomNoAmp
    [1; 1]
  = Err (BalancerError MISSING_PRICE_RATE).
Proof.
  split; [|split].
  - eapply stable_absent_amp; try reflexivity; vm_compute; reflexivity.
  - eapply metaStable_absent_amp; try reflexivity; vm_compute; reflexivity.
  - eapply phantom_absent_amp; try reflexivity; vm_compute; reflexivity.
Qed.

(** ** Phantom-stable pools: lengths and the pool's own BPT *)

Lemma splice1_nat {A : Type} (l : list A) (i : nat) :
  splice1 l (Z.of_nat i) = firstn i l ++ skipn (S i) l.
Proof.
  unfold splice1.
  replace (Z.of_nat i <? 0) with false by (symmetry; apply Z.ltb_ge; lia).
  destruct (Nat.le_gt_cases i (List.length l)) as [Hle|Hgt].
  - rewrite Z.min_l by lia. rewrite Nat2Z.id. reflexivity.
  - rewrite Z.min_r by lia. rewrite Nat2Z.id.
    rewrite firstn_all, (firstn_all2 (n := i)) by lia.
    rewrite !skipn_all2 by lia. reflexivity.
Qed.

Lemma findIndex_In (addr : string) (l : list string) :
  In addr l ->
  forall start,
  exists i,
    findIndex addr l start = start + Z.of_nat i /\
    nth_error l i = Some addr /\
    forall j, (j < i)%nat -> nth_error l j <> Some addr.
Proof.
  induction l as [|t l IH]; intros Hin start; [contradiction|].
  cbn [findIndex]. destruct (String.eqb_spec t addr) as [->|Hne].
  - exists 0%nat. split; [lia|]. split; [reflexivity|]. intros j Hj; lia.
  - destruct Hin as [->|Hin]; [congruence|].
    destruct (IH Hin (start + 1)) as (i & Hi & Hnth & Hfirst).
    exists (S i). split; [lia|]. split; [assumption|].
    intros [|j] Hj; cbn [nth_error].
    + congruence.
    + apply Hfirst. lia.
Qed.

Lemma phantom_positional (parseFixed : Parser) (pool : Pool)
      (tokenAmounts : list Z) (p : StablePhantomPriceImpact.Prepared) :
  StablePhantomPriceImpact.prepare parseFixed pool tokenAmounts = Ok p ->
  In (pool_address pool) (tokensList pool) ->
  StablePhantomPriceImpact.bptZeroPriceImpact parseFixed pool tokenAmounts
  = StablePhantomPriceImpact.accumulate p tokenAmounts /\
  exists (i : nat) (all : list Z),
    nth_error (tokensList pool) i = Some (pool_address pool) /\
    (forall j, (j < i)%nat ->
               nth_error (tokensList pool) j <> Some (pool_address pool)) /\
    List.length all = List.length (tokens pool) /\
    (forall j t, nth_error (tokens pool) j = Some t ->
                 exists b, nth_error all j = Some b /\
                           upscaledBalance parseFixed t b) /\
    StablePhantomPriceImpact.p_balances p
    = firstn i all ++ skipn (S i) all /\
    StablePhantomPriceImpact.p_tokensList p
    = firstn i (tokensList pool) ++ skipn (S i) (tokensList pool) /\
    scaleAll (StablePhantomPriceImpact.p_balances p)
             (StablePhantomPriceImpact.p_priceRates p)
    = Ok (StablePhantomPriceImpact.p_balancesScaled p) /\
    List.length tokenAmounts
    = List.length (StablePhantomPriceImpact.p_tokensList p).
Proof.
  intros Hp Hin.
  split.
  { unfold StablePhantomPriceImpact.bptZeroPriceImpact. rewrite Hp.
    reflexivity. }
  unfold StablePhantomPriceImpact.prepare in Hp.
  destruct (negb (Z.of_nat (List.length tokenAmounts)
                  =? Z.of_nat (List.length (tokensList pool)) - 1));
    [discriminate Hp|].
  apply bind_Ok in Hp. destruct Hp as (info & Hinfo & Hp).
  apply bind_Ok in Hp. destruct Hp as (ds & Hds & Hp).
  apply bind_Ok in Hp. destruct Hp as (rates & Hrates & Hp).
  apply bind_Ok in Hp. destruct Hp as (a & Ha & Hp).
  apply bind_Ok in Hp. destruct Hp as (sfs & Hsfs & Hp).
  apply bind_Ok in Hp. destruct Hp as (all & Hall & Hp).
  destruct (Nat.eqb_spec (List.length tokenAmounts)
              (List.length (splice1 (tokensList pool)
                 (findIndex (pool_address pool) (tokensList pool) 0))))
    as [Hlen|Hlen]; cbn [negb] in Hp; [|discriminate Hp].
  apply bind_Ok in Hp. destruct Hp as (scaled & Hscaled & Hp).
  injection Hp as <-.
  cbn [StablePhantomPriceImpact.p_balances
         StablePhantomPriceImpact.p_tokensList
         StablePhantomPriceImpact.p_priceRates
         StablePhantomPriceImpact.p_balancesScaled].
  destruct (findIndex_In _ _ Hin 0) as (i & Hi & Hnth & Hfirst).
  rewrite Z.add_0_l in Hi. rewrite Hi in *. rewrite !splice1_nat in *.
  apply parsePoolInfo_inv in Hinfo. destruct Hinfo as (Hdecs & Hbals & _).
  apply mapM_nth in Hbals. destruct Hbals as [Lbals Nbals].
  apply mapM_nth in Hds. destruct Hds as [Lds Nds].
  apply mapM_nth in Hsfs. destruct Hsfs as [Lsfs Nsfs].
  unfold upscaleAll in Hall.
  apply mapiM_nth in Hall. destruct Hall as [Lall Nall].
  exists i, all.
  split; [assumption|]. split; [assumption|].
  split; [lia|].
  split.
  { intros j t Hj.
    destruct (Nbals j t Hj) as (raw & Hraw & Hrawj).
    destruct (Nall j raw Hrawj) as (b & Hb & Hbj).
    cbn [Nat.add] in Hb.
    apply bind_Ok in Hb. destruct Hb as (sf & Hsf & Hb).
    apply at_index_Ok in Hsf.
    assert (Hdj : nth_error (parsedDecimals info) j
                  = Some (truthyNumber (decimals t))).
    { rewrite Hdecs, nth_error_map, Hj. reflexivity. }
    destruct (Nds j _ Hdj) as (d & Hd & Hdsj).
    destruct (Nsfs j d Hdsj) as (sf' & Hsf' & Hsfj).
    assert (sf' = sf) by congruence. subst sf'.
    exists b. split; [assumption|].
    exists raw, d, sf. repeat split; try assumption.
    unfold orThrow in Hd. destruct (truthyNumber (decimals t));
      [injection Hd as ->; reflexivity | discriminate Hd]. }
  repeat split; assumption.
Qed.

Lemma Forall2_pointwise {A B : Type} (R : A -> B -> Prop) (l : list A) :
  forall l' : list B,
    List.length l' = List.length l ->
    (forall j a, nth_error l j = Some a ->
                 exists b, nth_error l' j = Some b /\ R a b) ->
    Forall2 R l l'.
Proof.
  induction l as [|a l IH]; intros l' Hlen Hnth.
  - destruct l'; [constructor | discriminate Hlen].
  - destruct l' as [|b l']; [discriminate Hlen|].
    destruct (Hnth 0%nat a eq_refl) as (b' & Hb' & Hab).
    injection Hb' as <-. constructor; [assumption|].
    apply IH; [cbn [List.length] in Hlen; lia|].
    intros j x Hj. exact (Hnth (S j) x Hj).
Qed.

Lemma Forall2_without {A B : Type} (R : A -> B -> Prop) (l : list A)
      (l' : list B) :
  Forall2 R l l' ->
  forall i, Forall2 R (firstn i l ++ skipn (S i) l)
                      (firstn i l' ++ skipn (S i) l').
Proof.
  induction 1 as [|a b l l' Hab Hrest IH]; intros i.
  - rewrite !firstn_nil, !skipn_nil. constructor.
  - destruct i as [|i].
    + cbn [firstn skipn app]. assumption.
    + cbn [firstn skipn app]. constructor; [assumption | apply IH].
Qed.

Lemma nth_error_without {A : Type} (l : list A) :
  forall (i : nat) (a : A),
    nth_error l i = Some a -> l = firstn i l ++ a :: skipn (S i) l.
Proof.
  induction l as [|x l IH]; intros [|i] a H; try discriminate H.
  - injection H as <-. reflexivity.
  - cbn [nth_error] in H. cbn [firstn skipn app]. f_equal. apply IH.
    assumption.
Qed.

(** C7.  For a phantom-stable pool [bptZeroPriceImpact] fails with
    [INPUT_LENGTH_MISMATCH] whenever the number of token amounts is not
    the length of the pool's token list minus one (so a call that
    returns had exactly that many amounts); and when the checks pass and
    the token list holds the pool's own address at index [i], the
    balance at index [i] is removed from the upscaled balances of the
    pool's tokens, and only the remaining balances, scaled by the price
    rates, are passed to the final loop that calls [bptSpotPrice].  For
    a pool whose [tokens] stand in the order of its token list, the
    token at index [i] is the first one whose address is the pool's
    own, the balances that remain are the upscaled balances of the other
    tokens, in their order, and, when no address is listed twice, none of
    them belongs to a token with the pool's address. *)
Theorem phantom_lengths_and_bpt_removal (parseFixed : Parser) (pool : Pool)
        (tokenAmounts : list Z) :
  (Z.of_nat (List.length tokenAmounts)
   <> Z.of_nat (List.length (tokensList pool)) - 1 ->
   StablePhantomPriceImpact.bptZeroPriceImpact parseFixed pool tokenAmounts
   = Err (BalancerError INPUT_LENGTH_MISMATCH)) /\
  (forall v,
      StablePhantomPriceImpact.bptZeroPriceImpact parseFixed pool tokenAmounts
      = Ok v ->
      Z.of_nat (List.length tokenAmounts)
      = Z.of_nat (List.length (tokensList pool)) - 1) /\
  (forall p,
      StablePhantomPriceImpact.prepare parseFixed pool tokenAmounts = Ok p ->
      In (pool_address pool) (tokensList pool) ->
      StablePhantomPriceImpact.bptZeroPriceImpact parseFixed pool tokenAmounts
      = StablePhantomPriceImpact.accumulate p tokenAmounts /\
      exists (i : nat) (all : list Z),
        nth_error (tokensList pool) i = Some (pool_address pool) /\
        (forall j, (j < i)%nat ->
                   nth_error (tokensList pool) j <> Some (pool_address pool)) /\
        List.length all = List.length (tokens pool) /\
        (forall j t, nth_error (tokens pool) j = Some t ->
                     exists b, nth_error all j = Some b /\
                               upscaledBalance parseFixed t b) /\
        StablePhantomPriceImpact.p_balances p
        = firstn i all ++ skipn (S i) all /\
        StablePhantomPriceImpact.p_tokensList p
        = firstn i (tokensList pool) ++ skipn (S i) (tokensList pool) /\
        scaleAll (StablePhantomPriceImpact.p_balances p)
                 (StablePhantomPriceImpact.p_priceRates p)
        = Ok (StablePhantomPriceImpact.p_balancesScaled p) /\
        List.length tokenAmounts
        = List.length (StablePhantomPriceImpact.p_tokensList p)) /\
  (forall p,
      StablePhantomPriceImpact.prepare parseFixed pool tokenAmounts = Ok p ->
      tokensList pool = map address (tokens pool) ->
      In (pool_address pool) (tokensList pool) ->
      exists (i : nat) (bpt : Token) (others : list Token),
        nth_error (tokens pool) i = Some bpt /\
        address bpt = pool_address pool /\
        (forall j t, (j < i)%nat -> nth_error (tokens pool) j = Some t ->
                     address t <> pool_address pool) /\
        others = firstn i (tokens pool) ++ skipn (S i) (tokens pool) /\
        tokens pool = firstn i (tokens pool) ++ bpt :: skipn (S i) (tokens pool) /\
        Forall2 (upscaledBalance parseFixed) others
                (StablePhantomPriceImpact.p_balances p) /\
        StablePhantomPriceImpact.p_tokensList p = map address others /\
        List.length tokenAmounts = List.length others /\
        (NoDup (tokensList pool) ->
         Forall (fun t => address t <> pool_address pool) others)).
Proof.
  assert (Hmismatch :
            Z.of_nat (List.length tokenAmounts)
            <> Z.of_nat (List.length (tokensList pool)) - 1 ->
            StablePhantomPriceImpact.prepare parseFixed pool tokenAmounts
            = Err (BalancerError INPUT_LENGTH_MISMATCH)).
  { intros Hne. unfold StablePhantomPriceImpact.prepare.
    apply Z.eqb_neq in Hne. rewrite Hne. reflexivity. }
  split; [|split; [|split]].
  - intros Hne. unfold StablePhantomPriceImpact.bptZeroPriceImpact.
    rewrite (Hmismatch Hne). reflexivity.
  - intros v Hv.
    destruct (Z.eq_dec (Z.of_nat (List.length tokenAmounts))
                       (Z.of_nat (List.length (tokensList pool)) - 1))
      as [E|Hne]; [exact E|].
    unfold StablePhantomPriceImpact.bptZeroPriceImpact in Hv.
    rewrite (Hmismatch Hne) in Hv. discriminate Hv.
  - intros p Hp Hin. apply phantom_positional; assumption.
  - intros p Hp Halign Hin.
    destruct (phantom_positional parseFixed pool tokenAmounts p Hp Hin)
      as (_ & i & all & Hnth & Hfirst & Hlen & Hall & Hbal & Hlist & _ & Hams).
    assert (Hbpt : exists bpt, nth_error (tokens pool) i = Some bpt /\
                               address bpt = pool_address pool).
    { rewrite Halign, nth_error_map in Hnth.
      destruct (nth_error (tokens pool) i) as [bpt|]; [|discriminate Hnth].
      exists bpt. split; [reflexivity|]. cbn [option_map] in Hnth.
      congruence. }
    destruct Hbpt as (bpt & Hbpt & Haddr).
    exists i, bpt, (firstn i (tokens pool) ++ skipn (S i) (tokens pool)).
    assert (Hnames : StablePhantomPriceImpact.p_tokensList p
                     = map address (firstn i (tokens pool)
                                    ++ skipn (S i) (tokens pool))).
    { rewrite Hlist, Halign, map_app, firstn_map, skipn_map. reflexivity. }
    split; [assumption|]. split; [assumption|].
    split.
    { intros j t Hj Ht Heq. apply (Hfirst j Hj).
      rewrite Halign, nth_error_map, Ht. cbn [option_map]. congruence. }
    split; [reflexivity|].
    split; [apply nth_error_without; assumption|].
    split.
    { rewrite Hbal. apply Forall2_without.
      apply Forall2_pointwise; assumption. }
    split; [assumption|].
    split.
    { rewrite Hams, Hnames, length_map. reflexivity. }
    intros Hnodup. apply Forall_forall. intros t Ht Heq.
    pose proof (nth_error_without _ _ _ Hnth) as Hsplit.
    assert (Hrem : ~ In (pool_address pool)
                     (firstn i (tokensList pool)
                      ++ skipn (S i) (tokensList pool))).
    { apply NoDup_remove_2. rewrite <- Hsplit. assumption. }
    apply Hrem. rewrite Halign, firstn_map, skipn_map, <- map_app.
    rewrite <- Heq. apply in_map. assumption.
Qed.

Lemma phantom_lengths_and_bpt_removal_witness :
  StablePhantomPriceImpact.bptZeroPriceImpact parseFixedDigits phantomPool
    [1; 1; 1]
  = Err (BalancerError INPUT_LENGTH_MISMATCH) /\
  exists p,
    StablePhantomPriceImpact.prepare parseFixedDigits phantomPool [1; 1] = Ok p /\
    StablePhantomPriceImpact.bptZeroPriceImpact parseFixedDigits phantomPool
      [1; 1]
    = StablePhantomPriceImpact.accumulate p [1; 1] /\
    StablePhantomPriceImpact.p_balances p
    = [1000000000000000000000; 1000000000000000000000] /\
    exists others,
      Forall2 (upscaledBalance parseFixedDigits) others
              (StablePhantomPriceImpact.p_balances p) /\
      Forall (fun t => address t <> pool_address phantomPool) others.
Proof.
  split.
  - apply (phantom_lengths_and_bpt_removal parseFixedDigits phantomPool [1; 1; 1]).
    vm_compute. discriminate.
  - destruct (StablePhantomPriceImpact.prepare parseFixedDigits phantomPool [1; 1])
      as [p|e] eqn:Hp; [|vm_compute in Hp; discriminate Hp].
    exists p. split; [reflexivity|].
    destruct (phantom_lengths_and_bpt_removal parseFixedDigits phantomPool [1; 1])
      as (_ & _ & H & Haligned).
    assert (Hin : In (pool_address phantomPool) (tokensList phantomPool)).
    { vm_compute. right; left; reflexivity. }
    destruct (H p Hp Hin) as (Hacc & _).
    split; [exact Hacc|].
    split; [vm_compute in Hp; injection Hp as <-; reflexivity|].
    destruct (Haligned p Hp eq_refl Hin)
      as (i & bpt & others & _ & _ & _ & _ & _ & Hothers & _ & _ & Hnone).
    exists others. split; [exact Hothers|].
    apply Hnone. vm_compute.
    repeat (constructor; [intros Hx; cbn [In] in Hx; intuition discriminate|]).
    constructor.
Defined.

(** The removal is by position: when [tokens] does not follow the order
    of the token list, the balance removed is the one at the index the
    pool's address has in the token list, here that of the first token,
    and the balance 5000 of the pool's own token stays. *)
Example phantom_removal_is_positional :
  exists p,
    StablePhantomPriceImpact.prepare parseFixedDigits misorderedPhantomPool
      [1; 1] = Ok p /\
    StablePhantomPriceImpact.p_balances p
    = [5000000000000000000000; 1000000000000000000000].
Proof. eexists. split; vm_compute; reflexivity. Qed.

(** ** Call depth of [exp], [_ln] and [pow]

    Two stack frames are all that [exp] ever uses, and all that [_ln]
    and [pow] use on positive arguments: a deeper stack does not change
    the outcome. *)

Lemma exp_depth (n : nat) (x : Z) :
  LogExpMath.exp (S (S n)) x = LogExpMath.exp 2 x.
Proof.
  cbn [LogExpMath.exp].
  destruct (_require _ _) as [u|e]; [|reflexivity]. cbn [bind].
  destruct (Z.ltb_spec x 0) as [Hneg|Hpos]; [|reflexivity].
  replace (-1 * x <? 0) with false by (symmetry; apply Z.ltb_ge; lia).
  reflexivity.
Qed.

Lemma ln_depth (n : nat) (a : Z) :
  0 < a -> LogExpMath._ln (S (S n)) a = LogExpMath._ln 2 a.
Proof.
  intros Ha. cbn [LogExpMath._ln].
  destruct (Z.ltb_spec a LogExpMath.ONE_18) as [Hlt|Hge]; [|reflexivity].
  unfold bigdiv. destruct (Z.eqb_spec a 0) as [E|_]; [lia|]. cbn [bind].
  assert (Hq : LogExpMath.ONE_18
               <= Z.quot (LogExpMath.ONE_18 * LogExpMath.ONE_18) a).
  { rewrite Z.quot_div_nonneg by (unfold LogExpMath.ONE_18; lia).
    apply Z.div_le_lower_bound; [assumption|].
    unfold LogExpMath.ONE_18 in *. nia. }
  replace (Z.quot (LogExpMath.ONE_18 * LogExpMath.ONE_18) a
           <? LogExpMath.ONE_18)
    with false by (symmetry; apply Z.ltb_ge; assumption).
  reflexivity.
Qed.

Lemma pow_depth (n : nat) (x y : Z) :
  0 <= x -> LogExpMath.pow (S (S n)) x y = LogExpMath.pow 2 x y.
Proof.
  intros Hx. unfold LogExpMath.pow.
  destruct (y =? BZERO); [reflexivity|].
  destruct (Z.eqb_spec x BZERO) as [E|Hne]; [reflexivity|].
  unfold BZERO in Hne.
  destruct (_require (x <? LogExpMath.X_BOUND) _); [|reflexivity].
  cbn [bind].
  destruct (_require (y <? LogExpMath.MILD_EXPONENT_BOUND) _); [|reflexivity].
  cbn [bind]. cbv zeta.
  rewrite ln_depth by lia.
  match goal with
  | |- bind ?m _ = bind ?m _ => destruct m as [l|e]; [|reflexivity]
  end.
  cbn [bind].
  destruct (_require _ _); [|reflexivity].
  cbn [bind]. apply exp_depth.
Qed.

(** * Further properties of the arithmetic *)

(** ** FixedPoint arithmetic *)

(** X1.  The overflow tests of [add], [mul], [mulDownFixed] and
    [mulUpFixed] always pass on unbounded integers: the four functions
    return for all arguments, so [ADD_OVERFLOW] and [MUL_OVERFLOW] are
    never raised; [sub] raises [SUB_OVERFLOW] exactly when [b > a]. *)
Theorem overflow_errors_unreachable (a b : Z) :
  SolidityMaths.add a b = Ok (a + b) /\
  SolidityMaths.mul a b = Ok (a * b) /\
  SolidityMaths.mulDownFixed a b = Ok (Z.quot (a * b) ONE) /\
  (exists up, SolidityMaths.mulUpFixed a b = Ok up) /\
  (SolidityMaths.sub a b = Err (Error SUB_OVERFLOW) <-> a < b) /\
  (SolidityMaths.sub a b = Ok (a - b) <-> b <= a).
Proof.
  split; [apply add_Ok|]. split; [apply mul_Ok|].
  split; [apply mulDownFixed_Ok|].
  split; [rewrite mulUpFixed_Ok; eauto|].
  unfold SolidityMaths.sub.
  destruct (Z.leb_spec b a); cbn [_require bind]; split; split;
    intros H'; try discriminate H'; try reflexivity; lia.
Qed.

(** X2.  For non-negative factors [mulUpFixed] is [mulDownFixed] when
    the product is a multiple of [ONE] and [mulDownFixed + 1] otherwise;
    [mulDownFixed] is the floor and [mulUpFixed] the ceiling of
    [a * b / ONE]. *)
Theorem mulUp_mulDown_gap (a b : Z) :
  0 <= a -> 0 <= b ->
  exists up down,
    SolidityMaths.mulUpFixed a b = Ok up /\
    SolidityMaths.mulDownFixed a b = Ok down /\
    down * ONE <= a * b < (down + 1) * ONE /\
    (up - 1) * ONE < a * b <= up * ONE /\
    up = (if Z.rem (a * b) ONE =? 0 then down else down + 1).
Proof.
  intros Ha Hb.
  rewrite mulUpFixed_Ok, mulDownFixed_Ok.
  assert (Hp : 0 <= a * b) by (apply Z.mul_nonneg_nonneg; assumption).
  set (p := a * b) in *.
  eexists _, _. split; [reflexivity|]. split; [reflexivity|].
  rewrite Z.rem_mod_nonneg by (unfold ONE; lia).
  rewrite (Z.quot_div_nonneg p) by (unfold ONE; lia).
  pose proof (Z.div_mod p ONE ltac:(discriminate)) as Ep.
  pose proof (Z.mod_pos_bound p ONE ltac:(reflexivity)) as Bp.
  destruct (Z.eqb_spec p 0) as [E0|E0].
  - rewrite E0 in *. replace (0 mod ONE) with 0 in * by reflexivity.
    replace (0 / ONE) with 0 in * by reflexivity.
    cbn [Z.eqb]. unfold ONE. lia.
  - rewrite Z.quot_div_nonneg by (unfold ONE; lia).
    pose proof (Z.div_mod (p - 1) ONE ltac:(discriminate)) as Ep1.
    pose proof (Z.mod_pos_bound (p - 1) ONE ltac:(reflexivity)) as Bp1.
    assert (Hq : (p - 1) / ONE = if p mod ONE =? 0 then p / ONE - 1 else p / ONE).
    { destruct (Z.eqb_spec (p mod ONE) 0) as [Em|Em].
      - symmetry. apply (Z.div_unique (p - 1) ONE (p / ONE - 1) (ONE - 1));
          unfold ONE in *; lia.
      - symmetry. apply (Z.div_unique (p - 1) ONE (p / ONE) (p mod ONE - 1));
          unfold ONE in *; lia. }
    rewrite Hq.
    destruct (Z.eqb_spec (p mod ONE) 0); unfold ONE in *; lia.
Qed.

Lemma mulUp_mulDown_gap_witness :
  exists up down,
    SolidityMaths.mulUpFixed 1500000000000000001 3 = Ok up /\
    SolidityMaths.mulDownFixed 1500000000000000001 3 = Ok down /\
    down * ONE <= 1500000000000000001 * 3 < (down + 1) * ONE /\
    (up - 1) * ONE < 1500000000000000001 * 3 <= up * ONE /\
    up = (if Z.rem (1500000000000000001 * 3) ONE =? 0 then down else down + 1).
Proof. apply (mulUp_mulDown_gap 1500000000000000001 3); lia. Defined.

Lemma roundDiv_spec (a b : Z) (roundUp : bool) :
  0 <= a -> 0 < b ->
  if roundUp then (roundDiv a b roundUp - 1) * b < a <= roundDiv a b roundUp * b
  else roundDiv a b roundUp * b <= a < (roundDiv a b roundUp + 1) * b.
Proof.
  intros Ha Hb. unfold roundDiv. destruct roundUp.
  - destruct (Z.eqb_spec a 0) as [->|Ha0]; [lia|].
    rewrite Z.quot_div_nonneg by lia.
    pose proof (Z.div_mod (a - 1) b ltac:(lia)) as E.
    pose proof (Z.mod_pos_bound (a - 1) b Hb) as B.
    nia.
  - rewrite Z.quot_div_nonneg by lia.
    pose proof (Z.div_mod a b ltac:(lia)) as E.
    pose proof (Z.mod_pos_bound a b Hb) as B.
    nia.
Qed.

(** X3.  On a non-negative dividend and a positive divisor
    [SolidityMaths.div] returns the floor of the quotient when rounding
    down and its ceiling when rounding up; for a zero divisor it fails
    with [ZERO_DIVISION] in both directions. *)
Theorem div_floor_ceiling (a b : Z) (roundUp : bool) :
  SolidityMaths.div a 0 roundUp = Err (Error ZERO_DIVISION) /\
  (0 <= a -> 0 < b ->
   exists q,
     SolidityMaths.div a b roundUp = Ok q /\
     if roundUp then (q - 1) * b < a <= q * b
     else q * b <= a < (q + 1) * b).
Proof.
  split; [apply div_zero|].
  intros Ha Hb. rewrite div_nonzero by lia.
  exists (roundDiv a b roundUp). split; [reflexivity|].
  apply roundDiv_spec; assumption.
Qed.

Lemma div_floor_ceiling_witness :
  SolidityMaths.div 7 2 true = Ok 4 /\ SolidityMaths.div 7 2 false = Ok 3.
Proof.
  destruct (div_floor_ceiling 7 2 true) as [_ Hup].
  destruct (div_floor_ceiling 7 2 false) as [_ Hdown].
  destruct Hup as (u & Hu & Bu); [lia | lia |].
  destruct Hdown as (d & Hd & Bd); [lia | lia |].
  assert (u = 4) by lia. assert (d = 3) by lia. subst. split; assumption.
Defined.

(** X4.  [complementFixed] never returns a negative value: it is
    [ONE - x] up to [ONE] and [0] from [ONE] on; on [0 .. ONE] it is an
    involution. *)
Theorem complementFixed_range (x : Z) :
  (x <= ONE -> x + SolidityMaths.complementFixed x = ONE) /\
  (ONE <= x -> SolidityMaths.complementFixed x = 0) /\
  (0 <= x -> 0 <= SolidityMaths.complementFixed x <= ONE) /\
  (0 <= x <= ONE ->
   SolidityMaths.complementFixed (SolidityMaths.complementFixed x) = x).
Proof.
  unfold SolidityMaths.complementFixed, BZERO.
  destruct (Z.ltb_spec x ONE) as [Hlt|Hge].
  - destruct (Z.ltb_spec (ONE - x) ONE); repeat split; intros; lia.
  - replace (0 <? ONE) with true by reflexivity.
    repeat split; intros; try lia. unfold ONE. lia.
Qed.

Lemma complementFixed_range_witness :
  SolidityMaths.complementFixed (SolidityMaths.complementFixed 300000000000000000)
  = 300000000000000000 /\
  SolidityMaths.complementFixed 2000000000000000000 = 0.
Proof.
  split.
  - apply (complementFixed_range 300000000000000000). unfold ONE. lia.
  - apply (complementFixed_range 2000000000000000000). unfold ONE. lia.
Defined.

(** X5.  Multiplying by a factor [b >= ONE] and dividing by it again,
    both rounding down, never exceeds the start value and loses at most
    one unit; both rounding up, it never falls below the start value and
    gains at most one unit. *)
Theorem mul_div_round_trip (a b : Z) :
  0 <= a -> ONE <= b ->
  exists mDown dDown mUp dUp,
    SolidityMaths.mulDownFixed a b = Ok mDown /\
    SolidityMaths.divDownFixed mDown b = Ok dDown /\
    a - 1 <= dDown <= a /\
    SolidityMaths.mulUpFixed a b = Ok mUp /\
    SolidityMaths.divUpFixed mUp b = Ok dUp /\
    a <= dUp <= a + 1.
Proof.
  intros Ha Hb.
  assert (HONE : 0 < ONE) by reflexivity.
  assert (Hb0 : 0 < b) by lia.
  assert (Hp : 0 <= a * b) by nia.
  assert (Hab : a * ONE <= a * b) by nia.
  rewrite mulDownFixed_Ok, mulUpFixed_Ok.
  rewrite Z.quot_div_nonneg by lia.
  set (p := a * b) in *.
  pose proof (Z.div_mod p ONE ltac:(lia)) as Ep.
  pose proof (Z.mod_pos_bound p ONE HONE) as Bp.
  set (m := p / ONE) in *.
  assert (Hm : 0 <= m) by (apply Z.div_pos; lia).
  exists m.
  rewrite (divDownFixed_Ok m b) by lia.
  eexists. eexists. eexists.
  split; [reflexivity|]. split; [reflexivity|]. split.
  { destruct (Z.eqb_spec m 0) as [Em|Em].
    - assert (a = 0) by nia. lia.
    - rewrite Z.quot_div_nonneg by nia. split.
      + apply Z.div_le_lower_bound; [assumption|]. nia.
      + apply Z.div_le_upper_bound; [assumption|]. nia. }
  split; [reflexivity|].
  rewrite divUpFixed_outcome.
  replace (b =? 0) with false by (symmetry; apply Z.eqb_neq; lia).
  split; [reflexivity|].
  destruct (Z.eqb_spec p 0) as [E0|E0].
  - cbn [Z.eqb]. assert (a = 0) by nia. lia.
  - rewrite Z.quot_div_nonneg by lia.
    pose proof (Z.div_mod (p - 1) ONE ltac:(lia)) as Ep1.
    pose proof (Z.mod_pos_bound (p - 1) ONE HONE) as Bp1.
    set (u := (p - 1) / ONE + 1) in *.
    assert (Hu : (u - 1) * ONE < p <= u * ONE) by (subst u; lia).
    assert (Hu0 : 0 < u) by nia.
    replace (u =? 0) with false by (symmetry; apply Z.eqb_neq; lia).
    rewrite Z.quot_div_nonneg by nia.
    assert (Hlow : a - 1 <= (u * ONE - 1) / b).
    { apply Z.div_le_lower_bound; [assumption|]. nia. }
    assert (Hupp : (u * ONE - 1) / b < a + 1).
    { apply Z.div_lt_upper_bound; [assumption|]. nia. }
    lia.
Qed.

Lemma mul_div_round_trip_witness :
  exists mDown dDown mUp dUp,
    SolidityMaths.mulDownFixed 10 3000000000000000000 = Ok mDown /\
    SolidityMaths.divDownFixed mDown 3000000000000000000 = Ok dDown /\
    10 - 1 <= dDown <= 10 /\
    SolidityMaths.mulUpFixed 10 3000000000000000000 = Ok mUp /\
    SolidityMaths.divUpFixed mUp 3000000000000000000 = Ok dUp /\
    10 <= dUp <= 10 + 1.
Proof. apply (mul_div_round_trip 10 3000000000000000000); unfold ONE; lia. Defined.

(** ** Domain and range of [exp], [_ln] and [pow] *)

Lemma expTerm_ge (xn an : Z) (st : Z * Z) :
  LogExpMath.ONE_20 <= an ->
  0 <= fst st /\ LogExpMath.ONE_20 <= snd st ->
  0 <= fst (LogExpMath.expTerm xn an st) /\
  LogExpMath.ONE_20 <= snd (LogExpMath.expTerm xn an st).
Proof.
  intros Han [Hx Hp]. destruct st as [x p]. unfold LogExpMath.expTerm.
  cbn [fst snd] in Hx, Hp.
  destruct (Z.geb_spec x xn); cbn [fst snd]; split; try lia.
  assert (H20 : 0 < LogExpMath.ONE_20) by reflexivity.
  rewrite Z.quot_div_nonneg by nia.
  apply Z.le_trans with p; [assumption|].
  apply Z.div_le_lower_bound; [assumption|]. nia.
Qed.

Lemma expTaylor_ge (x n : Z) (st : Z * Z) :
  0 <= x -> 0 < n ->
  0 <= fst st /\ LogExpMath.ONE_20 <= snd st ->
  0 <= fst (LogExpMath.expTaylor x n st) /\
  LogExpMath.ONE_20 <= snd (LogExpMath.expTaylor x n st).
Proof.
  intros Hx Hn [Ht Hs]. destruct st as [t s]. unfold LogExpMath.expTaylor.
  cbn [fst snd] in Ht, Hs.
  assert (0 <= Z.quot (Z.quot (t * x) LogExpMath.ONE_20) n).
  { apply Z.quot_pos; [|assumption].
    apply Z.quot_pos; [nia | reflexivity]. }
  split; cbn [fst snd]; lia.
Qed.

Lemma expTail_ge_ONE (x : Z) : 0 <= x -> ONE <= LogExpMath.expTail x.
Proof.
  intros Hx. unfold LogExpMath.expTail.
  assert (Hfirst : exists x' firstAN,
             (if x >=? LogExpMath.x0 then (x - LogExpMath.x0, LogExpMath.a0)
              else if x >=? LogExpMath.x1 then (x - LogExpMath.x1, LogExpMath.a1)
              else (x, 1)) = (x', firstAN) /\ 0 <= x' /\ 1 <= firstAN).
  { destruct (Z.geb_spec x LogExpMath.x0).
    - eexists _, _. split; [reflexivity|]. split; [lia | discriminate].
    - destruct (Z.geb_spec x LogExpMath.x1).
      + eexists _, _. split; [reflexivity|]. split; [lia | discriminate].
      + eexists _, _. split; [reflexivity|]. split; [lia | discriminate]. }
  destruct Hfirst as (x' & firstAN & -> & Hx' & Hf).
  cbv zeta.
  remember (LogExpMath.expTerm LogExpMath.x9 _ _) as st eqn:Est.
  assert (Hst : 0 <= fst st /\ LogExpMath.ONE_20 <= snd st).
  { subst st.
    repeat (apply expTerm_ge; [discriminate|]).
    split; cbn [fst snd]; [lia | reflexivity]. }
  clear Est. destruct st as [xr product]. destruct Hst as [Hxr Hp].
  cbn [fst snd] in Hxr, Hp.
  remember (LogExpMath.expTaylor xr 12 _) as ts eqn:Ets.
  assert (Hts : 0 <= fst ts /\ LogExpMath.ONE_20 <= snd ts).
  { subst ts.
    repeat (apply expTaylor_ge; [assumption | reflexivity |]).
    split; cbn [fst snd]; [lia|]. lia. }
  clear Ets. destruct ts as [term seriesSum]. destruct Hts as [_ Hs].
  cbn [snd] in Hs.
  assert (H20 : LogExpMath.ONE_20 = 100000000000000000000) by reflexivity.
  assert (Hq : LogExpMath.ONE_20
               <= Z.quot (product * seriesSum) LogExpMath.ONE_20).
  { rewrite Z.quot_div_nonneg by nia.
    apply Z.div_le_lower_bound; [lia | nia]. }
  rewrite Z.quot_div_nonneg by nia.
  apply Z.div_le_lower_bound; [lia|]. unfold ONE. nia.
Qed.

Lemma require_bounds (x : Z) :
  LogExpMath.MIN_NATURAL_EXPONENT <= x <= LogExpMath.MAX_NATURAL_EXPONENT ->
  _require ((x >=? LogExpMath.MIN_NATURAL_EXPONENT)
            && (x <=? LogExpMath.MAX_NATURAL_EXPONENT)) INVALID_EXPONENT
  = Ok tt.
Proof.
  intros [Hlo Hhi]. apply require_true.
  apply andb_true_intro. split; [apply Z.geb_le | apply Z.leb_le]; assumption.
Qed.

Lemma exp_of_nonneg (stack : nat) (x : Z) :
  0 <= x <= LogExpMath.MAX_NATURAL_EXPONENT ->
  LogExpMath.exp (S stack) x = Ok (LogExpMath.expTail x) /\
  ONE <= LogExpMath.expTail x.
Proof.
  intros [Hlo Hhi]. cbn [LogExpMath.exp].
  rewrite require_bounds
    by (split; [unfold LogExpMath.MIN_NATURAL_EXPONENT; lia | assumption]).
  cbn [bind].
  replace (x <? 0) with false by (symmetry; apply Z.ltb_ge; assumption).
  split; [reflexivity | apply expTail_ge_ONE; assumption].
Qed.

Lemma exp_of_negative (stack : nat) (x : Z) :
  LogExpMath.MIN_NATURAL_EXPONENT <= x < 0 ->
  exists r, LogExpMath.exp (S (S stack)) x = Ok r /\ 0 <= r <= ONE.
Proof.
  intros [Hlo Hhi].
  assert (Hneg : 0 <= -1 * x <= LogExpMath.MAX_NATURAL_EXPONENT).
  { unfold LogExpMath.MIN_NATURAL_EXPONENT, LogExpMath.MAX_NATURAL_EXPONENT
      in *. lia. }
  destruct (exp_of_nonneg stack (-1 * x) Hneg) as [He Hge].
  set (e := LogExpMath.expTail (-1 * x)) in *.
  change (LogExpMath.exp (S (S stack)) x)
    with (_require ((x >=? LogExpMath.MIN_NATURAL_EXPONENT)
                    && (x <=? LogExpMath.MAX_NATURAL_EXPONENT))
                   INVALID_EXPONENT ;;;
          if x <? 0
          then e' <- LogExpMath.exp (S stack) (-1 * x) ;;
               bigdiv (LogExpMath.ONE_18 * LogExpMath.ONE_18) e'
          else Ok (LogExpMath.expTail x)).
  rewrite require_bounds
    by (split; [assumption | unfold LogExpMath.MAX_NATURAL_EXPONENT; lia]).
  cbn [bind].
  replace (x <? 0) with true by (symmetry; apply Z.ltb_lt; assumption).
  rewrite He. cbn [bind]. unfold bigdiv.
  assert (H1 : 0 < ONE) by reflexivity.
  replace (e =? 0) with false by (symmetry; apply Z.eqb_neq; lia).
  eexists. split; [reflexivity|].
  change (LogExpMath.ONE_18 * LogExpMath.ONE_18) with (ONE * ONE).
  rewrite Z.quot_div_nonneg by lia. split.
  - apply Z.div_pos; lia.
  - apply Z.div_le_upper_bound; [lia | nia].
Qed.

(** X6.  [exp] fails with [INVALID_EXPONENT] outside
    [[MIN_NATURAL_EXPONENT, MAX_NATURAL_EXPONENT]]; inside that range it
    returns (it never divides by zero), with a value of at least [ONE]
    for a non-negative argument and a value between [0] and [ONE] for a
    negative one. *)
Theorem exp_domain_and_range (stack : nat) (x : Z) :
  (x < LogExpMath.MIN_NATURAL_EXPONENT \/ LogExpMath.MAX_NATURAL_EXPONENT < x ->
   LogExpMath.exp (S stack) x = Err (Error INVALID_EXPONENT)) /\
  (0 <= x <= LogExpMath.MAX_NATURAL_EXPONENT ->
   exists r, LogExpMath.exp (S stack) x = Ok r /\ ONE <= r) /\
  (LogExpMath.MIN_NATURAL_EXPONENT <= x < 0 ->
   exists r, LogExpMath.exp (S (S stack)) x = Ok r /\ 0 <= r <= ONE).
Proof.
  split; [|split].
  - intros Hout. cbn [LogExpMath.exp].
    replace ((x >=? LogExpMath.MIN_NATURAL_EXPONENT)
             && (x <=? LogExpMath.MAX_NATURAL_EXPONENT)) with false;
      [reflexivity|].
    symmetry. apply andb_false_iff.
    destruct Hout as [Hlo|Hhi];
      [left; rewrite Z.geb_leb; apply Z.leb_gt | right; apply Z.leb_gt];
      assumption.
  - intros Hx. destruct (exp_of_nonneg stack x Hx) as [He Hge]. eauto.
  - apply exp_of_negative.
Qed.

Lemma exp_domain_and_range_witness :
  LogExpMath.exp 2 131000000000000000000 = Err (Error INVALID_EXPONENT) /\
  (exists r, LogExpMath.exp 2 1000000000000000000 = Ok r /\ ONE <= r) /\
  (exists r, LogExpMath.exp 2 (-1000000000000000000) = Ok r /\ 0 <= r <= ONE).
Proof.
  split; [|split].
  - apply (exp_domain_and_range 1 131000000000000000000).
    right. reflexivity.
  - apply (exp_domain_and_range 1 1000000000000000000).
    split; [discriminate | discriminate].
  - apply (exp_domain_and_range 0 (-1000000000000000000)).
    split; [discriminate | reflexivity].
Defined.

Lemma lnTerm_ge (an xn : Z) (st : Z * Z) :
  0 < an -> 0 <= xn ->
  LogExpMath.ONE_20 <= fst st /\ 0 <= snd st ->
  LogExpMath.ONE_20 <= fst (LogExpMath.lnTerm an xn st) /\
  0 <= snd (LogExpMath.lnTerm an xn st).
Proof.
  intros Han Hxn [Ha Hs]. destruct st as [a s]. unfold LogExpMath.lnTerm.
  cbn [fst snd] in Ha, Hs.
  destruct (Z.geb_spec a an); cbn [fst snd]; split; try lia.
  assert (H20 : 0 < LogExpMath.ONE_20) by reflexivity.
  rewrite Z.quot_div_nonneg by nia.
  apply Z.div_le_lower_bound; [assumption | nia].
Qed.

Lemma lnSeries_nonneg (one z_squared n : Z) (st : Z * Z) :
  0 < one -> 0 <= z_squared -> 0 < n ->
  nonneg2 st -> nonneg2 (LogExpMath.lnSeries one z_squared n st).
Proof.
  intros Hone Hz Hn [Hnum Hs]. destruct st as [num s].
  unfold LogExpMath.lnSeries. cbn [fst snd] in Hnum, Hs.
  assert (H1 : 0 <= Z.quot (num * z_squared) one)
    by (apply Z.quot_pos; [nia | assumption]).
  assert (H2 : 0 <= Z.quot (Z.quot (num * z_squared) one) n)
    by (apply Z.quot_pos; assumption).
  split; cbn [fst snd]; lia.
Qed.

Lemma lnTail_nonneg (a : Z) :
  LogExpMath.ONE_18 <= a ->
  exists l, LogExpMath.lnTail a = Ok l /\ 0 <= l.
Proof.
  intros Ha. unfold LogExpMath.lnTail, BZERO.
  assert (H18 : LogExpMath.ONE_18 = 1000000000000000000) by reflexivity.
  assert (H20 : LogExpMath.ONE_20 = 100000000000000000000) by reflexivity.
  assert (Hfirst : exists a1 s1,
             (if a >=? LogExpMath.a0 * LogExpMath.ONE_18
              then (Z.quot a LogExpMath.a0, 0 + LogExpMath.x0)
              else (a, 0)) = (a1, s1) /\
             LogExpMath.ONE_18 <= a1 /\ 0 <= s1).
  { destruct (Z.geb_spec a (LogExpMath.a0 * LogExpMath.ONE_18)).
    - eexists _, _. split; [reflexivity|]. split; [|discriminate].
      rewrite Z.quot_div_nonneg by (try reflexivity; lia).
      apply Z.div_le_lower_bound; [reflexivity | lia].
    - eexists _, _. split; [reflexivity|]. split; [assumption | reflexivity]. }
  destruct Hfirst as (a1 & s1 & -> & Ha1 & Hs1).
  assert (Hsecond : exists a2 s2,
             (if a1 >=? LogExpMath.a1 * LogExpMath.ONE_18
              then (Z.quot a1 LogExpMath.a1, s1 + LogExpMath.x1)
              else (a1, s1)) = (a2, s2) /\
             LogExpMath.ONE_18 <= a2 /\ 0 <= s2).
  { destruct (Z.geb_spec a1 (LogExpMath.a1 * LogExpMath.ONE_18)).
    - eexists _, _. split; [reflexivity|]. split.
      + rewrite Z.quot_div_nonneg by (try reflexivity; lia).
        apply Z.div_le_lower_bound; [reflexivity | lia].
      + unfold LogExpMath.x1. lia.
    - eexists _, _. split; [reflexivity|]. split; assumption. }
  destruct Hsecond as (a2 & s2 & -> & Ha2 & Hs2).
  cbv zeta.
  remember (LogExpMath.lnTerm LogExpMath.a11 _ _) as st eqn:Est.
  assert (Hst : LogExpMath.ONE_20 <= fst st /\ 0 <= snd st).
  { subst st.
    repeat (apply lnTerm_ge; [reflexivity | discriminate |]).
    split; cbn [fst snd]; lia. }
  clear Est. destruct st as [ar sum]. destruct Hst as [Har Hsum].
  cbn [fst snd] in Har, Hsum.
  unfold bigdiv.
  replace (ar + LogExpMath.ONE_20 =? 0) with false
    by (symmetry; apply Z.eqb_neq; lia).
  cbn [bind].
  set (z := Z.quot ((ar - LogExpMath.ONE_20) * LogExpMath.ONE_20)
                   (ar + LogExpMath.ONE_20)).
  assert (Hz : 0 <= z) by (apply Z.quot_pos; nia).
  set (z2 := Z.quot (z * z) LogExpMath.ONE_20).
  assert (Hz2 : 0 <= z2) by (apply Z.quot_pos; nia).
  remember (LogExpMath.lnSeries LogExpMath.ONE_20 z2 11 _) as ss eqn:Ess.
  assert (Hss : nonneg2 ss).
  { subst ss.
    repeat (apply lnSeries_nonneg; [reflexivity | assumption | reflexivity |]).
    split; assumption. }
  clear Ess. destruct ss as [num seriesSum]. destruct Hss as [_ Hser].
  cbn [snd] in Hser.
  eexists. split; [reflexivity|].
  apply Z.quot_pos; lia.
Qed.

Lemma ln_nonpositive (stack : nat) :
  forall a, a <= 0 -> LogExpMath._ln stack a = Err RangeError.
Proof.
  induction stack as [|stack IH]; intros a Ha; [reflexivity|].
  cbn [LogExpMath._ln].
  replace (a <? LogExpMath.ONE_18) with true
    by (symmetry; apply Z.ltb_lt; unfold LogExpMath.ONE_18; lia).
  unfold bigdiv. destruct (Z.eqb_spec a 0) as [E|E]; [reflexivity|].
  cbn [bind]. rewrite IH; [reflexivity|].
  rewrite <- (Z.opp_involutive a), Z.quot_opp_r by lia.
  assert (0 <= Z.quot (LogExpMath.ONE_18 * LogExpMath.ONE_18) (- a))
    by (apply Z.quot_pos; [discriminate | lia]).
  lia.
Qed.

Lemma ln_of_large (stack : nat) (a : Z) :
  LogExpMath.ONE_18 <= a ->
  LogExpMath._ln (S stack) a = LogExpMath.lnTail a.
Proof.
  intros Ha. cbn [LogExpMath._ln].
  replace (a <? LogExpMath.ONE_18) with false
    by (symmetry; apply Z.ltb_ge; assumption).
  reflexivity.
Qed.

Lemma ln_of_small (stack : nat) (a : Z) :
  0 < a < LogExpMath.ONE_18 ->
  exists l, LogExpMath._ln (S (S stack)) a = Ok l /\ l <= 0.
Proof.
  intros [Hlo Hhi].
  assert (Hq : LogExpMath.ONE_18
               <= Z.quot (LogExpMath.ONE_18 * LogExpMath.ONE_18) a).
  { rewrite Z.quot_div_nonneg by (unfold LogExpMath.ONE_18; lia).
    apply Z.div_le_lower_bound; [assumption|].
    unfold LogExpMath.ONE_18 in *. nia. }
  destruct (lnTail_nonneg _ Hq) as (l & Hl & Hl0).
  change (LogExpMath._ln (S (S stack)) a)
    with (if a <? LogExpMath.ONE_18
          then q <- bigdiv (LogExpMath.ONE_18 * LogExpMath.ONE_18) a ;;
               l' <- LogExpMath._ln (S stack) q ;;
               Ok (-1 * l')
          else LogExpMath.lnTail a).
  replace (a <? LogExpMath.ONE_18) with true
    by (symmetry; apply Z.ltb_lt; assumption).
  unfold bigdiv.
  replace (a =? 0) with false by (symmetry; apply Z.eqb_neq; lia).
  cbn [bind]. rewrite (ln_of_large stack _ Hq), Hl. cbn [bind].
  eexists. split; [reflexivity | lia].
Qed.

(** X7.  [_ln] returns exactly on positive arguments: with two stack
    frames it returns a non-negative value for [a >= ONE_18] and a
    non-positive value for [0 < a < ONE_18]; for [a <= 0] it never
    returns, whatever the depth of the stack (it divides by zero or
    recurses until the stack is exhausted). *)
Theorem ln_domain_and_sign (stack : nat) (a : Z) :
  (a <= 0 -> LogExpMath._ln stack a = Err RangeError) /\
  (LogExpMath.ONE_18 <= a ->
   exists l, LogExpMath._ln (S stack) a = Ok l /\ 0 <= l) /\
  (0 < a < LogExpMath.ONE_18 ->
   exists l, LogExpMath._ln (S (S stack)) a = Ok l /\ l <= 0).
Proof.
  split; [apply ln_nonpositive|]. split; [|apply ln_of_small].
  intros Ha. rewrite ln_of_large by assumption. apply lnTail_nonneg; assumption.
Qed.

Lemma ln_domain_and_sign_witness :
  LogExpMath._ln 50 (-5) = Err RangeError /\
  (exists l, LogExpMath._ln 2 2000000000000000000 = Ok l /\ 0 <= l) /\
  (exists l, LogExpMath._ln 2 500000000000000000 = Ok l /\ l <= 0).
Proof.
  split; [|split].
  - apply (ln_domain_and_sign 50 (-5)). lia.
  - apply (ln_domain_and_sign 1 2000000000000000000). discriminate.
  - apply (ln_domain_and_sign 0 500000000000000000).
    split; reflexivity.
Defined.

(** X8.  Outside its domain [pow] fails as follows, for a non-zero
    exponent [y]: a base of [2^255] or more gives [X_OUT_OF_BOUNDS]
    whatever [y] is; a non-zero base below [2^255] with
    [y >= MILD_EXPONENT_BOUND] gives [Y_OUT_OF_BOUNDS]; and a negative
    base with [y] below that bound is passed to [_ln], which never
    returns, so the call ends in a [RangeError]. *)
Theorem pow_outside_domain (stack : nat) (x y : Z) :
  y <> 0 ->
  (LogExpMath.X_BOUND <= x ->
   LogExpMath.pow stack x y = Err (Error X_OUT_OF_BOUNDS)) /\
  (x <> 0 -> x < LogExpMath.X_BOUND -> LogExpMath.MILD_EXPONENT_BOUND <= y ->
   LogExpMath.pow stack x y = Err (Error Y_OUT_OF_BOUNDS)) /\
  (x < 0 -> y < LogExpMath.MILD_EXPONENT_BOUND ->
   LogExpMath.pow stack x y = Err RangeError).
Proof.
  intros Hy. unfold LogExpMath.pow, BZERO.
  replace (y =? 0) with false by (symmetry; apply Z.eqb_neq; assumption).
  split; [|split].
  - intros Hx.
    replace (x =? 0) with false
      by (symmetry; apply Z.eqb_neq; unfold LogExpMath.X_BOUND in Hx; lia).
    replace (x <? LogExpMath.X_BOUND) with false
      by (symmetry; apply Z.ltb_ge; assumption).
    reflexivity.
  - intros Hx0 Hx Hy'.
    replace (x =? 0) with false by (symmetry; apply Z.eqb_neq; assumption).
    replace (x <? LogExpMath.X_BOUND) with true
      by (symmetry; apply Z.ltb_lt; assumption).
    replace (y <? LogExpMath.MILD_EXPONENT_BOUND) with false
      by (symmetry; apply Z.ltb_ge; assumption).
    reflexivity.
  - intros Hx Hy'.
    replace (x =? 0) with false by (symmetry; apply Z.eqb_neq; lia).
    replace (x <? LogExpMath.X_BOUND) with true
      by (symmetry; apply Z.ltb_lt; unfold LogExpMath.X_BOUND; lia).
    replace (y <? LogExpMath.MILD_EXPONENT_BOUND) with true
      by (symmetry; apply Z.ltb_lt; assumption).
    cbn [_require bind].
    replace (LogExpMath.LN_36_LOWER_BOUND <? x) with false
      by (symmetry; apply Z.ltb_ge;
          unfold LogExpMath.LN_36_LOWER_BOUND, LogExpMath.ONE_18; lia).
    cbn [andb]. rewrite ln_nonpositive by lia. reflexivity.
Qed.

Lemma pow_outside_domain_witness :
  LogExpMath.pow 9 (2 ^ 255) 1 = Err (Error X_OUT_OF_BOUNDS) /\
  LogExpMath.pow 9 2000000000000000000 (2 ^ 254)
  = Err (Error Y_OUT_OF_BOUNDS) /\
  LogExpMath.pow 9 (-2000000000000000000) 1000000000000000000
  = Err RangeError.
Proof.
  split; [|split].
  - apply (pow_outside_domain 9 (2 ^ 255) 1); [discriminate | discriminate].
  - apply (pow_outside_domain 9 2000000000000000000 (2 ^ 254));
      [discriminate | discriminate | reflexivity | discriminate].
  - apply (pow_outside_domain 9 (-2000000000000000000) 1000000000000000000);
      [discriminate | reflexivity | reflexivity].
Defined.

Lemma ln_36_returns (x : Z) :
  0 <= x -> exists l, LogExpMath._ln_36 x = Ok l.
Proof.
  intros Hx. unfold LogExpMath._ln_36, bigdiv.
  replace (x * LogExpMath.ONE_18 + LogExpMath.ONE_36 =? 0) with false.
  - cbn [bind]. cbv zeta.
    match goal with |- context [let '(_, s) := ?st in _] => destruct st end.
    eauto.
  - symmetry. apply Z.eqb_neq.
    unfold LogExpMath.ONE_18, LogExpMath.ONE_36. lia.
Qed.

Lemma ln_positive_returns (stack : nat) (x : Z) :
  0 < x -> exists l, LogExpMath._ln (S (S stack)) x = Ok l.
Proof.
  intros Hx. destruct (Z.lt_ge_cases x LogExpMath.ONE_18) as [Hlt|Hge].
  - destruct (ln_of_small stack x (conj Hx Hlt)) as (l & Hl & _). eauto.
  - rewrite ln_of_large by assumption.
    destruct (lnTail_nonneg x Hge) as (l & Hl & _). eauto.
Qed.

Lemma exp_in_bounds_returns (stack : nat) (x : Z) :
  LogExpMath.MIN_NATURAL_EXPONENT <= x <= LogExpMath.MAX_NATURAL_EXPONENT ->
  exists r, LogExpMath.exp (S (S stack)) x = Ok r.
Proof.
  intros [Hlo Hhi]. destruct (Z.lt_ge_cases x 0) as [Hneg|Hpos].
  - destruct (exp_of_negative stack x (conj Hlo Hneg)) as (r & Hr & _). eauto.
  - destruct (exp_of_nonneg (S stack) x (conj Hpos Hhi)) as [Hr _]. eauto.
Qed.

(** X9.  On its domain [pow] is defined up to the range of [exp]: for
    [0 < x < 2^255] and a non-zero [y < MILD_EXPONENT_BOUND], with two
    stack frames, [pow] either returns a non-negative value or fails
    with [PRODUCT_OUT_OF_BOUNDS]; no other error is raised. *)
Theorem pow_on_domain (stack : nat) (x y : Z) :
  0 < x < LogExpMath.X_BOUND ->
  y <> 0 -> y < LogExpMath.MILD_EXPONENT_BOUND ->
  (exists raw, LogExpMath.pow (S (S stack)) x y = Ok raw /\ 0 <= raw) \/
  LogExpMath.pow (S (S stack)) x y = Err (Error PRODUCT_OUT_OF_BOUNDS).
Proof.
  intros [Hx0 Hx] Hy0 Hy.
  destruct (LogExpMath.pow (S (S stack)) x y) as [raw|e] eqn:Hpow.
  { left. exists raw. split; [reflexivity|]. eapply pow_nonneg; eassumption. }
  right. revert Hpow. unfold LogExpMath.pow, BZERO.
  replace (y =? 0) with false by (symmetry; apply Z.eqb_neq; assumption).
  replace (x =? 0) with false by (symmetry; apply Z.eqb_neq; lia).
  replace (x <? LogExpMath.X_BOUND) with true
    by (symmetry; apply Z.ltb_lt; assumption).
  replace (y <? LogExpMath.MILD_EXPONENT_BOUND) with true
    by (symmetry; apply Z.ltb_lt; assumption).
  cbn [_require bind]. cbv zeta.
  assert (Hlog : exists l,
             (if (LogExpMath.LN_36_LOWER_BOUND <? x)
                 && (x <? LogExpMath.LN_36_UPPER_BOUND)
              then ln_36_x <- LogExpMath._ln_36 x ;;
                   Ok (Z.quot ln_36_x LogExpMath.ONE_18 * y
                       + Z.quot (Z.rem ln_36_x LogExpMath.ONE_18 * y)
                                LogExpMath.ONE_18)
              else l <- LogExpMath._ln (S (S stack)) x ;; Ok (l * y)) = Ok l).
  { destruct ((LogExpMath.LN_36_LOWER_BOUND <? x)
              && (x <? LogExpMath.LN_36_UPPER_BOUND)).
    - destruct (ln_36_returns x ltac:(lia)) as (l & ->). cbn [bind]. eauto.
    - destruct (ln_positive_returns stack x Hx0) as (l & ->). cbn [bind]. eauto. }
  destruct Hlog as (l & ->). cbn [bind].
  set (p := Z.quot l LogExpMath.ONE_18).
  destruct ((LogExpMath.MIN_NATURAL_EXPONENT <=? p)
            && (p <=? LogExpMath.MAX_NATURAL_EXPONENT)) eqn:Hb;
    cbn [_require bind].
  - apply andb_prop in Hb. destruct Hb as [Hlo Hhi].
    apply Z.leb_le in Hlo. apply Z.leb_le in Hhi.
    destruct (exp_in_bounds_returns stack p (conj Hlo Hhi)) as (r & ->).
    discriminate.
  - intros H. injection H as <-. reflexivity.
Qed.

Lemma pow_on_domain_witness :
  (exists raw,
      LogExpMath.pow 2 2000000000000000000 500000000000000000 = Ok raw /\
      0 <= raw) \/
  LogExpMath.pow 2 2000000000000000000 500000000000000000
  = Err (Error PRODUCT_OUT_OF_BOUNDS).
Proof.
  apply (pow_on_domain 0 2000000000000000000 500000000000000000);
    [split; reflexivity | discriminate | reflexivity].
Defined.

(** ** The solver on equal balances *)

Lemma sumBalances_repeat (b : Z) (n : nat) :
  sumBalances (repeat b n) = Z.of_nat n * b.
Proof.
  unfold sumBalances, BZERO.
  assert (H : forall acc, fold_left Z.add (repeat b n) acc = acc + Z.of_nat n * b).
  { induction n as [|n IH]; intros acc; [cbn; lia|].
    cbn [repeat fold_left]. rewrite IH. lia. }
  rewrite H. lia.
Qed.

Lemma roundDiv_square (D : Z) (roundUp : bool) :
  0 < D -> roundDiv (D * D) D roundUp = D.
Proof.
  intros HD. unfold roundDiv. destruct roundUp.
  - destruct (Z.eqb_spec (D * D) 0) as [E|_]; [nia|].
    rewrite Z.quot_div_nonneg by nia.
    rewrite <- (Z.div_unique (D * D - 1) D (D - 1) (D - 1)); lia.
  - apply Z.quot_mul. lia.
Qed.

Lemma P_D_value_equal (n b : Z) (roundUp : bool) (m : nat) :
  0 < n * b ->
  P_D_value n (n * b) roundUp (repeat b m) (n * b) = n * b.
Proof.
  intros HD. induction m as [|m IH]; [reflexivity|].
  cbn [repeat P_D_value].
  replace (n * b * b * n) with (n * b * (n * b)) by ring.
  rewrite roundDiv_square by assumption. exact IH.
Qed.

(** One update from [D = n * b] when all [n] balances are [b]. *)
Lemma equal_step_bounds (n a D : Z) (roundUp : bool) :
  1 <= n -> 1000 <= a -> 1 <= D ->
  let num := n * D * D + roundDiv (a * D * D) 1000 roundUp in
  let den := (n + 1) * D + roundDiv ((a - 1000) * D) 1000 (negb roundUp) in
  0 < den /\
  if roundUp then D <= roundDiv num den roundUp <= D + 1
  else D - 1 <= roundDiv num den roundUp <= D.
Proof.
  intros Hn Ha HD num den.
  assert (Hx : 0 <= a * D * D) by nia.
  assert (Hy : 0 <= (a - 1000) * D) by nia.
  pose proof (roundDiv_spec (a * D * D) 1000 roundUp Hx ltac:(lia)) as HX.
  pose proof (roundDiv_spec ((a - 1000) * D) 1000 (negb roundUp) Hy ltac:(lia))
    as HY.
  pose proof (roundDiv_nonneg (a * D * D) 1000 roundUp Hx ltac:(lia)) as HX0.
  pose proof (roundDiv_nonneg ((a - 1000) * D) 1000 (negb roundUp) Hy
                              ltac:(lia)) as HY0.
  set (X := roundDiv (a * D * D) 1000 roundUp) in *.
  set (Y := roundDiv ((a - 1000) * D) 1000 (negb roundUp)) in *.
  assert (Hden : 0 < den) by (subst den; nia).
  assert (Hnum : 0 <= num) by (subst num; nia).
  split; [assumption|].
  pose proof (roundDiv_spec num den roundUp Hnum Hden) as HQ.
  set (q := roundDiv num den roundUp) in *.
  destruct roundUp; cbn [negb] in *.
  - (* numerator rounded up, denominator's summand rounded down *)
    assert (H1 : D * den <= num).
    { subst num den. nia. }
    assert (H2 : num <= (D + 1) * den).
    { subst num den.
      assert (1000 * (X - (Y + D) * D) <= 999 * D + 999) by nia.
      nia. }
    split.
    + destruct (Z.lt_ge_cases q D) as [Hlt|Hge]; [|assumption].
      assert (q * den <= (D - 1) * den) by nia. nia.
    + destruct (Z.lt_ge_cases (D + 1) q) as [Hlt|Hge]; [|lia].
      assert ((D + 1) * den <= (q - 1) * den) by nia. nia.
  - (* numerator rounded down, denominator's summand rounded up *)
    assert (H1 : num <= D * den).
    { subst num den. nia. }
    assert (H2 : (D - 1) * den <= num).
    { subst num den.
      assert (1000 * ((Y + D) * D - X) <= 999 * D + 999 + 1000 * D) by nia.
      nia. }
    split.
    + destruct (Z.lt_ge_cases q (D - 1)) as [Hlt|Hge]; [|lia].
      assert ((q + 1) * den <= (D - 1) * den) by nia. nia.
    + destruct (Z.lt_ge_cases D q) as [Hlt|Hge]; [|lia].
      assert ((D + 1) * den <= q * den) by nia. nia.
Qed.

(** X10.  On [n >= 1] equal positive balances [b], with
    [amp * n >= AMP_PRECISION], the solver converges in its first
    iteration: it returns a value within one unit of the sum
    [S = n * b], not below [S] when rounding up and not above [S] when
    rounding down. *)
Theorem equal_balances_converge_at_once (amp b : Z) (n : nat) (roundUp : bool) :
  0 < b -> (0 < n)%nat -> AMP_PRECISION <= amp * Z.of_nat n ->
  exists D,
    _calculateInvariant amp (repeat b n) roundUp
    = Logged (iterationDirections roundUp n) (Ok D) /\
    if roundUp then Z.of_nat n * b <= D <= Z.of_nat n * b + 1
    else Z.of_nat n * b - 1 <= D <= Z.of_nat n * b.
Proof.
  intros Hb Hn Hamp.
  destruct n as [|m]; [lia|]. clear Hn.
  set (n := Z.of_nat (S m)) in *.
  assert (Hn : 1 <= n) by (subst n; lia).
  assert (HD : 1 <= n * b) by nia.
  unfold _calculateInvariant. rewrite sumBalances_repeat. fold n.
  unfold BZERO.
  replace (n * b =? 0) with false by (symmetry; apply Z.eqb_neq; lia).
  change (invariantLoop amp (repeat b (S m)) roundUp (n * b) 255 (n * b))
    with (lbind (nextInvariant amp (repeat b (S m)) roundUp (n * b) (n * b))
                (fun d' => if converged (n * b) d' then lret d'
                           else invariantLoop amp (repeat b (S m)) roundUp
                                              (n * b) 254 d')).
  cbn [repeat].
  rewrite (nextInvariant_run amp b (repeat b m) roundUp (n * b) (n * b))
    by (left; lia).
  cbv zeta.
  replace (Z.of_nat (List.length (b :: repeat b m))) with n
    by (subst n; cbn [List.length]; rewrite repeat_length; reflexivity).
  replace (List.length (b :: repeat b m)) with (S m)
    by (cbn [List.length]; rewrite repeat_length; reflexivity).
  replace (b * n) with (n * b) by ring.
  rewrite P_D_value_equal by lia.
  unfold AMP_PRECISION in *.
  destruct (equal_step_bounds n (amp * n) (n * b) roundUp Hn Hamp HD)
    as [Hden Hq].
  cbv zeta in Hden, Hq.
  set (num := n * (n * b) * (n * b)
              + roundDiv (amp * n * (n * b) * (n * b)) 1000 roundUp) in *.
  set (den := (n + 1) * (n * b)
              + roundDiv ((amp * n - 1000) * (n * b)) 1000 (negb roundUp)) in *.
  replace (den =? 0) with false by (symmetry; apply Z.eqb_neq; lia).
  set (q := roundDiv num den roundUp) in *.
  assert (Hconv : converged (n * b) q = true).
  { apply converged_close. destruct roundUp; lia. }
  exists q. split; [|exact Hq].
  apply logged_eq.
  - rewrite divLog_lbind. cbn [outcome divLog]. rewrite Hconv.
    cbn [lret divLog]. apply app_nil_r.
  - rewrite outcome_lbind. cbn [outcome]. rewrite Hconv. reflexivity.
Qed.

Lemma equal_balances_converge_at_once_witness :
  exists D,
    _calculateInvariant 100000 (repeat 1000000000000000000000000 3) true
    = Logged (iterationDirections true 3) (Ok D) /\
    3 * 1000000000000000000000000 <= D <= 3 * 1000000000000000000000000 + 1.
Proof.
  apply (equal_balances_converge_at_once 100000 1000000000000000000000000 3 true);
    [reflexivity | apply Nat.lt_0_succ | discriminate].
Defined.

(** ** Outcomes of the solver and of [bptSpotPrice] *)

Lemma sumBalances_nonneg (bs : list Z) :
  Forall (fun b => 0 <= b) bs -> 0 <= sumBalances bs.
Proof.
  unfold sumBalances, BZERO. intros H.
  assert (G : forall acc, 0 <= acc -> 0 <= fold_left Z.add bs acc).
  { induction H as [|b bs Hb _ IH]; intros acc Hacc; [assumption|].
    cbn [fold_left]. apply IH. lia. }
  apply G. lia.
Qed.

Lemma invariantLoop_outcomes (amp : Z) (bs : list Z) (roundUp : bool)
      (sum : Z) :
  bs <> [] -> Forall (fun b => 0 <= b) bs ->
  AMP_PRECISION <= amp * Z.of_nat (List.length bs) ->
  1 <= sum ->
  forall (budget : nat) (d : Z),
    1 <= d ->
    (exists D, outcome (invariantLoop amp bs roundUp sum budget d) = Ok D /\
               0 <= D) \/
    outcome (invariantLoop amp bs roundUp sum budget d)
    = Err (Error STABLE_INVARIANT_DIDNT_CONVERGE).
Proof.
  intros Hbs Hall Hamp Hsum budget.
  induction budget as [|budget IH]; intros d Hd; [right; reflexivity|].
  cbn [invariantLoop]. rewrite outcome_lbind.
  destruct (nextInvariant_positive amp bs roundUp sum d Hbs Hall Hamp Hsum Hd)
    as (d' & -> & Hd0 & Hd1).
  destruct (converged d d') eqn:Hconv.
  - left. exists d'. split; [reflexivity | assumption].
  - apply IH. apply converged_far in Hconv. lia.
Qed.

(** X11.  On non-negative balances with [amp * n >= AMP_PRECISION] the
    solver has two outcomes only: it returns a non-negative invariant,
    or it fails with [STABLE_INVARIANT_DIDNT_CONVERGE]. *)
Theorem calculateInvariant_outcomes (amp : Z) (bs : list Z) (roundUp : bool) :
  Forall (fun b => 0 <= b) bs ->
  AMP_PRECISION <= amp * Z.of_nat (List.length bs) ->
  (exists D, outcome (_calculateInvariant amp bs roundUp) = Ok D /\ 0 <= D) \/
  outcome (_calculateInvariant amp bs roundUp)
  = Err (Error STABLE_INVARIANT_DIDNT_CONVERGE).
Proof.
  intros Hall Hamp. unfold _calculateInvariant, BZERO.
  pose proof (sumBalances_nonneg bs Hall) as Hsum.
  destruct (Z.eqb_spec (sumBalances bs) 0) as [E|E].
  - left. exists 0. split; [reflexivity | lia].
  - apply invariantLoop_outcomes; try assumption; try lia.
    apply sumBalances_nonempty; assumption.
Qed.

Lemma calculateInvariant_outcomes_witness :
  (exists D,
      outcome (_calculateInvariant 5000 [3; 0; 8] false) = Ok D /\ 0 <= D) \/
  outcome (_calculateInvariant 5000 [3; 0; 8] false)
  = Err (Error STABLE_INVARIANT_DIDNT_CONVERGE).
Proof.
  apply (calculateInvariant_outcomes 5000 [3; 0; 8] false).
  - repeat constructor; discriminate.
  - discriminate.
Defined.

(** X12.  [bptSpotPrice] never returns a price for balances that sum to
    zero (an empty pool in particular): the invariant is then [0], and
    whatever the earlier divisions do, the final [divUpFixed] by the
    invariant fails. *)
Theorem bptSpotPrice_zero_sum (amp : Z) (balances : list Z) (bptSupply : Z)
        (tokenIndexIn : nat) :
  sumBalances balances = 0 ->
  forall price, bptSpotPrice amp balances bptSupply tokenIndexIn <> Ok price.
Proof.
  intros Hsum price H. unfold bptSpotPrice, _calculateInvariant in H.
  rewrite Hsum in H. cbn [BZERO Z.eqb lret outcome bind] in H.
  apply bind_Ok in H. destruct H as (D_P0 & _ & H).
  apply bind_Ok in H. destruct H as ([S' D_P] & _ & H).
  apply bind_Ok in H. destruct H as (x & _ & H).
  apply bind_Ok in H. destruct H as (q & _ & H).
  rewrite divUpFixed_outcome in H. discriminate H.
Qed.

Lemma bptSpotPrice_zero_sum_witness :
  bptSpotPrice 100000 [0; 0] 1000 0 <> Ok 0.
Proof. apply (bptSpotPrice_zero_sum 100000 [0; 0] 1000 0). reflexivity. Defined.

(** X13.  [calcPriceImpact] fails with [ZERO_DIVISION] when the
    zero-price-impact amount is [0]; for a positive one and a
    non-negative BPT amount it returns [ONE] minus the quotient rounded
    down, which lies in [0 .. ONE] when the BPT amount does not exceed
    the zero-price-impact amount, is [0] when the two are equal, and is
    not positive (it is not clamped) when the BPT amount is larger. *)
Theorem calcPriceImpact_range (bptAmount bptZeroPriceImpact : Z) :
  calcPriceImpact bptAmount 0 = Err (Error ZERO_DIVISION) /\
  (0 <= bptAmount -> 0 < bptZeroPriceImpact ->
   exists impact,
     calcPriceImpact bptAmount bptZeroPriceImpact = Ok impact /\
     impact = ONE - (bptAmount * ONE) / bptZeroPriceImpact /\
     (bptAmount <= bptZeroPriceImpact -> 0 <= impact <= ONE) /\
     (bptAmount = bptZeroPriceImpact -> impact = 0) /\
     (bptZeroPriceImpact <= bptAmount -> impact <= 0)).
Proof.
  split; [reflexivity|].
  intros Ha Hz. unfold calcPriceImpact.
  rewrite divDownFixed_Ok by lia. cbn [bind].
  assert (H1 : 0 < ONE) by reflexivity.
  set (d := if bptAmount =? 0 then 0 else Z.quot (bptAmount * ONE) bptZeroPriceImpact).
  assert (Hd : d = (bptAmount * ONE) / bptZeroPriceImpact).
  { subst d. destruct (Z.eqb_spec bptAmount 0) as [->|Hne].
    - rewrite Z.mul_0_l. symmetry. apply Z.div_0_l. lia.
    - apply Z.quot_div_nonneg; nia. }
  exists (ONE - d). split; [reflexivity|]. split; [rewrite Hd; reflexivity|].
  rewrite Hd.
  assert (Hq0 : 0 <= (bptAmount * ONE) / bptZeroPriceImpact)
    by (apply Z.div_pos; nia).
  split; [|split].
  - intros Hle.
    assert ((bptAmount * ONE) / bptZeroPriceImpact <= ONE)
      by (apply Z.div_le_upper_bound; nia).
    lia.
  - intros ->. rewrite Z.mul_comm, Z.div_mul by lia. lia.
  - intros Hge.
    assert (ONE <= (bptAmount * ONE) / bptZeroPriceImpact)
      by (apply Z.div_le_lower_bound; nia).
    lia.
Qed.

Lemma calcPriceImpact_range_witness :
  exists impact,
    calcPriceImpact 99 100 = Ok impact /\
    impact = ONE - (99 * ONE) / 100 /\
    (99 <= 100 -> 0 <= impact <= ONE) /\
    (99 = 100 -> impact = 0) /\
    (100 <= 99 -> impact <= 0).
Proof. apply (calcPriceImpact_range 99 100); lia. Defined.

(** * Further properties of the pool functions *)

(** ** Validation in the price-impact calculators *)

(** X14.  The stable, meta-stable and weighted [bptZeroPriceImpact]
    compare the number of token amounts with the length of the pool's
    token list before anything else: on a mismatch they fail with
    [INPUT_LENGTH_MISMATCH] whatever the pool holds, and the parser is
    not called. *)
Theorem bptZeroPriceImpact_length_mismatch (parseFixed : Parser) (pool : Pool)
        (tokenAmounts : list Z) :
  List.length tokenAmounts <> List.length (tokensList pool) ->
  StablePoolPriceImpact.bptZeroPriceImpact parseFixed pool tokenAmounts
  = Err (BalancerError INPUT_LENGTH_MISMATCH) /\
  MetaStablePoolPriceImpact.bptZeroPriceImpact parseFixed pool tokenAmounts
  = Err (BalancerError INPUT_LENGTH_MISMATCH) /\
  WeightedPoolPriceImpact.bptZeroPriceImpact parseFixed pool tokenAmounts
  = Err (BalancerError INPUT_LENGTH_MISMATCH).
Proof.
  intros Hne. apply Nat.eqb_neq in Hne.
  unfold StablePoolPriceImpact.bptZeroPriceImpact,
    MetaStablePoolPriceImpact.bptZeroPriceImpact,
    WeightedPoolPriceImpact.bptZeroPriceImpact.
  rewrite Hne. repeat split.
Qed.

Lemma bptZeroPriceImpact_length_mismatch_witness :
  StablePoolPriceImpact.bptZeroPriceImpact (fun _ _ => Err LibraryError)
    stableNoAmp [1]
  = Err (BalancerError INPUT_LENGTH_MISMATCH).
Proof.
  apply (bptZeroPriceImpact_length_mismatch (fun _ _ => Err LibraryError)
           stableNoAmp [1]).
  discriminate.
Defined.

Lemma mapM_orThrow_missing {A : Type} (code : BalancerErrorCode)
      (l : list (option Z)) :
  In None l -> mapM (orThrow code) l = Err (BalancerError code).
Proof.
  induction l as [|x l IH]; intros Hin; [contradiction|].
  cbn [mapM]. destruct x as [v|]; cbn [orThrow bind]; [|reflexivity].
  destruct Hin as [Hx|Hin]; [discriminate Hx|].
  rewrite (IH Hin). reflexivity.
Qed.

Lemma mapM_orThrow_present (code : BalancerErrorCode) (l : list (option Z)) :
  ~ In None l -> exists r, mapM (orThrow code) l = Ok r.
Proof.
  induction l as [|x l IH]; intros Hnot; [exists []; reflexivity|].
  cbn [mapM]. destruct x as [v|]; [|exfalso; apply Hnot; left; reflexivity].
  cbn [orThrow bind].
  destruct IH as (r & ->); [intros H; apply Hnot; right; assumption|].
  cbn [bind]. eauto.
Qed.

Lemma missing_decimals_parsed (parseFixed : Parser) (pool : Pool)
      (info : PoolInfo) :
  parsePoolInfo parseFixed pool = Ok info ->
  Exists (fun token => truthyNumber (decimals token) = None) (tokens pool) ->
  In None (parsedDecimals info).
Proof.
  intros Hinfo Hex. apply parsePoolInfo_inv in Hinfo.
  destruct Hinfo as (-> & _ & _).
  apply Exists_exists in Hex. destruct Hex as (t & Hin & Ht).
  rewrite <- Ht. apply (in_map (fun token => truthyNumber (decimals token))).
  assumption.
Qed.

(** X15.  In the stable, meta-stable and phantom-stable
    [bptZeroPriceImpact], once the length test passes and the pool's
    numbers parse, a single token without decimals makes the call fail
    with [MISSING_DECIMALS], wherever the token stands and whatever else
    is missing; a token whose [decimals] is the number [0] counts as
    having none. *)
Theorem bptZeroPriceImpact_missing_decimals (parseFixed : Parser) (pool : Pool)
        (tokenAmounts : list Z) (info : PoolInfo) :
  parsePoolInfo parseFixed pool = Ok info ->
  Exists (fun token => decimals token = None \/ decimals token = Some 0)
         (tokens pool) ->
  (List.length tokenAmounts = List.length (tokensList pool) ->
   StablePoolPriceImpact.bptZeroPriceImpact parseFixed pool tokenAmounts
   = Err (BalancerError MISSING_DECIMALS) /\
   MetaStablePoolPriceImpact.bptZeroPriceImpact parseFixed pool tokenAmounts
   = Err (BalancerError MISSING_DECIMALS)) /\
  (Z.of_nat (List.length tokenAmounts)
   = Z.of_nat (List.length (tokensList pool)) - 1 ->
   StablePhantomPriceImpact.bptZeroPriceImpact parseFixed pool tokenAmounts
   = Err (BalancerError MISSING_DECIMALS)).
Proof.
  intros Hinfo Hex.
  assert (Hnone : In None (parsedDecimals info)).
  { apply (missing_decimals_parsed parseFixed pool); [assumption|].
    eapply Exists_impl; [|exact Hex].
    intros t [Ht|Ht]; unfold truthyNumber; rewrite Ht; reflexivity. }
  pose proof (mapM_orThrow_missing (A := Z) MISSING_DECIMALS _ Hnone) as Hds.
  split.
  - intros Hlen.
    unfold StablePoolPriceImpact.bptZeroPriceImpact,
      MetaStablePoolPriceImpact.bptZeroPriceImpact.
    rewrite Hlen, Nat.eqb_refl. cbn [negb].
    rewrite Hinfo. cbn [bind]. rewrite Hds. split; reflexivity.
  - intros Hlen.
    unfold StablePhantomPriceImpact.bptZeroPriceImpact,
      StablePhantomPriceImpact.prepare.
    rewrite Hlen, Z.eqb_refl. cbn [negb].
    rewrite Hinfo. cbn [bind]. rewrite Hds. reflexivity.
Qed.

Lemma bptZeroPriceImpact_missing_decimals_witness :
  StablePoolPriceImpact.bptZeroPriceImpact parseFixedDigits incompletePool
    [1; 1; 1]
  = Err (BalancerError MISSING_DECIMALS) /\
  StablePhantomPriceImpact.bptZeroPriceImpact parseFixedDigits incompletePool
    [1; 1]
  = Err (BalancerError MISSING_DECIMALS).
Proof.
  destruct (parsePoolInfo parseFixedDigits incompletePool) as [info|e] eqn:Hinfo;
    [|vm_compute in Hinfo; discriminate Hinfo].
  assert (Hex : Exists (fun token => decimals token = None
                                     \/ decimals token = Some 0)
                       (tokens incompletePool)).
  { apply Exists_cons_tl, Exists_cons_hd. right. reflexivity. }
  split.
  - apply (bptZeroPriceImpact_missing_decimals parseFixedDigits incompletePool
             [1; 1; 1] info Hinfo Hex).
    reflexivity.
  - apply (bptZeroPriceImpact_missing_decimals parseFixedDigits incompletePool
             [1; 1] info Hinfo Hex).
    reflexivity.
Defined.

Lemma parsePoolInfo_rates (parseFixed : Parser) (pool : Pool) (info : PoolInfo) :
  parsePoolInfo parseFixed pool = Ok info ->
  mapM (fun token => parseOptional parseFixed 18 (priceRate token)) (tokens pool)
  = Ok (parsedPriceRates info) /\
  mapM (fun token => parseOptional parseFixed 18 (weight token)) (tokens pool)
  = Ok (parsedWeights info) /\
  parseFixed (totalShares pool) (Some 18) = Ok (parsedTotalShares info).
Proof.
  unfold parsePoolInfo. intros H.
  apply bind_Ok in H. destruct H as (bals & _ & H).
  apply bind_Ok in H. destruct H as (ws & Hws & H).
  apply bind_Ok in H. destruct H as (rates & Hrates & H).
  apply bind_Ok in H. destruct H as (a & _ & H).
  apply bind_Ok in H. destruct H as (ts & Hts & H).
  apply bind_Ok in H. destruct H as (fee & _ & H).
  injection H as <-. cbn [parsedPriceRates parsedWeights parsedTotalShares].
  repeat split; assumption.
Qed.

Lemma present_decimals_parsed (parseFixed : Parser) (pool : Pool)
      (info : PoolInfo) :
  parsePoolInfo parseFixed pool = Ok info ->
  Forall (fun token => truthyNumber (decimals token) <> None) (tokens pool) ->
  ~ In None (parsedDecimals info).
Proof.
  intros Hinfo Hall Hin. apply parsePoolInfo_inv in Hinfo.
  destruct Hinfo as (Hd & _ & _). rewrite Hd in Hin.
  apply in_map_iff in Hin. destruct Hin as (t & Ht & Hin).
  rewrite Forall_forall in Hall. apply (Hall t Hin). assumption.
Qed.

Lemma missing_rate_parsed (parseFixed : Parser) (pool : Pool)
      (info : PoolInfo) :
  parsePoolInfo parseFixed pool = Ok info ->
  Exists (fun token => truthyString (priceRate token) = None) (tokens pool) ->
  In None (parsedPriceRates info).
Proof.
  intros Hinfo Hex. apply parsePoolInfo_rates in Hinfo.
  destruct Hinfo as (Hrates & _ & _).
  apply mapM_nth in Hrates. destruct Hrates as [_ Hnth].
  apply Exists_exists in Hex. destruct Hex as (t & Hin & Ht).
  apply In_nth_error in Hin. destruct Hin as (j & Hj).
  destruct (Hnth j t Hj) as (b & Hb & Hbj).
  unfold parseOptional in Hb. rewrite Ht in Hb. injection Hb as <-.
  eapply nth_error_In; eassumption.
Qed.

(** X16.  In the meta-stable and phantom-stable [bptZeroPriceImpact],
    once the length test passes, the pool's numbers parse and every
    token has decimals, a single token without a price rate (absent or
    the empty string) makes the call fail with [MISSING_PRICE_RATE]. *)
Theorem bptZeroPriceImpact_missing_price_rate (parseFixed : Parser)
        (pool : Pool) (tokenAmounts : list Z) (info : PoolInfo) :
  parsePoolInfo parseFixed pool = Ok info ->
  Forall (fun token => truthyNumber (decimals token) <> None) (tokens pool) ->
  Exists (fun token => truthyString (priceRate token) = None) (tokens pool) ->
  (List.length tokenAmounts = List.length (tokensList pool) ->
   MetaStablePoolPriceImpact.bptZeroPriceImpact parseFixed pool tokenAmounts
   = Err (BalancerError MISSING_PRICE_RATE)) /\
  (Z.of_nat (List.length tokenAmounts)
   = Z.of_nat (List.length (tokensList pool)) - 1 ->
   StablePhantomPriceImpact.bptZeroPriceImpact parseFixed pool tokenAmounts
   = Err (BalancerError MISSING_PRICE_RATE)).
Proof.
  intros Hinfo Hall Hex.
  destruct (mapM_orThrow_present MISSING_DECIMALS (parsedDecimals info)
              (present_decimals_parsed _ _ _ Hinfo Hall)) as (ds & Hds).
  pose proof (mapM_orThrow_missing (A := Z) MISSING_PRICE_RATE _
                (missing_rate_parsed _ _ _ Hinfo Hex)) as Hrates.
  split; intros Hlen.
  - unfold MetaStablePoolPriceImpact.bptZeroPriceImpact.
    rewrite Hlen, Nat.eqb_refl. cbn [negb].
    rewrite Hinfo. cbn [bind]. rewrite Hds. cbn [bind]. rewrite Hrates.
    reflexivity.
  - unfold StablePhantomPriceImpact.bptZeroPriceImpact,
      StablePhantomPriceImpact.prepare.
    rewrite Hlen, Z.eqb_refl. cbn [negb].
    rewrite Hinfo. cbn [bind]. rewrite Hds. cbn [bind]. rewrite Hrates.
    reflexivity.
Qed.

Lemma bptZeroPriceImpact_missing_price_rate_witness :
  MetaStablePoolPriceImpact.bptZeroPriceImpact parseFixedDigits rateLessPool
    [1; 1; 1]
  = Err (BalancerError MISSING_PRICE_RATE) /\
  StablePhantomPriceImpact.bptZeroPriceImpact parseFixedDigits rateLessPool
    [1; 1]
  = Err (BalancerError MISSING_PRICE_RATE).
Proof.
  destruct (parsePoolInfo parseFixedDigits rateLessPool) as [info|e] eqn:Hinfo;
    [|vm_compute in Hinfo; discriminate Hinfo].
  assert (Hall : Forall (fun token => truthyNumber (decimals token) <> None)
                        (tokens rateLessPool))
    by (repeat constructor; discriminate).
  assert (Hex : Exists (fun token => truthyString (priceRate token) = None)
                       (tokens rateLessPool)).
  { apply Exists_cons_tl, Exists_cons_tl, Exists_cons_hd. reflexivity. }
  split.
  - apply (bptZeroPriceImpact_missing_price_rate parseFixedDigits rateLessPool
             [1; 1; 1] info Hinfo Hall Hex).
    reflexivity.
  - apply (bptZeroPriceImpact_missing_price_rate parseFixedDigits rateLessPool
             [1; 1] info Hinfo Hall Hex).
    reflexivity.
Defined.

(** ** A deposit of nothing *)

Ltac peel H :=
  repeat (cbv beta in H;
          let a := fresh "a" in
          let Ha := fresh "Ha" in
          apply bind_Ok in H; destruct H as (a & Ha & H)).

Lemma sumTerms_zero (newTerm : nat -> res Z) (idx : list nat) :
  (forall i t, newTerm i = Ok t -> t = 0) ->
  forall acc v, sumTerms newTerm idx acc = Ok v -> v = acc.
Proof.
  intros Hterm. induction idx as [|i idx IH]; intros acc v H.
  - injection H as <-. reflexivity.
  - cbn [sumTerms] in H. apply bind_Ok in H. destruct H as (t & Ht & H).
    apply Hterm in Ht. subst t. apply IH in H. lia.
Qed.

Lemma zero_amount_term (tokenAmounts : list Z) (i : nat) (price sf : Z)
      (t : Z) :
  Forall (fun a => a = 0) tokenAmounts ->
  (amount <- at_index tokenAmounts i ;;
   amountUpscaled <- _upscale amount sf ;;
   Ok (Z.quot (price * amountUpscaled) ONE)) = Ok t ->
  t = 0.
Proof.
  intros Hzero H.
  apply bind_Ok in H. destruct H as (amount & Ham & H).
  apply at_index_Ok, nth_error_In in Ham.
  rewrite Forall_forall in Hzero. apply Hzero in Ham. subst amount.
  unfold _upscale in H. rewrite mulDownFixed_Ok in H. cbn [bind] in H.
  rewrite Z.mul_0_l in H. replace (Z.quot 0 ONE) with 0 in H by reflexivity.
  rewrite Z.mul_0_r in H. injection H as <-. reflexivity.
Qed.

Lemma stable_zero_amounts (parseFixed : Parser) (pool : Pool)
      (tokenAmounts : list Z) (v : Z) :
  Forall (fun a => a = 0) tokenAmounts ->
  StablePoolPriceImpact.bptZeroPriceImpact parseFixed pool tokenAmounts = Ok v ->
  v = 0.
Proof.
  intros Hzero H. unfold StablePoolPriceImpact.bptZeroPriceImpact in H.
  destruct (negb _); [discriminate H|].
  peel H. apply sumTerms_zero in H; [assumption|].
  intros i t Ht. peel Ht.
  eapply (zero_amount_term tokenAmounts i); [eassumption|].
  match goal with
  | Hat : at_index tokenAmounts i = Ok ?am, Hup : _upscale ?am ?sf = Ok ?up
    |- _ => rewrite Hat; cbn [bind]; rewrite Hup; cbn [bind]; exact Ht
  end.
Qed.

Lemma weighted_zero_amounts (parseFixed : Parser) (pool : Pool)
      (tokenAmounts : list Z) (v : Z) :
  Forall (fun a => a = 0) tokenAmounts ->
  WeightedPoolPriceImpact.bptZeroPriceImpact parseFixed pool tokenAmounts = Ok v ->
  v = 0.
Proof.
  intros Hzero H. unfold WeightedPoolPriceImpact.bptZeroPriceImpact in H.
  destruct (negb _); [discriminate H|].
  peel H. apply sumTerms_zero in H; [assumption|].
  intros i t Ht. peel Ht.
  eapply (zero_amount_term tokenAmounts i); [eassumption|].
  match goal with
  | Hat : at_index tokenAmounts i = Ok ?am, Hup : _upscale ?am ?sf = Ok ?up
    |- _ => rewrite Hat; cbn [bind]; rewrite Hup; cbn [bind]; exact Ht
  end.
Qed.

Lemma metaStable_zero_amounts (parseFixed : Parser) (pool : Pool)
      (tokenAmounts : list Z) (v : Z) :
  Forall (fun a => a = 0) tokenAmounts ->
  MetaStablePoolPriceImpact.bptZeroPriceImpact parseFixed pool tokenAmounts
  = Ok v ->
  v = 0.
Proof.
  intros Hzero H. unfold MetaStablePoolPriceImpact.bptZeroPriceImpact in H.
  destruct (negb _); [discriminate H|].
  peel H. apply sumTerms_zero in H; [assumption|].
  intros i t Ht. peel Ht.
  eapply (zero_amount_term tokenAmounts i); [eassumption|].
  match goal with
  | Hat : at_index tokenAmounts i = Ok ?am, Hup : _upscale ?am ?sf = Ok ?up
    |- _ => rewrite Hat; cbn [bind]; rewrite Hup; cbn [bind]; exact Ht
  end.
Qed.

Lemma phantom_zero_amounts (parseFixed : Parser) (pool : Pool)
      (tokenAmounts : list Z) (v : Z) :
  Forall (fun a => a = 0) tokenAmounts ->
  StablePhantomPriceImpact.bptZeroPriceImpact parseFixed pool tokenAmounts
  = Ok v ->
  v = 0.
Proof.
  intros Hzero H. unfold StablePhantomPriceImpact.bptZeroPriceImpact in H.
  apply bind_Ok in H. destruct H as (p & _ & H).
  unfold StablePhantomPriceImpact.accumulate in H.
  apply sumTerms_zero in H; [assumption|].
  intros i t Ht. peel Ht.
  eapply (zero_amount_term tokenAmounts i); [eassumption|].
  match goal with
  | Hat : at_index tokenAmounts i = Ok ?am, Hup : _upscale ?am ?sf = Ok ?up
    |- _ => rewrite Hat; cbn [bind]; rewrite Hup; cbn [bind]; exact Ht
  end.
Qed.

Lemma calcPriceImpactWith_zero
      (f : Parser -> Pool -> list Z -> res Z) (parseFixed : Parser)
      (pool : Pool) (tokenAmounts : list Z) (bptAmount impact : Z) :
  (forall v, f parseFixed pool tokenAmounts = Ok v -> v = 0) ->
  calcPriceImpactWith f parseFixed pool tokenAmounts bptAmount <> Ok impact.
Proof.
  intros Hzero H. unfold calcPriceImpactWith in H.
  apply bind_Ok in H. destruct H as (z & Hz & H).
  apply Hzero in Hz. subst z. discriminate H.
Qed.

(** X17.  When every token amount is zero, each of the four
    [bptZeroPriceImpact] calculators that returns returns [0]; the
    [calcPriceImpact] methods built on them then divide by that zero, so
    they never return a price impact for a deposit of nothing. *)
Theorem zero_amounts (parseFixed : Parser) (pool : Pool)
        (tokenAmounts : list Z) :
  Forall (fun a => a = 0) tokenAmounts ->
  (forall v,
      (StablePoolPriceImpact.bptZeroPriceImpact parseFixed pool tokenAmounts
       = Ok v -> v = 0) /\
      (WeightedPoolPriceImpact.bptZeroPriceImpact parseFixed pool tokenAmounts
       = Ok v -> v = 0) /\
      (MetaStablePoolPriceImpact.bptZeroPriceImpact parseFixed pool tokenAmounts
       = Ok v -> v = 0) /\
      (StablePhantomPriceImpact.bptZeroPriceImpact parseFixed pool tokenAmounts
       = Ok v -> v = 0)) /\
  (forall bptAmount impact,
      StablePoolPriceImpactMethods.calcPriceImpact
        parseFixed pool tokenAmounts bptAmount <> Ok impact /\
      WeightedPoolPriceImpactMethods.calcPriceImpact
        parseFixed pool tokenAmounts bptAmount <> Ok impact /\
      MetaStablePoolPriceImpactMethods.calcPriceImpact
        parseFixed pool tokenAmounts bptAmount <> Ok impact /\
      StablePhantomPriceImpactMethods.calcPriceImpact
        parseFixed pool tokenAmounts bptAmount <> Ok impact).
Proof.
  intros Hzero. split.
  - intros v. repeat split.
    + apply stable_zero_amounts; assumption.
    + apply weighted_zero_amounts; assumption.
    + apply metaStable_zero_amounts; assumption.
    + apply phantom_zero_amounts; assumption.
  - intros bptAmount impact. repeat split.
    + apply calcPriceImpactWith_zero. intros v.
      apply stable_zero_amounts; assumption.
    + apply calcPriceImpactWith_zero. intros v.
      apply weighted_zero_amounts; assumption.
    + apply calcPriceImpactWith_zero. intros v.
      apply metaStable_zero_amounts; assumption.
    + apply calcPriceImpactWith_zero. intros v.
      apply phantom_zero_amounts; assumption.
Qed.

Lemma zero_amounts_witness :
  StablePhantomPriceImpact.bptZeroPriceImpact parseFixedDigits phantomPool [0; 0]
  = Ok 0 /\
  StablePhantomPriceImpactMethods.calcPriceImpact parseFixedDigits phantomPool
    [0; 0] 5
  = Err (Error ZERO_DIVISION).
Proof.
  assert (Hzero : Forall (fun a => a = 0) [0; 0]) by (repeat constructor).
  destruct (zero_amounts parseFixedDigits phantomPool [0; 0] Hzero) as [Hv Hc].
  destruct (StablePhantomPriceImpact.bptZeroPriceImpact
              parseFixedDigits phantomPool [0; 0]) as [v|e] eqn:Hz;
    [|vm_compute in Hz; discriminate Hz].
  destruct (Hv v) as (_ & _ & _ & Hp). rewrite (Hp eq_refl).
  split; [reflexivity|]. vm_compute. reflexivity.
Defined.

(** ** Phantom-stable pools: what the price rates are applied to *)

Lemma upscaled_all (parseFixed : Parser) (pool : Pool) (info : PoolInfo)
      (ds sfs all : list Z) :
  parsePoolInfo parseFixed pool = Ok info ->
  mapM (orThrow MISSING_DECIMALS) (parsedDecimals info) = Ok ds ->
  mapM _computeScalingFactor ds = Ok sfs ->
  upscaleAll (parsedBalances info) sfs = Ok all ->
  List.length all = List.length (tokens pool) /\
  forall j t, nth_error (tokens pool) j = Some t ->
              exists b, nth_error all j = Some b /\
                        upscaledBalance parseFixed t b.
Proof.
  intros Hinfo Hds Hsfs Hall.
  apply parsePoolInfo_inv in Hinfo. destruct Hinfo as (Hdecs & Hbals & _).
  apply mapM_nth in Hbals. destruct Hbals as [Lbals Nbals].
  apply mapM_nth in Hds. destruct Hds as [Lds Nds].
  apply mapM_nth in Hsfs. destruct Hsfs as [Lsfs Nsfs].
  unfold upscaleAll in Hall.
  apply mapiM_nth in Hall. destruct Hall as [Lall Nall].
  split; [lia|].
  intros j t Hj.
  destruct (Nbals j t Hj) as (raw & Hraw & Hrawj).
  destruct (Nall j raw Hrawj) as (b & Hb & Hbj).
  cbn [Nat.add] in Hb.
  apply bind_Ok in Hb. destruct Hb as (sf & Hsf & Hb).
  apply at_index_Ok in Hsf.
  assert (Hdj : nth_error (parsedDecimals info) j
                = Some (truthyNumber (decimals t))).
  { rewrite Hdecs, nth_error_map, Hj. reflexivity. }
  destruct (Nds j _ Hdj) as (d & Hd & Hdsj).
  destruct (Nsfs j d Hdsj) as (sf' & Hsf' & Hsfj).
  assert (sf' = sf) by congruence. subst sf'.
  exists b. split; [assumption|].
  exists raw, d, sf. repeat split; try assumption.
  unfold orThrow in Hd. destruct (truthyNumber (decimals t));
    [injection Hd as ->; reflexivity | discriminate Hd].
Qed.

Lemma parsed_rates (parseFixed : Parser) (pool : Pool) (info : PoolInfo)
      (rates : list Z) :
  parsePoolInfo parseFixed pool = Ok info ->
  mapM (orThrow MISSING_PRICE_RATE) (parsedPriceRates info) = Ok rates ->
  forall j t, nth_error (tokens pool) j = Some t ->
              exists r, parseOptional parseFixed 18 (priceRate t) = Ok (Some r) /\
                        nth_error rates j = Some r.
Proof.
  intros Hinfo Hrates j t Hj.
  apply parsePoolInfo_rates in Hinfo. destruct Hinfo as (Hparsed & _ & _).
  apply mapM_nth in Hparsed. destruct Hparsed as [_ Nparsed].
  apply mapM_nth in Hrates. destruct Hrates as [_ Nrates].
  destruct (Nparsed j t Hj) as (x & Hx & Hxj).
  destruct (Nrates j x Hxj) as (r & Hr & Hrj).
  exists r. split; [|assumption].
  destruct x as [v|]; [|discriminate Hr].
  injection Hr as <-. assumption.
Qed.

Lemma scaled_nth (balances rates scaled : list Z) :
  scaleAll balances rates = Ok scaled ->
  forall j b, nth_error balances j = Some b ->
              exists r, nth_error rates j = Some r /\
                        nth_error scaled j = Some (Z.quot (b * r) ONE).
Proof.
  intros H j b Hb. unfold scaleAll in H.
  apply mapiM_nth in H. destruct H as [_ Hnth].
  destruct (Hnth j b Hb) as (s & Hs & Hsj). cbn [Nat.add] in Hs.
  apply bind_Ok in Hs. destruct Hs as (r & Hr & Hs).
  apply at_index_Ok in Hr. rewrite mulDownFixed_Ok in Hs.
  injection Hs as <-. eauto.
Qed.

(** X18.  The phantom-stable calculator removes the pool's own token
    from the balances but not from the price rates.  With the pool's
    address at index [i] of the token list, the scaled balance passed to
    [bptSpotPrice] at a position [j < i] is the balance of token [j]
    times the price rate of token [j], whereas at a position [j >= i] it
    is the balance of token [j + 1] times the price rate of token
    [j]. *)
Theorem phantom_price_rates_positions (parseFixed : Parser) (pool : Pool)
        (tokenAmounts : list Z) (p : StablePhantomPriceImpact.Prepared)
        (i : nat) :
  StablePhantomPriceImpact.prepare parseFixed pool tokenAmounts = Ok p ->
  findIndex (pool_address pool) (tokensList pool) 0 = Z.of_nat i ->
  (forall j t,
      (j < i)%nat -> nth_error (tokens pool) j = Some t ->
      exists b r,
        upscaledBalance parseFixed t b /\
        parseOptional parseFixed 18 (priceRate t) = Ok (Some r) /\
        nth_error (StablePhantomPriceImpact.p_balancesScaled p) j
        = Some (Z.quot (b * r) ONE)) /\
  (forall j t t',
      (i <= j)%nat ->
      nth_error (tokens pool) j = Some t ->
      nth_error (tokens pool) (S j) = Some t' ->
      exists b' r,
        upscaledBalance parseFixed t' b' /\
        parseOptional parseFixed 18 (priceRate t) = Ok (Some r) /\
        nth_error (StablePhantomPriceImpact.p_balancesScaled p) j
        = Some (Z.quot (b' * r) ONE)).
Proof.
  intros Hp Hi.
  unfold StablePhantomPriceImpact.prepare in Hp.
  destruct (negb (Z.of_nat (List.length tokenAmounts)
                  =? Z.of_nat (List.length (tokensList pool)) - 1));
    [discriminate Hp|].
  apply bind_Ok in Hp. destruct Hp as (info & Hinfo & Hp).
  apply bind_Ok in Hp. destruct Hp as (ds & Hds & Hp).
  apply bind_Ok in Hp. destruct Hp as (rates & Hrates & Hp).
  apply bind_Ok in Hp. destruct Hp as (a & Ha & Hp).
  apply bind_Ok in Hp. destruct Hp as (sfs & Hsfs & Hp).
  apply bind_Ok in Hp. destruct Hp as (all & Hall & Hp).
  destruct (negb (Nat.eqb _ _)); [discriminate Hp|].
  apply bind_Ok in Hp. destruct Hp as (scaled & Hscaled & Hp).
  injection Hp as <-. cbn [StablePhantomPriceImpact.p_balancesScaled].
  rewrite Hi, splice1_nat in Hscaled.
  destruct (upscaled_all _ _ _ _ _ _ Hinfo Hds Hsfs Hall) as [Lall Nall].
  pose proof (parsed_rates _ _ _ _ Hinfo Hrates) as Nrates.
  pose proof (scaled_nth _ _ _ Hscaled) as Nscaled.
  split.
  - intros j t Hj Ht.
    destruct (Nall j t Ht) as (b & Hb & Hup).
    destruct (Nrates j t Ht) as (r & Hr & Hrj).
    assert (Hbj : nth_error (firstn i all ++ skipn (S i) all) j = Some b).
    { rewrite nth_error_app1.
      - rewrite nth_error_firstn.
        replace (j <? i)%nat with true by (symmetry; apply Nat.ltb_lt; lia).
        assumption.
      - rewrite length_firstn.
        assert (j < List.length all)%nat
          by (apply nth_error_Some; congruence).
        lia. }
    destruct (Nscaled j b Hbj) as (r' & Hr' & Hs).
    assert (r' = r) by congruence. subst r'.
    exists b, r. repeat split; assumption.
  - intros j t t' Hj Ht Ht'.
    destruct (Nall (S j) t' Ht') as (b' & Hb' & Hup).
    destruct (Nrates j t Ht) as (r & Hr & Hrj).
    assert (HSj : (S j < List.length all)%nat)
      by (apply nth_error_Some; congruence).
    assert (Hbj : nth_error (firstn i all ++ skipn (S i) all) j = Some b').
    { rewrite nth_error_app2 by (rewrite length_firstn; lia).
      rewrite length_firstn, nth_error_skipn.
      replace (S i + (j - Nat.min i (List.length all)))%nat with (S j) by lia.
      assumption. }
    destruct (Nscaled j b' Hbj) as (r' & Hr' & Hs).
    assert (r' = r) by congruence. subst r'.
    exists b', r. repeat split; assumption.
Qed.

Lemma phantom_price_rates_positions_witness :
  exists p,
    StablePhantomPriceImpact.prepare parseFixedDigits bptFirstPool [1; 1] = Ok p /\
    StablePhantomPriceImpact.p_priceRates p
    = [1000000000000000000; 2000000000000000000; 3000000000000000000] /\
    StablePhantomPriceImpact.p_balances p
    = [1000000000000000000000; 1000000000000000000000] /\
    StablePhantomPriceImpact.p_balancesScaled p
    = [1000000000000000000000; 2000000000000000000000] /\
    exists b' r,
      upscaledBalance parseFixedDigits
        (sampleToken "0xa"%string (Some "2"%string)) b' /\
      parseOptional parseFixedDigits 18 (Some "1"%string) = Ok (Some r) /\
      nth_error (StablePhantomPriceImpact.p_balancesScaled p) 0
      = Some (Z.quot (b' * r) ONE).
Proof.
  destruct (StablePhantomPriceImpact.prepare parseFixedDigits bptFirstPool [1; 1])
    as [p|e] eqn:Hp; [|vm_compute in Hp; discriminate Hp].
  exists p. split; [reflexivity|].
  destruct (phantom_price_rates_positions parseFixedDigits bptFirstPool [1; 1]
              p 0 Hp eq_refl) as [_ Hshift].
  specialize (Hshift 0%nat _ _ (Nat.le_refl 0) eq_refl eq_refl).
  vm_compute in Hp. injection Hp as <-.
  repeat split; try reflexivity. exact Hshift.
Defined.

(** ** A missing [amp] in the join builders and in the calculators *)

Lemma existsb_absent_decimals (pool : Pool) :
  Forall (fun token => truthyNumber (decimals token) <> None) (tokens pool) ->
  existsb (fun token => isAbsent (truthyNumber (decimals token))) (tokens pool)
  = false.
Proof.
  intros Hall. induction Hall as [|t ts Ht _ IH]; [reflexivity|].
  cbn [existsb]. rewrite IH.
  destruct (truthyNumber (decimals t)); [reflexivity | congruence].
Qed.

Lemma mapM_orThrow_Err (code : BalancerErrorCode) (l : list (option Z))
      (e : exn) :
  mapM (orThrow code) l = Err e -> e = BalancerError code.
Proof.
  induction l as [|x l IH]; cbn [mapM]; intros H; [discriminate H|].
  destruct x as [v|]; cbn [orThrow bind] in H.
  - destruct (mapM (orThrow code) l) as [r|e']; cbn [bind] in H;
      [discriminate H|].
    injection H as <-. apply IH. reflexivity.
  - injection H as <-. reflexivity.
Qed.

(** X19.  A stable or meta-stable pool without [amp] (absent or the
    empty string) whose tokens all have decimals is rejected with two
    different codes: the join builders fail with [MISSING_AMP], before
    the price rates are looked at and before anything is parsed or
    computed, whereas the price-impact calculators of the same two
    families fail with [MISSING_PRICE_RATE]. *)
Theorem missing_amp_join_and_price_impact {A : Type} (rest : res A)
        (parseFixed : Parser) (pool : Pool) (tokensIn amountsIn : list string)
        (tokenAmounts : list Z) (info : PoolInfo) :
  List.length tokensIn = List.length amountsIn ->
  List.length tokensIn = List.length (tokensList pool) ->
  List.length tokenAmounts = List.length (tokensList pool) ->
  Forall (fun token => truthyNumber (decimals token) <> None) (tokens pool) ->
  truthyString (amp pool) = None ->
  parsePoolInfo parseFixed pool = Ok info ->
  StablePoolJoin.buildJoin rest pool tokensIn amountsIn
  = Err (BalancerError MISSING_AMP) /\
  MetaStablePoolJoin.buildJoin rest pool tokensIn amountsIn
  = Err (BalancerError MISSING_AMP) /\
  StablePoolPriceImpact.bptZeroPriceImpact parseFixed pool tokenAmounts
  = Err (BalancerError MISSING_PRICE_RATE) /\
  MetaStablePoolPriceImpact.bptZeroPriceImpact parseFixed pool tokenAmounts
  = Err (BalancerError MISSING_PRICE_RATE).
Proof.
  intros Hl1 Hl2 Hl3 Hall Hamp Hinfo.
  assert (Hmis : joinLengthMismatch pool tokensIn amountsIn = false).
  { unfold joinLengthMismatch. rewrite <- Hl2, <- Hl1, Nat.eqb_refl.
    reflexivity. }
  destruct (mapM_orThrow_present MISSING_DECIMALS (parsedDecimals info)
              (present_decimals_parsed _ _ _ Hinfo Hall)) as (ds & Hds).
  split; [|split; [|split]].
  - unfold StablePoolJoin.buildJoin.
    rewrite Hmis, (existsb_absent_decimals pool Hall), Hamp. reflexivity.
  - unfold MetaStablePoolJoin.buildJoin.
    rewrite Hmis, (existsb_absent_decimals pool Hall), Hamp. reflexivity.
  - eapply stable_absent_amp; eassumption.
  - unfold MetaStablePoolPriceImpact.bptZeroPriceImpact.
    rewrite Hl3, Nat.eqb_refl. cbn [negb].
    rewrite Hinfo. cbn [bind]. rewrite Hds. cbn [bind].
    destruct (mapM (orThrow MISSING_PRICE_RATE) (parsedPriceRates info))
      as [rates|e] eqn:Hrates; cbn [bind].
    + rewrite (absent_amp_parsed _ _ _ Hinfo Hamp). reflexivity.
    + rewrite (mapM_orThrow_Err _ _ _ Hrates). reflexivity.
Qed.

Lemma missing_amp_join_and_price_impact_witness :
  StablePoolJoin.buildJoin (Ok tt) stableNoAmp
    ["0xa"%string; "0xb"%string] ["1"%string; "1"%string]
  = Err (BalancerError MISSING_AMP) /\
  StablePoolPriceImpact.bptZeroPriceImpact parseFixedDigits stableNoAmp [1; 1]
  = Err (BalancerError MISSING_PRICE_RATE).
Proof.
  destruct (parsePoolInfo parseFixedDigits stableNoAmp) as [info|e] eqn:Hinfo;
    [|vm_compute in Hinfo; discriminate Hinfo].
  destruct (missing_amp_join_and_price_impact (Ok tt) parseFixedDigits
              stableNoAmp ["0xa"%string; "0xb"%string]
              ["1"%string; "1"%string] [1; 1] info)
    as (Hj & _ & Hp & _); try reflexivity; try assumption.
  - repeat constructor; discriminate.
  - split; assumption.
Defined.

(** ** Slippage *)

(** X20.  [mulSlippage] always returns (its divisor is the constant
    10000); [subSlippage] and [addSlippage] move the amount by the same
    delta in opposite directions, so their results add up to twice the
    amount; for a non-negative amount and a slippage between 0 and 10000
    basis points the delta is the floor of [amount * slippage / 10000],
    and [0 <= subSlippage <= amount <= addSlippage <= 2 * amount]. *)
Theorem slippage_bounds (amount slippage : Z) :
  exists delta,
    mulSlippage amount slippage = Ok delta /\
    subSlippage amount slippage = Ok (amount - delta) /\
    addSlippage amount slippage = Ok (amount + delta) /\
    (0 <= amount -> 0 <= slippage <= bpsPerOne ->
     delta * bpsPerOne <= amount * slippage < (delta + 1) * bpsPerOne /\
     0 <= amount - delta <= amount /\
     amount <= amount + delta <= 2 * amount).
Proof.
  exists (Z.quot (amount * slippage) bpsPerOne).
  unfold subSlippage, addSlippage, mulSlippage, bndiv.
  replace (bpsPerOne =? 0) with false by reflexivity. cbn [bind].
  repeat split; unfold bpsPerOne in *;
    rewrite ?Z.quot_div_nonneg by nia;
    pose proof (Z.div_mod (amount * slippage) 10000 ltac:(lia));
    pose proof (Z.mod_pos_bound (amount * slippage) 10000 ltac:(lia));
    nia.
Qed.

Lemma slippage_bounds_witness :
  subSlippage 1999 50 = Ok 1990 /\ addSlippage 1999 50 = Ok 2008.
Proof.
  destruct (slippage_bounds 1999 50) as (delta & Hm & Hs & Ha & Hb).
  destruct Hb as (Hfloor & _ & _); [lia | unfold bpsPerOne; lia |].
  unfold bpsPerOne in Hfloor.
  assert (delta = 9) by lia. subst delta. split; assumption.
Defined.

(** ** Properties of the normalized weights *)

Lemma Ok_inj {A : Type} (a b : A) : @Ok A a = Ok b -> a = b.
Proof. intros H. injection H as H. exact H. Qed.

Lemma fold_left_add_acc (l : list Z) (a : Z) :
  fold_left Z.add l a = a + fold_left Z.add l 0.
Proof.
  revert a. induction l as [|x l IH]; intros a; cbn [fold_left]; [lia|].
  rewrite (IH (a + x)), (IH (0 + x)). lia.
Qed.

Lemma totalWeight_cons (w : Z) (weights : list Z) :
  totalWeight (w :: weights) = w + totalWeight weights.
Proof.
  unfold totalWeight. cbn [fold_left]. rewrite fold_left_add_acc. lia.
Qed.

Lemma totalWeight_nonneg (weights : list Z) :
  Forall (fun w => 0 <= w) weights -> 0 <= totalWeight weights.
Proof.
  induction 1 as [|w ws Hw _ IH]; [unfold totalWeight; cbn; lia|].
  rewrite totalWeight_cons. lia.
Qed.

Lemma bndiv_Ok (a b : Z) :
  b <> 0 -> bndiv a b = Ok (Z.quot a b).
Proof.
  intros Hb. unfold bndiv. destruct (Z.eqb_spec b 0); [contradiction|].
  reflexivity.
Qed.

Lemma bndiv_zero (a : Z) : bndiv a 0 = Err LibraryError.
Proof. reflexivity. Qed.

Lemma normalizeFrom_total (sum : Z) (rest : list Z) :
  forall (normalizedSum : Z) (r : list Z),
    rest <> [] ->
    normalizeFrom sum rest normalizedSum = Ok r ->
    normalizedSum + totalWeight r = WeiPerEther /\
    List.length r = List.length rest.
Proof.
  induction rest as [|w rest IH]; intros acc r Hne H; [contradiction|].
  cbn [normalizeFrom] in H. destruct rest as [|w' rest'].
  - apply Ok_inj in H. subst r. rewrite totalWeight_cons. unfold totalWeight.
    cbn [fold_left List.length]. split; [lia | reflexivity].
  - destruct (bndiv (w * WeiPerEther) sum) as [n|e]; cbn [bind] in H;
      [|discriminate H].
    destruct (normalizeFrom sum (w' :: rest') (acc + n)) as [ns|e] eqn:Hns;
      cbn [bind] in H; [|discriminate H].
    apply Ok_inj in H. subst r.
    destruct (IH (acc + n) ns ltac:(discriminate) Hns) as (Ht & Hl).
    rewrite totalWeight_cons. cbn [List.length]. cbn [List.length] in Hl.
    split; [lia | congruence].
Qed.

(** X21.  Whatever non-empty list of weights [toNormalizedWeights] is
    given, a list it returns passes [isNormalizedWeights] (its entries
    add up to exactly [1e18], the rounding remainder going to the last
    entry) and has as many entries as the input. *)
Theorem toNormalizedWeights_normalized (weights r : list Z) :
  weights <> [] ->
  toNormalizedWeights weights = Ok r ->
  isNormalizedWeights r = true /\ List.length r = List.length weights.
Proof.
  intros Hne H. unfold toNormalizedWeights in H.
  destruct (Nat.eqb_spec (List.length weights) MaxWeightedTokens) as [Hl|Hl].
  - apply Ok_inj in H. subst r. rewrite Hl. split; reflexivity.
  - destruct (Z.eqb_spec (totalWeight weights) WeiPerEther) as [Hs|Hs].
    + apply Ok_inj in H. subst r. unfold isNormalizedWeights. rewrite Hs.
      split; [apply Z.eqb_refl | reflexivity].
    + destruct (normalizeFrom_total _ _ _ _ Hne H) as (Ht & Hlen).
      unfold isNormalizedWeights. split; [apply Z.eqb_eq; lia | assumption].
Qed.

Lemma toNormalizedWeights_normalized_witness :
  toNormalizedWeights [1; 1; 1]
  = Ok [333333333333333333; 333333333333333333; 333333333333333334] /\
  isNormalizedWeights
    [333333333333333333; 333333333333333333; 333333333333333334] = true.
Proof.
  split; [reflexivity|].
  apply (toNormalizedWeights_normalized [1; 1; 1]);
    [discriminate | reflexivity].
Defined.

Lemma normalizeFrom_nonneg (sum : Z) (rest : list Z) :
  0 < sum ->
  Forall (fun w => 0 <= w) rest ->
  forall normalizedSum : Z,
    0 <= normalizedSum ->
    normalizedSum * sum + WeiPerEther * totalWeight rest <= WeiPerEther * sum ->
    exists r, normalizeFrom sum rest normalizedSum = Ok r /\
              Forall (fun w => 0 <= w) r.
Proof.
  intros Hsum Hall. induction Hall as [|w rest Hw Hrest IH]; intros acc Hacc Hinv.
  - exists []. split; [reflexivity | constructor].
  - cbn [normalizeFrom]. destruct rest as [|w' rest'].
    + exists [WeiPerEther - acc]. split; [reflexivity|].
      constructor; [|constructor].
      rewrite totalWeight_cons in Hinv. unfold totalWeight in Hinv.
      cbn [fold_left] in Hinv. unfold WeiPerEther in *. nia.
    + rewrite (bndiv_Ok _ sum) by lia. cbn [bind].
      set (n := Z.quot (w * WeiPerEther) sum).
      assert (Hn : 0 <= n /\ n * sum <= w * WeiPerEther).
      { unfold n. rewrite Z.quot_div_nonneg by (unfold WeiPerEther; lia).
        pose proof (Z.div_mod (w * WeiPerEther) sum ltac:(lia)).
        pose proof (Z.mod_pos_bound (w * WeiPerEther) sum Hsum).
        split; [apply Z.div_pos; unfold WeiPerEther; lia | nia]. }
      destruct (IH (acc + n)) as (ns & Hns & Hpos); [lia | |].
      * rewrite totalWeight_cons in Hinv. nia.
      * rewrite Hns. cbn [bind]. exists (n :: ns).
        split; [reflexivity | constructor; [lia | assumption]].
Qed.

(** X22.  For non-negative weights with a positive total,
    [toNormalizedWeights] returns, and every weight it returns lies
    between 0 and [1e18]: giving the rounding remainder to the last
    entry never makes it negative. *)
Theorem toNormalizedWeights_range (weights : list Z) :
  Forall (fun w => 0 <= w) weights ->
  0 < totalWeight weights ->
  exists r, toNormalizedWeights weights = Ok r /\
            Forall (fun w => 0 <= w <= WeiPerEther) r.
Proof.
  intros Hall Hsum.
  assert (Hrange : forall r, Forall (fun w => 0 <= w) r ->
                             totalWeight r = WeiPerEther ->
                             Forall (fun w => 0 <= w <= WeiPerEther) r).
  { intros r Hr. generalize WeiPerEther as t.
    induction Hr as [|w ws Hw Hws IH]; intros t Ht; constructor.
    - rewrite totalWeight_cons in Ht.
      pose proof (totalWeight_nonneg ws Hws). lia.
    - rewrite totalWeight_cons in Ht.
      pose proof (totalWeight_nonneg ws Hws).
      eapply Forall_impl; [|apply (IH (totalWeight ws) eq_refl)].
      cbn beta. intros a Ha. lia. }
  unfold toNormalizedWeights.
  destruct (Nat.eqb_spec (List.length weights) MaxWeightedTokens) as [Hl|Hl].
  - exists (repeat 10000000000000000 MaxWeightedTokens).
    split; [vm_compute; reflexivity|].
    apply Forall_forall. intros w Hw. apply repeat_spec in Hw. subst w.
    unfold WeiPerEther. lia.
  - destruct (Z.eqb_spec (totalWeight weights) WeiPerEther) as [Hs|Hs].
    + exists weights. split; [reflexivity | apply Hrange; assumption].
    + destruct (normalizeFrom_nonneg (totalWeight weights) weights Hsum Hall 0)
        as (r & Hr & Hpos); [lia | lia |].
      exists r. split; [assumption|]. apply Hrange; [assumption|].
      assert (Hne : weights <> []).
      { intros ->. unfold totalWeight in Hsum. cbn in Hsum. lia. }
      destruct (normalizeFrom_total _ _ _ _ Hne Hr) as (Ht & _). lia.
Qed.

Lemma toNormalizedWeights_range_witness :
  exists r, toNormalizedWeights [2; 0; 5] = Ok r /\
            Forall (fun w => 0 <= w <= WeiPerEther) r.
Proof.
  apply toNormalizedWeights_range.
  - repeat constructor; lia.
  - vm_compute. reflexivity.
Defined.

Lemma normalizeFrom_fails (rest : list Z) :
  forall normalizedSum : Z,
    (2 <= List.length rest)%nat ->
    normalizeFrom 0 rest normalizedSum = Err LibraryError.
Proof.
  destruct rest as [|w [|w' rest']]; intros acc Hlen;
    cbn [List.length] in Hlen; try lia.
  cbn [normalizeFrom]. rewrite bndiv_zero. reflexivity.
Qed.

Lemma normalizeFrom_returns (sum : Z) (rest : list Z) :
  forall normalizedSum : Z,
    sum <> 0 \/ (List.length rest < 2)%nat ->
    exists r, normalizeFrom sum rest normalizedSum = Ok r.
Proof.
  induction rest as [|w rest IH]; intros acc Hc; [exists []; reflexivity|].
  cbn [normalizeFrom]. destruct rest as [|w' rest'].
  - eexists. reflexivity.
  - destruct Hc as [Hs|Hl]; [|cbn [List.length] in Hl; lia].
    rewrite (bndiv_Ok _ sum Hs). cbn [bind].
    destruct (IH (acc + Z.quot (w * WeiPerEther) sum) (or_introl Hs))
      as (ns & ->).
    cbn [bind]. eexists. reflexivity.
Qed.

(** X23.  [toNormalizedWeights] fails only by dividing by zero, and it
    does so exactly when the weights add up to zero and there are at
    least two of them, but not exactly 100: with 100 weights the input
    is ignored and every weight is [1e16], and a list of any other
    length that already adds up to [1e18] is returned unchanged. *)
Theorem toNormalizedWeights_failure (weights : list Z) :
  (List.length weights = MaxWeightedTokens ->
   toNormalizedWeights weights = Ok (repeat 10000000000000000 100)) /\
  (List.length weights <> MaxWeightedTokens ->
   isNormalizedWeights weights = true ->
   toNormalizedWeights weights = Ok weights) /\
  (List.length weights <> MaxWeightedTokens ->
   totalWeight weights = 0 -> (2 <= List.length weights)%nat ->
   toNormalizedWeights weights = Err LibraryError) /\
  (forall e, toNormalizedWeights weights = Err e ->
             e = LibraryError /\
             List.length weights <> MaxWeightedTokens /\
             totalWeight weights = 0 /\ (2 <= List.length weights)%nat).
Proof.
  unfold toNormalizedWeights, isNormalizedWeights.
  destruct (Nat.eqb_spec (List.length weights) MaxWeightedTokens) as [Hl|Hl].
  - split; [intros _; vm_compute; reflexivity|].
    split; [intros Hc; contradiction|]. split; [intros Hc; contradiction|].
    intros e H. vm_compute in H. discriminate H.
  - split; [contradiction|]. split; [intros _ ->; reflexivity|].
    split.
    + intros _ Hz Hlen. rewrite Hz.
      replace (0 =? WeiPerEther) with false by reflexivity.
      apply normalizeFrom_fails. assumption.
    + intros e H.
      destruct (Z.eqb_spec (totalWeight weights) WeiPerEther) as [Hs|Hs];
        [discriminate H|].
      destruct (Z.eq_dec (totalWeight weights) 0) as [Hz|Hz].
      * destruct (Nat.le_gt_cases 2 (List.length weights)) as [Hlen|Hlen].
        -- rewrite Hz in H. rewrite (normalizeFrom_fails _ _ Hlen) in H.
           injection H as <-. repeat split; assumption.
        -- destruct (normalizeFrom_returns (totalWeight weights) weights 0
                       (or_intror Hlen)) as (r & Hr).
           rewrite Hr in H. discriminate H.
      * destruct (normalizeFrom_returns (totalWeight weights) weights 0
                    (or_introl Hz)) as (r & Hr).
        rewrite Hr in H. discriminate H.
Qed.

Lemma toNormalizedWeights_failure_witness :
  toNormalizedWeights [5; -5] = Err LibraryError.
Proof.
  destruct (toNormalizedWeights_failure [5; -5]) as (_ & _ & H & _).
  apply H; [unfold MaxWeightedTokens; cbn; lia | reflexivity | cbn; lia].
Defined.

(** ** The trimming parser *)

Lemma digitsUpTo_shape (n : nat) (s : string) :
  allDigits (digitsUpTo n s) = true /\
  (String.length (digitsUpTo n s) <= n)%nat.
Proof.
  revert s. induction n as [|n IH]; intros s; [destruct s; split; cbn; auto|].
  destruct s as [|c s]; cbn [digitsUpTo]; [split; cbn; auto; lia|].
  destruct (isDigit c) eqn:Hc; [|split; cbn; auto; lia].
  destruct (IH s) as (Ha & Hl). cbn [allDigits String.length].
  rewrite Hc, Ha. split; [reflexivity | lia].
Qed.

Lemma digitsUpTo_fixed (n : nat) (s : string) :
  digitsUpTo n (digitsUpTo n s) = digitsUpTo n s.
Proof.
  revert s. induction n as [|n IH]; intros s; [destruct s; reflexivity|].
  destruct s as [|c s]; cbn [digitsUpTo]; [reflexivity|].
  destruct (isDigit c) eqn:Hc; [|reflexivity].
  cbn [digitsUpTo]. rewrite Hc, IH. reflexivity.
Qed.

Lemma matchFrom_fixed (d : nat) (s : string) :
  matchFrom d (matchFrom d s) = matchFrom d s.
Proof.
  induction s as [|c s IH]; [reflexivity|]. cbn [matchFrom].
  destruct (isDigit c) eqn:Hc.
  - cbn [matchFrom]. rewrite Hc, IH. reflexivity.
  - destruct (Ascii.eqb c dot) eqn:Hdot; [|reflexivity].
    cbn [matchFrom]. rewrite Hc, Hdot, digitsUpTo_fixed. reflexivity.
Qed.

Lemma firstMatch_none (d : nat) (value : string) :
  hasDigit value = false -> firstMatch d value = None.
Proof.
  induction value as [|c s IH]; [reflexivity|]. cbn [hasDigit firstMatch].
  destruct (isDigit c); [discriminate|]. exact IH.
Qed.

Lemma digitsUpTo_split (n : nat) (s : string) :
  exists rest,
    s = String.append (digitsUpTo n s) rest /\
    (String.length (digitsUpTo n s) = n \/ noDigitAhead rest = true).
Proof.
  revert s. induction n as [|n IH]; intros s.
  - exists s. destruct s; split; try reflexivity; left; reflexivity.
  - destruct s as [|c s]; cbn [digitsUpTo].
    + exists EmptyString. split; [reflexivity | right; reflexivity].
    + destruct (isDigit c) eqn:Hc.
      * destruct (IH s) as (rest & Hs & Hrest). exists rest.
        cbn [String.append String.length]. split; [congruence|].
        destruct Hrest as [Hl|Hr]; [left; lia | right; assumption].
      * exists (String c s). split; [reflexivity|]. right.
        cbn [noDigitAhead]. rewrite Hc. reflexivity.
Qed.

Lemma matchFrom_split (d : nat) (s : string) :
  exists int frac rest,
    s = String.append (matchFrom d s) rest /\
    matchFrom d s = String.append int frac /\
    allDigits int = true /\
    ((frac = EmptyString /\ numberEnds rest = true) \/
     exists f, frac = String dot f /\ allDigits f = true /\
               (String.length f <= d)%nat /\
               (String.length f = d \/ noDigitAhead rest = true)).
Proof.
  induction s as [|c s IH].
  - exists EmptyString, EmptyString, EmptyString.
    repeat split. left. split; reflexivity.
  - cbn [matchFrom]. destruct (isDigit c) eqn:Hc.
    + destruct IH as (int & frac & rest & Hs & Hm & Hint & Hfrac).
      exists (String c int), frac, rest. cbn [String.append allDigits].
      rewrite Hc, Hint, <- Hm, <- Hs. repeat split. assumption.
    + destruct (Ascii.eqb c dot) eqn:Hdot.
      * apply Ascii.eqb_eq in Hdot. subst c.
        destruct (digitsUpTo_split d s) as (rest & Hs & Hrest).
        destruct (digitsUpTo_shape d s) as (Ha & Hl).
        exists EmptyString, (String dot (digitsUpTo d s)), rest.
        cbn [String.append]. rewrite <- Hs. repeat split.
        right. exists (digitsUpTo d s). repeat split; assumption.
      * exists EmptyString, EmptyString, (String c s).
        repeat split. left. split; [reflexivity|].
        cbn [numberEnds]. rewrite Hc, Hdot. reflexivity.
Qed.

Lemma firstMatch_split (d : nat) (value : string) :
  hasDigit value = true ->
  exists prefix c s,
    value = String.append prefix (String c s) /\
    hasDigit prefix = false /\ isDigit c = true /\
    firstMatch d value = Some (String c (matchFrom d s)).
Proof.
  induction value as [|c s IH]; [discriminate|]. cbn [hasDigit firstMatch].
  destruct (isDigit c) eqn:Hc.
  - intros _. exists EmptyString, c, s. cbn [matchFrom]. rewrite Hc.
    repeat split; assumption.
  - cbn [orb]. intros Hs.
    destruct (IH Hs) as (prefix & c' & s' & Hv & Hp & Hc' & Hm).
    exists (String c prefix), c', s'. cbn [String.append hasDigit].
    rewrite Hc, Hp, <- Hv. repeat split; assumption.
Qed.

(** X24.  What the trimming [parseFixed] hands to the ethers parser: the
    value itself when it contains no digit; otherwise the part of the
    value that starts at its first digit and consists of the whole run of
    digits found there and, if a dot follows the run, of the dot and the
    digits after it, up to [decimals] of them: as many as there are when
    fewer than [decimals] digits follow the dot, the first [decimals]
    otherwise.  The text is taken from the value as it stands, so excess
    fractional digits are cut off, not rounded.  Parsing the trimmed text
    again gives the same result. *)
Theorem parseFixed_trimmed (ethers : Parser) (value : string) (d : nat) :
  exists parsedValue,
    parseFixed ethers value d = ethers parsedValue (Some (Z.of_nat d)) /\
    parseFixed ethers parsedValue d = parseFixed ethers value d /\
    (hasDigit value = false -> parsedValue = value) /\
    (hasDigit value = true ->
     exists prefix int frac rest,
       value = String.append prefix (String.append parsedValue rest) /\
       hasDigit prefix = false /\
       parsedValue = String.append int frac /\
       int <> EmptyString /\ allDigits int = true /\
       ((frac = EmptyString /\ numberEnds rest = true) \/
        exists f, frac = String dot f /\ allDigits f = true /\
                  (String.length f <= d)%nat /\
                  (String.length f = d \/ noDigitAhead rest = true))).
Proof.
  destruct (hasDigit value) eqn:Hd.
  - destruct (firstMatch_split d value Hd) as (prefix & c & s & Hv & Hp & Hc & Hm).
    exists (String c (matchFrom d s)). unfold parseFixed. rewrite Hm.
    split; [reflexivity|]. split; [|split; [discriminate|]].
    + cbn [firstMatch]. rewrite Hc. cbn [matchFrom]. rewrite Hc.
      rewrite matchFrom_fixed. reflexivity.
    + intros _.
      destruct (matchFrom_split d s) as (int & frac & rest & Hs & Hi & Ha & Hf).
      exists prefix, (String c int), frac, rest.
      cbn [String.append allDigits]. rewrite <- Hs, <- Hi, Hc, Ha.
      repeat split; try assumption. discriminate.
  - exists value. unfold parseFixed. rewrite (firstMatch_none d value Hd).
    repeat split. discriminate.
Qed.

(** The ethers parser replaced by a function that returns the length of
    the text it is given: of ["x-12.3456y"], at two decimals, the text
    handed over is ["12.34"]. *)
Example parseFixed_trimmed_at :
  parseFixed (fun v _ => Ok (Z.of_nat (String.length v)))
             "x-12.3456y"%string 2 = Ok 5 /\
  firstMatch 2 "x-12.3456y"%string = Some "12.34"%string.
Proof. split; reflexivity. Qed.

Lemma matchFrom_digits (d : nat) (digits rest : string) (c : Ascii.ascii) :
  allDigits digits = true ->
  isDigit c = false -> Ascii.eqb c dot = false ->
  matchFrom d (String.append digits (String c rest)) = digits.
Proof.
  intros Hall Hc Hdot. induction digits as [|x digits IH].
  - cbn [String.append matchFrom]. rewrite Hc, Hdot. reflexivity.
  - cbn [allDigits] in Hall. apply andb_true_iff in Hall.
    destruct Hall as (Hx & Hall).
    cbn [String.append matchFrom]. rewrite Hx, (IH Hall). reflexivity.
Qed.

Lemma firstMatch_prefix (d : nat) (prefix value : string) :
  hasDigit prefix = false ->
  firstMatch d (String.append prefix value) = firstMatch d value.
Proof.
  induction prefix as [|c prefix IH]; [reflexivity|].
  cbn [hasDigit String.append firstMatch].
  destruct (isDigit c); [discriminate|]. exact IH.
Qed.

(** X25.  The trimming [parseFixed] ignores whatever precedes the first
    digit and whatever follows the number: a value made of a digit-free
    prefix (a minus sign, say), a non-empty run of digits and a rest
    that starts with a character other than a digit or a dot (an
    exponent such as [e-7], say) is parsed as the run of digits alone. *)
Theorem parseFixed_ignores_sign_and_exponent
        (ethers : Parser) (prefix digits rest : string) (c : Ascii.ascii)
        (d : nat) :
  hasDigit prefix = false ->
  digits <> EmptyString -> allDigits digits = true ->
  isDigit c = false -> Ascii.eqb c dot = false ->
  parseFixed ethers
    (String.append prefix (String.append digits (String c rest))) d
  = ethers digits (Some (Z.of_nat d)).
Proof.
  intros Hp Hne Hall Hc Hdot. unfold parseFixed.
  rewrite (firstMatch_prefix d _ _ Hp).
  destruct digits as [|x digits]; [contradiction|].
  pose proof (matchFrom_digits d (String x digits) rest c Hall Hc Hdot) as Hm.
  cbn [allDigits] in Hall. apply andb_true_iff in Hall.
  destruct Hall as (Hx & _).
  cbn [String.append firstMatch]. rewrite Hx.
  cbn [String.append] in Hm. rewrite Hm. reflexivity.
Qed.

Lemma parseFixed_ignores_sign_and_exponent_witness :
  parseFixed parseFixedDigits "-1e-7"%string 18
  = Ok 1000000000000000000.
Proof.
  pose proof (parseFixed_ignores_sign_and_exponent parseFixedDigits
                "-"%string "1"%string "-7"%string (Ascii.ascii_of_nat 101) 18
                eq_refl ltac:(discriminate) eq_refl eq_refl eq_refl) as H.
  exact H.
Defined.

(** ** Weighted pools: a missing weight and an empty balance *)

Lemma sumTerms_first_error (newTerm : nat -> res Z) (i : nat) (e : exn)
      (before after : list nat) :
  (forall j, In j before -> exists t, newTerm j = Ok t) ->
  newTerm i = Err e ->
  forall acc, sumTerms newTerm (before ++ i :: after) acc = Err e.
Proof.
  intros Hbefore Hi. induction before as [|j before IH]; intros acc.
  - cbn [app sumTerms]. rewrite Hi. reflexivity.
  - cbn [app sumTerms].
    destruct (Hbefore j (or_introl eq_refl)) as (t & ->). cbn [bind].
    apply IH. intros k Hk. apply Hbefore. right. assumption.
Qed.

Lemma seq_split_at (i n : nat) :
  (i < n)%nat -> seq 0 n = seq 0 i ++ i :: seq (S i) (n - S i).
Proof.
  intros Hi. replace n with (i + S (n - S i))%nat at 1 by lia.
  rewrite seq_app. reflexivity.
Qed.

Lemma computeScalingFactor_Ok (d : Z) :
  d <= 18 -> _computeScalingFactor d = Ok (ONE * 10 ^ (18 - d)).
Proof.
  intros Hd. unfold _computeScalingFactor, bigpow.
  destruct (Z.ltb_spec (18 - d) 0); [lia|]. reflexivity.
Qed.

Lemma upscale_by_scalingFactor (amount d : Z) :
  _upscale amount (ONE * 10 ^ (18 - d)) = Ok (amount * 10 ^ (18 - d)).
Proof.
  unfold _upscale. rewrite mulDownFixed_Ok. f_equal.
  replace (amount * (ONE * 10 ^ (18 - d)))
    with (amount * 10 ^ (18 - d) * ONE) by ring.
  apply Z.quot_mul. unfold ONE. lia.
Qed.

Lemma weighted_first_defect
        (parseFixed : Parser) (pool : Pool) (tokenAmounts : list Z)
        (info : PoolInfo) (i : nat) :
  List.length tokenAmounts = List.length (tokensList pool) ->
  parsePoolInfo parseFixed pool = Ok info ->
  (i < List.length (tokensList pool))%nat ->
  (forall j, (j <= i)%nat ->
     exists d b,
       read_optional (parsedDecimals info) j = Some d /\ d <= 18 /\
       nth_error (parsedBalances info) j = Some b /\
       ((j < i)%nat ->
        b <> 0 /\ read_optional (parsedWeights info) j <> None)) ->
  (read_optional (parsedWeights info) i = None ->
   WeightedPoolPriceImpact.bptZeroPriceImpact parseFixed pool tokenAmounts
   = Err (BalancerError MISSING_WEIGHT)) /\
  (read_optional (parsedWeights info) i <> None ->
   nth_error (parsedBalances info) i = Some 0 ->
   WeightedPoolPriceImpact.bptZeroPriceImpact parseFixed pool tokenAmounts
   = Err RangeError).
Proof.
  intros Hlen Hinfo Hi Hup.
  assert (Hbefore : forall j, In j (seq 0 i) ->
    exists t,
      (decimals_ <- orThrow MISSING_DECIMALS
                            (read_optional (parsedDecimals info) j) ;;
       scalingFactor <- _computeScalingFactor decimals_ ;;
       parsedBalance <- at_index (parsedBalances info) j ;;
       balance_ <- _upscale parsedBalance scalingFactor ;;
       weight_ <- orThrow MISSING_WEIGHT
                          (read_optional (parsedWeights info) j) ;;
       price <- bigdiv (weight_ * parsedTotalShares info) balance_ ;;
       amount <- at_index tokenAmounts j ;;
       amountUpscaled <- _upscale amount scalingFactor ;;
       Ok (Z.quot (price * amountUpscaled) ONE)) = Ok t).
  { intros j Hj. apply in_seq in Hj.
    destruct (Hup j ltac:(lia)) as (d & b & Hd & Hd18 & Hb & Hrest).
    destruct (Hrest ltac:(lia)) as (Hb0 & Hw).
    rewrite Hd. cbn [orThrow bind].
    rewrite (computeScalingFactor_Ok d Hd18). cbn [bind].
    unfold at_index at 1. rewrite Hb. cbn [bind].
    rewrite upscale_by_scalingFactor. cbn [bind].
    destruct (read_optional (parsedWeights info) j) as [w|];
      [|contradiction]. cbn [orThrow bind].
    unfold bigdiv.
    assert (Hpow : 0 < 10 ^ (18 - d)) by (apply Z.pow_pos_nonneg; lia).
    destruct (Z.eqb_spec (b * 10 ^ (18 - d)) 0) as [Hz|Hz]; [nia|].
    cbn [bind]. unfold at_index.
    destruct (nth_error tokenAmounts j) as [a|] eqn:Ha.
    - cbn [bind]. rewrite upscale_by_scalingFactor. cbn [bind].
      eexists. reflexivity.
    - apply nth_error_None in Ha. lia. }
  destruct (Hup i (le_n i)) as (d & b & Hd & Hd18 & Hb & _).
  split.
  - intros Hw. unfold WeightedPoolPriceImpact.bptZeroPriceImpact.
    rewrite Hlen, Nat.eqb_refl. cbn [negb]. rewrite Hinfo. cbn [bind].
    rewrite (seq_split_at i _ Hi).
    apply sumTerms_first_error; [exact Hbefore|].
    rewrite Hd. cbn [orThrow bind].
    rewrite (computeScalingFactor_Ok d Hd18). cbn [bind].
    unfold at_index at 1. rewrite Hb. cbn [bind].
    rewrite upscale_by_scalingFactor. cbn [bind].
    rewrite Hw. reflexivity.
  - intros Hw Hzero. rewrite Hzero in Hb. injection Hb as <-.
    unfold WeightedPoolPriceImpact.bptZeroPriceImpact.
    rewrite Hlen, Nat.eqb_refl. cbn [negb]. rewrite Hinfo. cbn [bind].
    rewrite (seq_split_at i _ Hi).
    apply sumTerms_first_error; [exact Hbefore|].
    rewrite Hd. cbn [orThrow bind].
    rewrite (computeScalingFactor_Ok d Hd18). cbn [bind].
    unfold at_index at 1. rewrite Hzero. cbn [bind].
    rewrite upscale_by_scalingFactor. cbn [bind].
    destruct (read_optional (parsedWeights info) i) as [w|];
      [|contradiction]. cbn [orThrow bind].
    rewrite Z.mul_0_l. reflexivity.
Qed.

(** X26.  In the weighted [bptZeroPriceImpact] the tokens are examined
    one after the other.  If every token up to the [i]-th has decimals
    (a number other than 0, at most 18) and a parsed balance, and every
    token before it has a weight and a balance other than zero, then a
    missing weight of
    token [i] makes the call fail with [MISSING_WEIGHT], and a zero
    balance of a token [i] that has a weight makes it fail with the
    [RangeError] of a division by zero. *)
Theorem weighted_missing_weight_or_zero_balance
        (parseFixed : Parser) (pool : Pool) (tokenAmounts : list Z)
        (info : PoolInfo) (i : nat) :
  List.length tokenAmounts = List.length (tokensList pool) ->
  parsePoolInfo parseFixed pool = Ok info ->
  (i < List.length (tokensList pool))%nat ->
  (forall j, (j <= i)%nat ->
     exists d b,
       read_optional (parsedDecimals info) j = Some d /\ d <= 18 /\
       nth_error (parsedBalances info) j = Some b /\
       ((j < i)%nat ->
        b <> 0 /\ read_optional (parsedWeights info) j <> None)) ->
  (read_optional (parsedWeights info) i = None ->
   WeightedPoolPriceImpact.bptZeroPriceImpact parseFixed pool tokenAmounts
   = Err (BalancerError MISSING_WEIGHT)) /\
  (read_optional (parsedWeights info) i <> None ->
   nth_error (parsedBalances info) i = Some 0 ->
   WeightedPoolPriceImpact.bptZeroPriceImpact parseFixed pool tokenAmounts
   = Err RangeError).
Proof.
  intros Hlen Hinfo Hi Hup.
  exact (weighted_first_defect parseFixed pool tokenAmounts info i
           Hlen Hinfo Hi Hup).
Qed.

Lemma weighted_missing_weight_or_zero_balance_witness :
  WeightedPoolPriceImpact.bptZeroPriceImpact parseFixedDigits emptyBalancePool
    [1; 1]
  = Err RangeError.
Proof.
  destruct (parsePoolInfo parseFixedDigits emptyBalancePool) as [info|e]
    eqn:Hinfo; [|vm_compute in Hinfo; discriminate Hinfo].
  apply (weighted_missing_weight_or_zero_balance parseFixedDigits
           emptyBalancePool [1; 1] info 1 eq_refl Hinfo);
    vm_compute in Hinfo; apply Ok_inj in Hinfo; subst info.
  - cbn. lia.
  - intros j Hj. destruct j as [|[|j]]; [| |lia].
    + eexists. eexists. split; [reflexivity|]. split; [lia|].
      split; [reflexivity|]. intros _. split; discriminate.
    + eexists. eexists. split; [reflexivity|]. split; [lia|].
      split; [reflexivity|]. intros Hlt. lia.
  - discriminate.
  - reflexivity.
Defined.

(** ** Weighted pools: the order of the checks *)

(** X27.  The weighted join builder and the weighted price-impact
    calculator order their checks differently.  The builder looks for a
    token without decimals among all tokens before it looks at any
    weight; the calculator goes token by token.  For a pool whose first
    token has decimals but no weight and one of whose later tokens has
    no decimals, [buildJoin] fails with [MISSING_DECIMALS] and
    [bptZeroPriceImpact] fails with [MISSING_WEIGHT]. *)
Theorem weighted_join_and_price_impact_order {A : Type} (rest : res A)
        (parseFixed : Parser) (pool : Pool) (tokensIn amountsIn : list string)
        (tokenAmounts : list Z) (info : PoolInfo)
        (t : Token) (ts : list Token) (d : Z) :
  tokens pool = t :: ts ->
  List.length tokensIn = List.length amountsIn ->
  List.length tokensIn = List.length (tokensList pool) ->
  List.length tokenAmounts = List.length (tokensList pool) ->
  (0 < List.length (tokensList pool))%nat ->
  parsePoolInfo parseFixed pool = Ok info ->
  truthyNumber (decimals t) = Some d -> d <= 18 ->
  truthyString (weight t) = None ->
  Exists (fun token => truthyNumber (decimals token) = None) ts ->
  WeightedPoolJoin.buildJoin rest pool tokensIn amountsIn
  = Err (BalancerError MISSING_DECIMALS) /\
  WeightedPoolPriceImpact.bptZeroPriceImpact parseFixed pool tokenAmounts
  = Err (BalancerError MISSING_WEIGHT).
Proof.
  intros Htokens Hl1 Hl2 Hl3 Hpos Hinfo Hd Hd18 Hw Hex. split.
  - unfold WeightedPoolJoin.buildJoin, joinLengthMismatch.
    rewrite <- Hl2, <- Hl1, Nat.eqb_refl. cbn [negb orb].
    rewrite Htokens. cbn [existsb]. rewrite Hd. cbn [isAbsent orb].
    apply Exists_exists in Hex. destruct Hex as (x & Hin & Hx).
    assert (Hsome : existsb (fun token => isAbsent (truthyNumber (decimals token)))
                            ts = true).
    { apply existsb_exists. exists x. rewrite Hx. split; [assumption|reflexivity]. }
    rewrite Hsome. reflexivity.
  - destruct (parsePoolInfo_inv _ _ _ Hinfo) as (Hds & Hbals & _).
    destruct (parsePoolInfo_rates _ _ _ Hinfo) as (_ & Hws & _).
    rewrite Htokens in Hds, Hbals, Hws.
    destruct (mapM_nth _ _ _ Hbals) as (_ & Hb).
    destruct (Hb 0%nat t eq_refl) as (b & _ & Hb0).
    destruct (mapM_nth _ _ _ Hws) as (_ & Hwn).
    destruct (Hwn 0%nat t eq_refl) as (w & Hwt & Hw0).
    unfold parseOptional in Hwt. rewrite Hw in Hwt.
    apply Ok_inj in Hwt. subst w.
    apply (weighted_first_defect parseFixed pool tokenAmounts info 0
             Hl3 Hinfo Hpos).
    + intros j Hj. assert (j = 0)%nat by lia. subst j.
      exists d, b. unfold read_optional. rewrite Hds. cbn [map nth_error].
      rewrite Hd. repeat split; try assumption; lia.
    + unfold read_optional. rewrite Hw0. reflexivity.
Qed.

Lemma weighted_join_and_price_impact_order_witness :
  WeightedPoolJoin.buildJoin (Ok tt) twoDefectsPool
    ["0xa"%string; "0xb"%string] ["1"%string; "1"%string]
  = Err (BalancerError MISSING_DECIMALS) /\
  WeightedPoolPriceImpact.bptZeroPriceImpact parseFixedDigits twoDefectsPool
    [1; 1]
  = Err (BalancerError MISSING_WEIGHT).
Proof.
  destruct (parsePoolInfo parseFixedDigits twoDefectsPool) as [info|e]
    eqn:Hinfo; [|vm_compute in Hinfo; discriminate Hinfo].
  apply (weighted_join_and_price_impact_order (Ok tt) parseFixedDigits
           twoDefectsPool ["0xa"%string; "0xb"%string]
           ["1"%string; "1"%string] [1; 1] info _ _ 18 eq_refl eq_refl
           eq_refl eq_refl);
    try reflexivity; try assumption.
  - cbn. lia.
  - apply Exists_cons_hd. reflexivity.
Defined.
